(** * Fractal story outliner: the hierarchical document model

    A shallow embedding of the document store of the outliner
    (model/types.ts and state/store.ts, with the callers in App.tsx and
    canvas/Stage.tsx) and the properties of its operations:
    [toggleExpand], [moveNode] with its cascade [moveChildren],
    [resizeNode], the template built by [initialGraph], and the
    serializer [saveJSON] / [loadJSON].

    Conventions.
    - A JavaScript [number] is an IEEE 754 binary64 value: Rocq's
      primitive [float], whose [+] is the same rounding addition.
    - [Record<string, BaseNode>] is a [gmap string BaseNode]; every key
      holds an object of its own (this is the case for a template and for
      the result of [JSON.parse]), so the in-place assignments of the
      store are inserts at one key.
    - The recursion of [moveChildren] is bounded by a fuel argument; a
      call returns when some fuel gives [Some]. [None] is a call that
      returns no state: the recursion has not ended within the fuel, or
      the call throws.
    - [state.nodes[id]] reads through the prototype chain. For an id that
      is not a key and names a property of [Object.prototype] it gives an
      inherited value, which is truthy and is not a node: [moveNode] then
      throws at [n.pos.x]; [toggleExpand] and [resizeNode] assign to the
      inherited value and leave the document as it is. [Object.prototype]
      is taken as the engine creates it: what such an assignment adds to
      it (with the id [__proto__]) is not followed. *)

From Stdlib Require Import Floats Ascii.
From stdpp Require Import gmap strings list fin_maps relations pretty.

Abbreviation number := float (only parsing).
Abbreviation card := (stdpp.base.size) (only parsing).

(** ** model/types.ts *)

Inductive NodeKind := act | sequence | step | beat.

Record Size := { w : number; h : number }.
Record Point := { x : number; y : number }.

Record BaseNode := {
  id : string;
  kind : NodeKind;
  title : string;
  body : string;
  pos : Point;
  size : Size;
  headerHeight : number;
  expanded : bool;
  attachedToParent : bool;
  relativeOffset : option Point;
  parentId : option string;
  childIds : list string
}.

Record GraphState := {
  nodes : gmap string BaseNode;
  rootId : string
}.

Module K.
Definition headerHeight : number := 36%float.
Definition innerPad : number := 12%float.
Definition outerGap : number := 20%float.
Definition beatGap : number := 12%float.
End K.

#[global] Instance NodeKind_eq_dec : EqDecision NodeKind.
Proof. solve_decision. Defined.

(** Assignments to one field of a node object. *)

Definition set_pos (p : Point) (n : BaseNode) : BaseNode :=
  {| id := id n; kind := kind n; title := title n; body := body n;
     pos := p; size := size n; headerHeight := headerHeight n;
     expanded := expanded n; attachedToParent := attachedToParent n;
     relativeOffset := relativeOffset n; parentId := parentId n;
     childIds := childIds n |}.

Definition set_size (s : Size) (n : BaseNode) : BaseNode :=
  {| id := id n; kind := kind n; title := title n; body := body n;
     pos := pos n; size := s; headerHeight := headerHeight n;
     expanded := expanded n; attachedToParent := attachedToParent n;
     relativeOffset := relativeOffset n; parentId := parentId n;
     childIds := childIds n |}.

Definition set_expanded (b : bool) (n : BaseNode) : BaseNode :=
  {| id := id n; kind := kind n; title := title n; body := body n;
     pos := pos n; size := size n; headerHeight := headerHeight n;
     expanded := b; attachedToParent := attachedToParent n;
     relativeOffset := relativeOffset n; parentId := parentId n;
     childIds := childIds n |}.

Definition set_relativeOffset (o : option Point) (n : BaseNode) : BaseNode :=
  {| id := id n; kind := kind n; title := title n; body := body n;
     pos := pos n; size := size n; headerHeight := headerHeight n;
     expanded := expanded n; attachedToParent := attachedToParent n;
     relativeOffset := o; parentId := parentId n;
     childIds := childIds n |}.

Definition set_childIds (l : list string) (n : BaseNode) : BaseNode :=
  {| id := id n; kind := kind n; title := title n; body := body n;
     pos := pos n; size := size n; headerHeight := headerHeight n;
     expanded := expanded n; attachedToParent := attachedToParent n;
     relativeOffset := relativeOffset n; parentId := parentId n;
     childIds := l |}.

(** ** state/store.ts: the mutations *)

(** [{ x: n.pos.x + dx, y: n.pos.y + dy }] assigned to [n.pos]. *)
Definition translate (dx dy : number) (n : BaseNode) : BaseNode :=
  set_pos {| x := (x (pos n) + dx)%float; y := (y (pos n) + dy)%float |} n.

(** Every mutation returns [{ nodes: { ...state.nodes } }], which zustand's
    [set] merges into the state: [nodes] is replaced, [rootId] is kept. *)
Definition with_nodes (m : gmap string BaseNode) (state : GraphState) : GraphState :=
  {| nodes := m; rootId := rootId state |}.

Definition toggleExpand (i : string) (state : GraphState) : GraphState :=
  match nodes state !! i with
  | None => state
  | Some n =>
      let expanded' := negb (expanded n) in
      with_nodes (<[i := set_expanded expanded' n]> (nodes state)) state
  end.

Definition resizeNode (i : string) (w' h' : number) (state : GraphState) : GraphState :=
  match nodes state !! i with
  | None => state
  | Some n => with_nodes (<[i := set_size {| w := w'; h := h' |} n]> (nodes state)) state
  end.

(** The loop of [moveChildren] over [parent.childIds]: [st] is the store as
    the earlier iterations left it, [None] a recursion that did not return
    within the fuel. *)
Definition moveChild (rec : BaseNode → gmap string BaseNode → option (gmap string BaseNode))
    (dx dy : number) (acc : option (gmap string BaseNode)) (cid : string)
    : option (gmap string BaseNode) :=
  match acc with
  | None => None
  | Some st =>
      match st !! cid with
      | None => Some st
      | Some c =>
          if attachedToParent c
          then let c' := translate dx dy c in rec c' (<[cid := c']> st)
          else Some st
      end
  end.

Fixpoint moveChildren (fuel : nat) (dx dy : number) (parent : BaseNode)
    (st : gmap string BaseNode) : option (gmap string BaseNode) :=
  match fuel with
  | O => None
  | S fuel' =>
      foldl (moveChild (moveChildren fuel' dx dy) dx dy) (Some st) (childIds parent)
  end.

(** The names of the properties of [Object.prototype]: read on an object
    that has no such key, each gives an inherited function, and [__proto__]
    the prototype itself. *)
Definition inheritedNames : list string :=
  ["constructor"; "__defineGetter__"; "__defineSetter__"; "hasOwnProperty";
   "__lookupGetter__"; "__lookupSetter__"; "isPrototypeOf"; "propertyIsEnumerable";
   "toString"; "valueOf"; "__proto__"; "toLocaleString"].

Definition inherited (i : string) : bool := bool_decide (i ∈ inheritedNames).

(** For an id that is not a key, [state.nodes[id]] is [undefined] and the
    state is returned, unless the id is an inherited name: then [n] is
    truthy, [n.pos] is [undefined] and reading [n.pos.x] throws a
    TypeError before anything is assigned. *)
Definition moveNode (fuel : nat) (i : string) (dx dy : number) (state : GraphState)
    : option GraphState :=
  match nodes state !! i with
  | None => if inherited i then None else Some state
  | Some n =>
      let n' := translate dx dy n in
      match moveChildren fuel dx dy n' (<[i := n']> (nodes state)) with
      | None => None
      | Some m => Some (with_nodes m state)
      end
  end.

(** * Properties *)

(** ** toggleExpand and resizeNode *)

Lemma toggleExpand_unknown i state :
  nodes state !! i = None → toggleExpand i state = state.
Proof. intros Hi. unfold toggleExpand. by rewrite Hi. Qed.

Lemma resizeNode_unknown i w' h' state :
  nodes state !! i = None → resizeNode i w' h' state = state.
Proof. intros Hi. unfold resizeNode. by rewrite Hi. Qed.

(** C9. On a present id, toggleExpand(id) flips the expanded flag of the
    named node and leaves every other field of it as it was, and
    resizeNode(id, w, h) sets the size of the named node to {w, h},
    whatever w and h are, and leaves every other field of it as it was;
    after either call every other node and rootId are as before. *)
Theorem toggle_resize_local (state : GraphState) (i : string) (n : BaseNode) (w' h' : number) :
  nodes state !! i = Some n →
  ((∃ n', nodes (toggleExpand i state) !! i = Some n'
          ∧ expanded n' = negb (expanded n)
          ∧ (id n', kind n', title n', body n', pos n', size n', headerHeight n',
             attachedToParent n', relativeOffset n', parentId n', childIds n')
            = (id n, kind n, title n, body n, pos n, size n, headerHeight n,
               attachedToParent n, relativeOffset n, parentId n, childIds n))
   ∧ (∀ j, j ≠ i → nodes (toggleExpand i state) !! j = nodes state !! j)
   ∧ rootId (toggleExpand i state) = rootId state)
  ∧ ((∃ n', nodes (resizeNode i w' h' state) !! i = Some n'
            ∧ size n' = {| w := w'; h := h' |}
            ∧ (id n', kind n', title n', body n', pos n', headerHeight n', expanded n',
               attachedToParent n', relativeOffset n', parentId n', childIds n')
              = (id n, kind n, title n, body n, pos n, headerHeight n, expanded n,
                 attachedToParent n, relativeOffset n, parentId n, childIds n))
     ∧ (∀ j, j ≠ i → nodes (resizeNode i w' h' state) !! j = nodes state !! j)
     ∧ rootId (resizeNode i w' h' state) = rootId state).
Proof.
  intros Hi. unfold toggleExpand, resizeNode. rewrite Hi. cbn [nodes rootId with_nodes].
  split; (split_and!;
    [ eexists; rewrite lookup_insert_eq; split_and!; reflexivity
    | by intros j Hj; rewrite lookup_insert_ne
    | reflexivity ]).
Qed.

(** ** The cascade of moveNode *)

(** What the loop of [moveChildren] reads of a node: its flag and its
    children. A translation changes neither. *)
Definition shape (n : BaseNode) : bool * list string :=
  (attachedToParent n, childIds n).

Definition sameShape (m st : gmap string BaseNode) : Prop :=
  ∀ k, shape <$> m !! k = shape <$> st !! k.

(** [c] is listed in [childIds] of the node at [p] and is a key of the store. *)
Definition edge (m : gmap string BaseNode) (p c : string) : Prop :=
  ∃ pn, m !! p = Some pn ∧ c ∈ childIds pn ∧ is_Some (m !! c).

(** An edge to a child whose [attachedToParent] is true. *)
Definition attachedEdge (m : gmap string BaseNode) (p c : string) : Prop :=
  ∃ pn cn, m !! p = Some pn ∧ c ∈ childIds pn ∧ m !! c = Some cn
           ∧ attachedToParent cn = true.

(** [k] is reached from [i] through an unbroken chain of attached children. *)
Definition cascades (m : gmap string BaseNode) (i k : string) : Prop :=
  tc (attachedEdge m) i k.

(** [k] is in the subtree of [c], whatever the flags on the way. *)
Definition inSubtree (m : gmap string BaseNode) (c k : string) : Prop :=
  rtc (edge m) c k.

(** No cycle through attached children: some height decreases along them. *)
Definition acyclicAttached (m : gmap string BaseNode) : Prop :=
  ∃ height : string → nat, ∀ p c, attachedEdge m p c → height c < height p.

(** The hierarchy invariants of the data model that the cascade relies on:
    no duplicates in [childIds], every listed child that exists names the
    listing node in [parentId], and no cycle. *)
Record treeShaped (m : gmap string BaseNode) : Prop := {
  ts_nodup : ∀ k n, m !! k = Some n → NoDup (childIds n);
  ts_parent : ∀ p pn c cn,
    m !! p = Some pn → c ∈ childIds pn → m !! c = Some cn → parentId cn = Some p;
  ts_acyclic : ∃ height : string → nat, ∀ p c, edge m p c → height c < height p
}.

(** The ids whose position one call of [moveChildren] assigns, in the order
    of the assignments: the same walk, recording instead of assigning. *)
Fixpoint visitsList (rec : BaseNode → option (list string))
    (m : gmap string BaseNode) (cids : list string) : option (list string) :=
  match cids with
  | [] => Some []
  | cid :: rest =>
      match m !! cid with
      | None => visitsList rec m rest
      | Some c =>
          if attachedToParent c
          then match rec c with
               | None => None
               | Some t1 =>
                   match visitsList rec m rest with
                   | None => None
                   | Some t2 => Some (cid :: t1 ++ t2)
                   end
               end
          else visitsList rec m rest
      end
  end.

Fixpoint visits (fuel : nat) (m : gmap string BaseNode) (parent : BaseNode)
    : option (list string) :=
  match fuel with
  | O => None
  | S fuel' => visitsList (visits fuel' m) m (childIds parent)
  end.

(** One translation at each id of a list, left to right. *)
Definition applyTrace (dx dy : number) (st : gmap string BaseNode) (t : list string)
    : gmap string BaseNode :=
  foldl (λ s k, alter (translate dx dy) k s) st t.

Section Cascade.
Context (dx dy : number).

Lemma shape_translate n : shape (translate dx dy n) = shape n.
Proof. done. Qed.

Lemma sameShape_refl m : sameShape m m.
Proof. done. Qed.

Lemma sameShape_alter m st k :
  sameShape m st → sameShape m (alter (translate dx dy) k st).
Proof.
  intros H j. rewrite H. destruct (decide (k = j)) as [->|Hne].
  - rewrite lookup_alter_eq. by destruct (st !! j).
  - by rewrite lookup_alter_ne.
Qed.

Lemma sameShape_applyTrace m st t :
  sameShape m st → sameShape m (applyTrace dx dy st t).
Proof.
  revert st. induction t as [|k t IH]; intros st H; [done|].
  cbn. apply IH. by apply sameShape_alter.
Qed.

Lemma applyTrace_app st t1 t2 :
  applyTrace dx dy st (t1 ++ t2) = applyTrace dx dy (applyTrace dx dy st t1) t2.
Proof. apply foldl_app. Qed.

Lemma foldl_moveChild_None rec cids :
  foldl (moveChild rec dx dy) None cids = None.
Proof. by induction cids. Qed.

Lemma visits_childIds fuel m p p' :
  childIds p = childIds p' → visits fuel m p = visits fuel m p'.
Proof. destruct fuel; [done|]. cbn. by intros ->. Qed.

(** The store after the walk is the store before it with one translation
    per recorded visit. *)
Lemma moveChildren_visits fuel : ∀ m parent st,
  sameShape m st →
  moveChildren fuel dx dy parent st = applyTrace dx dy st <$> visits fuel m parent.
Proof.
  induction fuel as [|fuel IH]; intros m parent st Hsh; [done|].
  cbn [moveChildren visits]. generalize (childIds parent). intros cids.
  revert st Hsh. induction cids as [|cid rest IHl]; intros st Hsh; [done|].
  cbn [foldl visitsList]. unfold moveChild at 2.
  pose proof (Hsh cid) as Hc.
  destruct (m !! cid) as [c0|] eqn:Hm, (st !! cid) as [c|] eqn:Hst;
    cbn in Hc; try discriminate; [|by apply IHl].
  injection Hc as Hatt Hkids. unfold shape in *. rewrite <- Hatt.
  destruct (attachedToParent c0) eqn:Ha; [|by apply IHl].
  assert (<[cid := translate dx dy c]> st = alter (translate dx dy) cid st) as Hins.
  { apply map_eq. intros j. destruct (decide (cid = j)) as [->|Hne].
    - by rewrite lookup_insert_eq, lookup_alter_eq, Hst.
    - by rewrite lookup_insert_ne, lookup_alter_ne. }
  rewrite (IH m (translate dx dy c) _)
    by (rewrite Hins; by apply sameShape_alter).
  rewrite (visits_childIds fuel m (translate dx dy c) c0) by done.
  destruct (visits fuel m c0) as [t1|]; cbn; [|apply foldl_moveChild_None].
  rewrite IHl.
  - destruct (visitsList (visits fuel m) m rest) as [t2|]; cbn; [|done].
    rewrite Hins. change (foldl _ ?s (t1 ++ t2)) with (applyTrace dx dy s (t1 ++ t2)).
    by rewrite applyTrace_app.
  - apply sameShape_applyTrace. rewrite Hins. by apply sameShape_alter.
Qed.

End Cascade.

(** *** The walk: fuel, termination, what it reaches *)

Section Walk.
Context (m : gmap string BaseNode).

Lemma visitsList_mono (rec rec' : BaseNode → option (list string)) cids t :
  (∀ c t1, rec c = Some t1 → rec' c = Some t1) →
  visitsList rec m cids = Some t → visitsList rec' m cids = Some t.
Proof.
  intros Hrec. revert t. induction cids as [|cid rest IH]; intros t; [done|].
  cbn. destruct (m !! cid) as [c|]; [|by apply IH].
  destruct (attachedToParent c); [|by apply IH].
  destruct (rec c) as [t1|] eqn:Hc; [|done]. rewrite (Hrec _ _ Hc).
  destruct (visitsList rec m rest) as [t2|]; [|done].
  by rewrite (IH t2).
Qed.

Lemma visits_S fuel : ∀ parent t,
  visits fuel m parent = Some t → visits (S fuel) m parent = Some t.
Proof.
  induction fuel as [|fuel IH]; intros parent t; [done|].
  intros H. cbn [visits] in *. eapply visitsList_mono; [|exact H]. apply IH.
Qed.

Lemma visits_le fuel fuel' parent t :
  fuel ≤ fuel' → visits fuel m parent = Some t → visits fuel' m parent = Some t.
Proof.
  intros Hle. induction Hle as [|n Hle IH]; intros Hv; [done|].
  by apply visits_S, IH.
Qed.

Lemma visitsList_is_Some (rec : BaseNode → option (list string)) cids :
  (∀ c cn, c ∈ cids → m !! c = Some cn → attachedToParent cn = true → is_Some (rec cn)) →
  is_Some (visitsList rec m cids).
Proof.
  induction cids as [|cid rest IH]; intros H; [by eexists|].
  cbn. destruct IH as [t2 Ht2].
  { intros c cn Hc. apply H. by right. }
  destruct (m !! cid) as [c|] eqn:Hm; [|by eexists].
  destruct (attachedToParent c) eqn:Ha; [|by eexists].
  destruct (H cid c) as [t1 Ht1]; [by left|done..|].
  rewrite Ht1, Ht2. by eexists.
Qed.

(** With no cycle through attached children the walk returns: fuel beyond
    the height of every attached child is enough. *)
Lemma visits_terminates (height : string → nat) :
  (∀ p c, attachedEdge m p c → height c < height p) →
  ∀ fuel parent,
    (∀ c cn, c ∈ childIds parent → m !! c = Some cn → attachedToParent cn = true →
             height c < fuel) →
    is_Some (visits (S fuel) m parent).
Proof.
  intros Hh. induction fuel as [|fuel IH]; intros parent Hp; cbn [visits].
  - apply visitsList_is_Some. intros c cn Hc Hm Ha.
    specialize (Hp c cn Hc Hm Ha). lia.
  - apply visitsList_is_Some. intros c cn Hc Hm Ha.
    apply (IH cn). intros d dn Hd Hmd Had.
    specialize (Hp c cn Hc Hm Ha).
    assert (height d < height c); [|lia].
    apply Hh. by exists cn, dn.
Qed.

Lemma visitsList_elem (rec : BaseNode → option (list string)) cids t k :
  visitsList rec m cids = Some t →
  k ∈ t ↔ ∃ c cn, c ∈ cids ∧ m !! c = Some cn ∧ attachedToParent cn = true
                  ∧ (k = c ∨ ∃ t1, rec cn = Some t1 ∧ k ∈ t1).
Proof.
  revert t. induction cids as [|cid rest IH]; intros t; cbn.
  { intros [= <-]. split; [by intros ?%elem_of_nil|].
    by intros (c & cn & ?%elem_of_nil & _). }
  assert (∀ t, visitsList rec m rest = Some t →
            (m !! cid = None ∨ ∃ c, m !! cid = Some c ∧ attachedToParent c = false) →
            k ∈ t ↔ ∃ c cn, c ∈ cid :: rest ∧ m !! c = Some cn
                    ∧ attachedToParent cn = true
                    ∧ (k = c ∨ ∃ t1, rec cn = Some t1 ∧ k ∈ t1)) as Hskip.
  { intros t' Ht' Hno. rewrite (IH _ Ht'). split.
    - intros (c & cn & Hc & H). exists c, cn. split; [by right|done].
    - intros (c & cn & Hc & Hm & Ha & H). exists c, cn.
      apply elem_of_cons in Hc as [->|Hc]; [|done].
      destruct Hno as [Hno|(c' & Hc' & Hno)]; congruence. }
  destruct (m !! cid) as [c|] eqn:Hm; [|intros H; apply Hskip; auto].
  destruct (attachedToParent c) eqn:Ha; [|intros H; apply Hskip; eauto].
  destruct (rec c) as [t1|] eqn:Hrec; [|done].
  destruct (visitsList rec m rest) as [t2|] eqn:Hrest; [|done].
  intros [= <-]. rewrite elem_of_cons, elem_of_app, (IH t2) by done. split.
  - intros [->|[Hk|(c' & cn & Hc' & H)]].
    + exists cid, c. repeat split; [by left|done..|by left].
    + exists cid, c. repeat split; [by left|done..|]. right. by exists t1.
    + exists c', cn. split; [by right|done].
  - intros (c' & cn & Hc' & Hm' & Ha' & H).
    apply elem_of_cons in Hc' as [->|Hc'].
    + rewrite Hm in Hm'. injection Hm' as <-.
      destruct H as [->|(t1' & Ht1' & Hk)]; [by left|].
      rewrite Hrec in Ht1'. injection Ht1' as <-. right. by left.
    + right. right. by exists c', cn.
Qed.

Lemma visitsList_rec_Some (rec : BaseNode → option (list string)) cids t c cn :
  visitsList rec m cids = Some t → c ∈ cids → m !! c = Some cn →
  attachedToParent cn = true → is_Some (rec cn).
Proof.
  revert t. induction cids as [|cid rest IH]; intros t; cbn.
  { by intros _ ?%elem_of_nil. }
  intros Hv Hc Hm Ha. apply elem_of_cons in Hc as [->|Hc].
  - rewrite Hm, Ha in Hv. destruct (rec cn); [by eexists|done].
  - destruct (m !! cid) as [c'|]; [|by eapply IH].
    destruct (attachedToParent c'); [|by eapply IH].
    destruct (rec c'); [|done].
    destruct (visitsList rec m rest) eqn:Hr; [|done]. by eapply IH.
Qed.

(** The walk from the node at [p] visits exactly the nodes that [p]
    cascades to. *)
Lemma visits_elem fuel : ∀ p pn t k,
  m !! p = Some pn → visits fuel m pn = Some t →
  k ∈ t ↔ cascades m p k.
Proof.
  intros p pn t k Hp Hv. split.
  - revert p pn t k Hp Hv.
    induction fuel as [|fuel IH]; intros p pn t k Hp Hv Hk; [done|].
    cbn [visits] in Hv.
    apply (visitsList_elem _ _ _ k) in Hv. apply Hv in Hk.
    destruct Hk as (c & cn & Hc & Hm & Ha & [->|(t1 & Ht1 & Hk)]).
    + apply tc_once. by exists pn, cn.
    + eapply tc_l; [by exists pn, cn|]. by eapply IH.
  - intros Hcas. revert fuel pn t Hp Hv.
    induction Hcas as [p k (pn' & cn & Hp' & Hc & Hm & Ha)
                      |p c k (pn' & cn & Hp' & Hc & Hm & Ha) _ IH];
      intros fuel pn t Hp Hv; rewrite Hp' in Hp; injection Hp as ->;
      (destruct fuel as [|fuel]; [done|]); cbn [visits] in Hv.
    + apply (visitsList_elem _ _ _ k) in Hv. apply Hv.
      exists k, cn. repeat split; [done..|by left].
    + destruct (visitsList_rec_Some _ _ _ _ _ Hv Hc Hm Ha) as [t1 Ht1].
      apply (visitsList_elem _ _ _ k) in Hv. apply Hv.
      exists c, cn. repeat split; [done..|]. right. exists t1. split; [done|].
      by eapply IH.
Qed.

End Walk.

(** *** Tree-shaped stores *)

Section Tree.
Context (m : gmap string BaseNode) (Htree : treeShaped m).

Lemma attachedEdge_edge p c : attachedEdge m p c → edge m p c.
Proof. intros (pn & cn & Hp & Hc & Hm & _). exists pn. by rewrite Hm. Qed.

Lemma cascades_edges i k : cascades m i k → tc (edge m) i k.
Proof.
  intros H. eapply tc_congruence with (f := λ z : string, z); [|exact H].
  intros ??. apply attachedEdge_edge.
Qed.

Lemma edge_parent_unique p p' c : edge m p c → edge m p' c → p = p'.
Proof.
  intros (pn & Hp & Hc & [cn Hm]) (pn' & Hp' & Hc' & _).
  pose proof (ts_parent m Htree p pn c cn Hp Hc Hm) as H1.
  pose proof (ts_parent m Htree p' pn' c cn Hp' Hc' Hm) as H2.
  congruence.
Qed.

Lemma edges_no_cycle i : ¬ tc (edge m) i i.
Proof.
  destruct (ts_acyclic m Htree) as [height Hh].
  assert (∀ a b, tc (edge m) a b → height b < height a) as Hlt.
  { induction 1 as [a b Hab|a b c Hab _ IH]; [by apply Hh|].
    specialize (Hh a b Hab). lia. }
  intros H%Hlt. lia.
Qed.

(** Two ancestors of one node lie on one branch. *)
Lemma subtree_branch a b k :
  inSubtree m a k → inSubtree m b k → inSubtree m a b ∨ inSubtree m b a.
Proof.
  unfold inSubtree. intros Ha. revert k Ha b.
  refine (rtc_ind_r (λ k, ∀ b, rtc (edge m) b k → rtc (edge m) a b ∨ rtc (edge m) b a) a _ _);
    [by right|].
  intros q k Haq Hqk IH b Hb.
  apply rtc_inv_r in Hb as [->|(q' & Hbq & Hq'k)]; [left; by eapply rtc_r|].
  rewrite (edge_parent_unique q' q k Hq'k Hqk) in Hbq. by apply IH.
Qed.

(** The subtrees of two different children of one node are disjoint. *)
Lemma siblings_disjoint p c1 c2 k :
  edge m p c1 → edge m p c2 → c1 ≠ c2 →
  inSubtree m c1 k → inSubtree m c2 k → False.
Proof.
  assert (∀ a b, edge m p a → edge m p b → a ≠ b → inSubtree m a b → False) as Hab.
  { intros a b Ha Hb Hne Hr. apply rtc_inv_r in Hr as [->|(q & Haq & Hqb)]; [done|].
    rewrite (edge_parent_unique q p b Hqb Hb) in Haq.
    apply (edges_no_cycle p). eapply tc_rtc_r; [apply tc_once, Ha|exact Haq]. }
  intros H1 H2 Hne Hk1 Hk2.
  destruct (subtree_branch c1 c2 k Hk1 Hk2); eauto.
Qed.

Lemma cascades_inSubtree i k : cascades m i k → inSubtree m i k.
Proof. intros H. by apply tc_rtc, cascades_edges. Qed.

(** In a tree-shaped store the walk visits no node twice. *)
Lemma visits_NoDup fuel : ∀ p pn t,
  m !! p = Some pn → visits fuel m pn = Some t → NoDup t.
Proof.
  induction fuel as [|fuel IH]; intros p pn t Hp Hv; [done|].
  cbn [visits] in Hv.
  assert (∀ cids t, NoDup cids → cids ⊆ childIds pn →
            visitsList (visits fuel m) m cids = Some t → NoDup t) as Hl.
  { clear t Hv. induction cids as [|cid rest IHl]; intros t Hnd Hsub; cbn.
    { intros [= <-]. constructor. }
    apply NoDup_cons in Hnd as [Hcid Hnd].
    assert (rest ⊆ childIds pn) as Hsub' by (intros z Hz; apply Hsub; by right).
    destruct (m !! cid) as [c|] eqn:Hm; [|by apply IHl].
    destruct (attachedToParent c) eqn:Ha; [|by apply IHl].
    destruct (visits fuel m c) as [t1|] eqn:Ht1; [|done].
    destruct (visitsList (visits fuel m) m rest) as [t2|] eqn:Ht2; [|done].
    intros [= <-].
    assert (edge m p cid) as Hedge.
    { exists pn. rewrite Hm. split_and!; [done|apply Hsub; by left|by eexists]. }
    assert (∀ k, k ∈ t2 → ∃ c', c' ∈ rest ∧ edge m p c' ∧ inSubtree m c' k) as Hin2.
    { intros k Hk.
      destruct (proj1 (visitsList_elem m _ _ _ k Ht2) Hk)
        as (c' & cn & Hc' & Hm' & Ha' & Hk'). exists c'.
      split; [done|]. split.
      - exists pn. rewrite Hm'. split_and!; [done|by apply Hsub'|by eexists].
      - destruct Hk' as [->|(t' & Ht' & Hk')]; [apply rtc_refl|].
        apply cascades_inSubtree. by eapply visits_elem. }
    assert (∀ k, k ∈ t1 → cascades m cid k) as Hin1.
    { intros k Hk. by eapply visits_elem. }
    apply NoDup_cons. split.
    - rewrite elem_of_app. intros [H1|H2].
      + apply (edges_no_cycle cid). by apply cascades_edges, Hin1.
      + destruct (Hin2 _ H2) as (c' & Hc' & He' & Hs').
        apply (siblings_disjoint p cid c' cid); [done..|congruence|apply rtc_refl|done].
    - apply NoDup_app. split_and!; [by eapply IH| |by apply IHl].
      intros k H1 H2. destruct (Hin2 _ H2) as (c' & Hc' & He' & Hs').
      apply (siblings_disjoint p cid c' k); [done..|congruence| |done].
      by apply cascades_inSubtree, Hin1. }
  eapply Hl; [by eapply ts_nodup|done|done].
Qed.

(** A node below [i] that some chain of attached children from [i] passes
    through or ends at is attached itself: what hangs below a detached
    child of the cascade is out of its reach. *)
Lemma cascades_through i c k :
  cascades m i k → tc (edge m) i c → inSubtree m c k →
  ∃ cn, m !! c = Some cn ∧ attachedToParent cn = true.
Proof.
  unfold cascades. intros Hcas. revert k Hcas c.
  refine (tc_ind_r (λ k, ∀ c, tc (edge m) i c → inSubtree m c k →
            ∃ cn, m !! c = Some cn ∧ attachedToParent cn = true) i _ _).
  - intros k (pn & kn & Hp & Hk & Hm & Ha) c Hic Hck. apply rtc_inv_r in Hck as [->|(q' & Hcq & Hq'k)]; [by exists kn|].
    assert (edge m i k) as He by (exists pn; rewrite Hm; eauto).
    rewrite (edge_parent_unique q' i k Hq'k He) in Hcq.
    destruct (edges_no_cycle i). by eapply tc_rtc_r.
  - intros q k Hiq (pn & kn & Hp & Hk & Hm & Ha) IH c Hic Hck.
    apply rtc_inv_r in Hck as [->|(q' & Hcq & Hq'k)]; [by exists kn|].
    assert (edge m q k) as He by (exists pn; rewrite Hm; eauto).
    rewrite (edge_parent_unique q' q k Hq'k He) in Hcq. by apply IH.
Qed.

End Tree.

(** *** What moveNode does to a store *)

Section MoveNode.
Context (dx dy : number).

Lemma applyTrace_lookup st t k :
  NoDup t →
  applyTrace dx dy st t !! k
  = if decide (k ∈ t) then translate dx dy <$> st !! k else st !! k.
Proof.
  revert st. induction t as [|a t IH]; intros st Hnd.
  { cbn. by rewrite decide_False by apply not_elem_of_nil. }
  apply NoDup_cons in Hnd as [Ha Hnd]. cbn [applyTrace foldl].
  change (foldl _ ?s t) with (applyTrace dx dy s t). rewrite IH by done.
  destruct (decide (k = a)) as [->|Hne].
  - rewrite decide_False by done. rewrite decide_True by (by left).
    by rewrite lookup_alter_eq.
  - rewrite lookup_alter_ne by done.
    destruct (decide (k ∈ t)) as [Hk|Hk].
    + by rewrite decide_True by (by right).
    + rewrite decide_False; [done|]. by intros [?|?]%elem_of_cons.
Qed.

Lemma sameShape_moved m i n :
  m !! i = Some n → sameShape m (<[i := translate dx dy n]> m).
Proof.
  intros Hi k. destruct (decide (i = k)) as [<-|Hne].
  - by rewrite lookup_insert_eq, Hi.
  - by rewrite lookup_insert_ne.
Qed.

(** moveNode in terms of the walk: the named node is translated, then every
    recorded visit translates once more. *)
Lemma moveNode_visits fuel state i n :
  nodes state !! i = Some n →
  moveNode fuel i dx dy state
  = (λ t, with_nodes (applyTrace dx dy (<[i := translate dx dy n]> (nodes state)) t) state)
      <$> visits fuel (nodes state) n.
Proof.
  intros Hi. unfold moveNode. rewrite Hi. cbn zeta.
  rewrite (moveChildren_visits dx dy fuel (nodes state)) by by apply sameShape_moved.
  rewrite (visits_childIds fuel _ (translate dx dy n) n) by done.
  by destruct (visits fuel (nodes state) n).
Qed.

Lemma moveNode_le fuel fuel' state i state' :
  fuel ≤ fuel' →
  moveNode fuel i dx dy state = Some state' → moveNode fuel' i dx dy state = Some state'.
Proof.
  intros Hle. destruct (nodes state !! i) as [n|] eqn:Hi.
  - rewrite !(moveNode_visits _ state i n) by done.
    destruct (visits fuel (nodes state) n) as [t|] eqn:Ht; [|done].
    by rewrite (visits_le _ fuel fuel' n t Hle Ht).
  - unfold moveNode. by rewrite Hi.
Qed.

Lemma treeShaped_acyclicAttached m : treeShaped m → acyclicAttached m.
Proof.
  intros Ht. destruct (ts_acyclic m Ht) as [height Hh]. exists height.
  intros p c H. by apply Hh, attachedEdge_edge.
Qed.

(** With no cycle through attached children, moveNode returns. *)
Lemma moveNode_returns state i n :
  acyclicAttached (nodes state) → nodes state !! i = Some n →
  ∃ fuel t, ∀ fuel', fuel ≤ fuel' → visits fuel' (nodes state) n = Some t.
Proof.
  intros [height Hh] Hi.
  destruct (visits_terminates (nodes state) height Hh (height i) n) as [t Ht].
  { intros c cn Hc Hm Ha. apply Hh. by exists n, cn. }
  exists (S (height i)), t. intros fuel' Hle. by eapply visits_le.
Qed.

End MoveNode.

(** ** Sample documents *)

(** A node of a hand-written document, as a loaded file may hold it. *)
Definition sampleNode (i : string) (k : NodeKind) (px py : number) (att : bool)
    (parent : option string) (kids : list string) : BaseNode :=
  {| id := i; kind := k; title := i; body := "Body...";
     pos := {| x := px; y := py |}; size := {| w := 200; h := 100 |};
     headerHeight := K.headerHeight; expanded := true;
     attachedToParent := att;
     relativeOffset := if att then Some {| x := 0; y := 0 |} else None;
     parentId := parent; childIds := kids |}.

Definition docOf (l : list BaseNode) (root : string) : GraphState :=
  {| nodes := list_to_map ((λ n, (id n, n)) <$> l); rootId := root |}.

(** N with the attached chain N → C1 → C2, and the detached child S of N
    with an attached child T of its own. *)
Definition chainDoc : GraphState :=
  docOf [ sampleNode "N" act 0 0 false None ["C1"; "S"];
          sampleNode "C1" sequence 10 40 true (Some "N") ["C2"];
          sampleNode "C2" step 20 80 true (Some "C1") [];
          sampleNode "S" sequence 300 40 false (Some "N") ["T"];
          sampleNode "T" step 310 80 true (Some "S") [] ] "N".

(** A file that lists the child B twice. *)
Definition twiceDoc : GraphState :=
  docOf [ sampleNode "A" act 0 0 false None ["B"; "B"];
          sampleNode "B" sequence 10 10 true (Some "A") [] ] "A".


Definition chainHeight (k : string) : nat :=
  if decide (k = "N") then 2
  else if decide (k = "C1") then 1
  else if decide (k = "S") then 1 else 0.

(** A decidable way to show that a given store is tree-shaped, for a
    proposed height. *)
Definition childOk (m : gmap string BaseNode) (height : string → nat)
    (p c : string) : Prop :=
  ∀ cn, m !! c = Some cn → parentId cn = Some p ∧ height c < height p.

#[global] Instance childOk_dec m height p c : Decision (childOk m height p c).
Proof.
  unfold childOk. destruct (m !! c) as [cn|].
  - destruct (decide (parentId cn = Some p ∧ height c < height p)) as [H|H].
    + left. by intros ? [= <-].
    + right. intros H'. by apply H, H'.
  - left. done.
Defined.

Definition nodeOk (m : gmap string BaseNode) (height : string → nat)
    (p : string) (pn : BaseNode) : Prop :=
  NoDup (childIds pn) ∧ Forall (childOk m height p) (childIds pn).

#[global] Instance nodeOk_dec m height p pn : Decision (nodeOk m height p pn).
Proof. unfold nodeOk. apply _. Defined.

Lemma treeShaped_intro m height :
  map_Forall (nodeOk m height) m → treeShaped m.
Proof.
  intros H. split.
  - intros k n Hk. by destruct (H k n Hk).
  - intros p pn c cn Hp Hc Hm. destruct (H p pn Hp) as [_ Hall].
    rewrite Forall_forall in Hall. by destruct (Hall c Hc cn Hm).
  - exists height. intros p c (pn & Hp & Hc & [cn Hm]).
    destruct (H p pn Hp) as [_ Hall].
    rewrite Forall_forall in Hall. by destruct (Hall c Hc cn Hm).
Qed.

Lemma chainDoc_treeShaped : treeShaped (nodes chainDoc).
Proof.
  apply (treeShaped_intro _ chainHeight).
  apply (bool_decide_unpack _). vm_compute. exact I.
Qed.

Lemma toggle_resize_local_witness :
  ((∃ n', nodes (toggleExpand "C1" chainDoc) !! "C1" = Some n'
          ∧ expanded n' = negb (expanded (sampleNode "C1" sequence 10 40 true (Some "N") ["C2"]))
          ∧ (id n', kind n', title n', body n', pos n', size n', headerHeight n',
             attachedToParent n', relativeOffset n', parentId n', childIds n')
            = ("C1", sequence, "C1", "Body...", {| x := 10; y := 40 |},
               {| w := 200; h := 100 |}, K.headerHeight, true,
               Some {| x := 0; y := 0 |}, Some "N", ["C2"]))
   ∧ (∀ j, j ≠ "C1" → nodes (toggleExpand "C1" chainDoc) !! j = nodes chainDoc !! j)
   ∧ rootId (toggleExpand "C1" chainDoc) = rootId chainDoc)
  ∧ ((∃ n', nodes (resizeNode "C1" 50 50 chainDoc) !! "C1" = Some n'
            ∧ size n' = {| w := 50; h := 50 |}
            ∧ (id n', kind n', title n', body n', pos n', headerHeight n', expanded n',
               attachedToParent n', relativeOffset n', parentId n', childIds n')
              = ("C1", sequence, "C1", "Body...", {| x := 10; y := 40 |},
                 K.headerHeight, true, true,
                 Some {| x := 0; y := 0 |}, Some "N", ["C2"]))
     ∧ (∀ j, j ≠ "C1" → nodes (resizeNode "C1" 50 50 chainDoc) !! j = nodes chainDoc !! j)
     ∧ rootId (resizeNode "C1" 50 50 chainDoc) = rootId chainDoc).
Proof.
  apply (toggle_resize_local chainDoc "C1"
           (sampleNode "C1" sequence 10 40 true (Some "N") ["C2"]) 50 50).
  reflexivity.
Defined.

(** ** moveNode: the claims *)

(** C1 (amended to tree-shaped documents). In a document whose hierarchy is
    tree-shaped (no duplicate in a childIds list, every listed child names
    its parent, no cycle), moveNode(id, dx, dy) on a present id returns and
    translates by exactly (dx, dy) the named node and every node reached
    from it through an unbroken chain of attached children; a detached child
    of one of those nodes keeps its position, and so does every node of its
    subtree whatever its own flag; every other node is unchanged, and so is
    rootId. *)
Theorem moveNode_cascade (state : GraphState) (i : string) (n : BaseNode) (dx dy : number) :
  treeShaped (nodes state) →
  nodes state !! i = Some n →
  ∃ state',
    (∃ fuel, ∀ fuel', fuel ≤ fuel' → moveNode fuel' i dx dy state = Some state')
    ∧ rootId state' = rootId state
    ∧ (∀ k kn, nodes state !! k = Some kn →
         k = i ∨ cascades (nodes state) i k →
         nodes state' !! k = Some (translate dx dy kn))
    ∧ (∀ p c cn k,
         p = i ∨ cascades (nodes state) i p →
         edge (nodes state) p c →
         nodes state !! c = Some cn → attachedToParent cn = false →
         inSubtree (nodes state) c k →
         nodes state' !! k = nodes state !! k)
    ∧ (∀ k, k ≠ i → ¬ cascades (nodes state) i k →
         nodes state' !! k = nodes state !! k).
Proof.
  intros Htree Hi. set (m := nodes state) in *.
  destruct (moveNode_returns state i n (treeShaped_acyclicAttached _ Htree) Hi)
    as (fuel & t & Hfuel). fold m in Hfuel.
  pose proof (Hfuel fuel (le_n _)) as Ht.
  pose proof (visits_NoDup m Htree fuel i n t Hi Ht) as Hnd.
  pose proof (λ k, visits_elem m fuel i n t k Hi Ht) as Hel.
  assert (i ∉ t) as Hit.
  { intros H%Hel. by apply (edges_no_cycle m Htree i), cascades_edges. }
  assert (∀ k, k = i ∨ cascades m i k →
            applyTrace dx dy (<[i := translate dx dy n]> m) t !! k
            = translate dx dy <$> m !! k) as Hin.
  { intros k Hk. rewrite applyTrace_lookup by done.
    destruct Hk as [->|Hk].
    - rewrite decide_False by done. by rewrite lookup_insert_eq, Hi.
    - rewrite decide_True by (by apply Hel).
      destruct (decide (k = i)) as [->|Hne]; [by destruct Hit; apply Hel|].
      by rewrite lookup_insert_ne. }
  assert (∀ k, k ≠ i → ¬ cascades m i k →
            applyTrace dx dy (<[i := translate dx dy n]> m) t !! k = m !! k) as Hout.
  { intros k Hne Hk. rewrite applyTrace_lookup by done.
    rewrite decide_False by (by intros ?%Hel). by rewrite lookup_insert_ne. }
  exists (with_nodes (applyTrace dx dy (<[i := translate dx dy n]> m) t) state).
  split_and!.
  - exists fuel. intros fuel' Hle.
    rewrite (moveNode_visits dx dy fuel' state i n Hi). fold m.
    by rewrite (Hfuel fuel' Hle).
  - done.
  - intros k kn Hk Hreach. cbn. rewrite Hin by done. by rewrite Hk.
  - intros p c cn k Hp Hedge Hc Hdet Hsub. cbn.
    assert (tc (edge m) i c) as Hic.
    { destruct Hp as [->|Hp]; [by apply tc_once|].
      eapply tc_r; [by apply cascades_edges|done]. }
    apply Hout.
    + intros ->. apply (edges_no_cycle m Htree i). by eapply tc_rtc_r.
    + intros Hcas.
      destruct (cascades_through m Htree i c k Hcas Hic Hsub) as (cn' & Hc' & Ha).
      congruence.
  - intros k Hne Hcas. cbn. by apply Hout.
Qed.

Lemma moveNode_cascade_witness :
  ∃ state',
    (∃ fuel, ∀ fuel', fuel ≤ fuel' → moveNode fuel' "N" 5 7 chainDoc = Some state')
    ∧ rootId state' = rootId chainDoc
    ∧ (∀ k kn, nodes chainDoc !! k = Some kn →
         k = "N" ∨ cascades (nodes chainDoc) "N" k →
         nodes state' !! k = Some (translate 5 7 kn))
    ∧ (∀ p c cn k,
         p = "N" ∨ cascades (nodes chainDoc) "N" p →
         edge (nodes chainDoc) p c →
         nodes chainDoc !! c = Some cn → attachedToParent cn = false →
         inSubtree (nodes chainDoc) c k →
         nodes state' !! k = nodes chainDoc !! k)
    ∧ (∀ k, k ≠ "N" → ¬ cascades (nodes chainDoc) "N" k →
         nodes state' !! k = nodes chainDoc !! k).
Proof.
  apply (moveNode_cascade chainDoc "N"
           (sampleNode "N" act 0 0 false None ["C1"; "S"]) 5 7).
  - apply (treeShaped_intro _ chainHeight).
    apply (bool_decide_unpack _). vm_compute. exact I.
  - reflexivity.
Defined.

(** The chain of the sample document, evaluated: N, C1 and C2 move by (5, 7);
    the detached S and its attached child T stay. *)
Example chainDoc_move :
  (λ st, (λ kn : string * BaseNode, (kn.1, pos kn.2)) <$> map_to_list (nodes st))
    <$> moveNode 3 "N" 5 7 chainDoc
  = Some [("S", {| x := 300; y := 40 |}); ("C1", {| x := 15; y := 47 |});
          ("C2", {| x := 25; y := 87 |}); ("N", {| x := 5; y := 7 |});
          ("T", {| x := 310; y := 80 |})].
Proof. vm_compute. reflexivity. Qed.

(** C1 as stated, for every document state, fails: a child listed twice is
    attached to the moved node and is translated twice. *)
Lemma moveNode_twice_listed_child :
  ∃ b state',
    nodes twiceDoc !! "B" = Some b
    ∧ cascades (nodes twiceDoc) "A" "B"
    ∧ pos b = {| x := 10; y := 10 |}
    ∧ (∀ fuel, 2 ≤ fuel → moveNode fuel "A" 1 1 twiceDoc = Some state')
    ∧ pos <$> nodes state' !! "B" = Some {| x := 12; y := 12 |}
    ∧ nodes state' !! "B" ≠ Some (translate 1 1 b).
Proof.
  eexists _, _. split_and!.
  - reflexivity.
  - apply tc_once. eexists _, _. split_and!; [reflexivity| |reflexivity|reflexivity].
    cbn. by left.
  - reflexivity.
  - intros fuel Hle. apply (moveNode_le 1 1 2 fuel); [done|]. vm_compute. reflexivity.
  - vm_compute. reflexivity.
  - intros H. apply (f_equal (λ o, match o with
                                    | Some n => PrimFloat.eqb (x (pos n)) 12
                                    | None => false end)) in H.
    vm_compute in H. discriminate H.
Qed.



(** The visits of the sample chain: C1 then C2, each once. *)
Example chainDoc_visits :
  visits 3 (nodes chainDoc) (sampleNode "N" act 0 0 false None ["C1"; "S"])
  = Some ["C1"; "C2"].
Proof. vm_compute. reflexivity. Qed.



(** *** Two moves and one *)

(** The two roundings of [(v + a) + b] and [v + (a + b)] agree. *)
Definition exactSum (v a b : number) : Prop :=
  ((v + a) + b = v + (a + b))%float.

(** A node at x = 0.1 (the nearest binary64 value), as a pointer on a scaled
    display or a loaded file may place it. *)
Definition fracDoc : GraphState :=
  docOf [ sampleNode "P" act 0x1.999999999999ap-4 0 false None [] ] "P".

Lemma visits_sameShape fuel : ∀ m st p p',
  sameShape m st → childIds p = childIds p' →
  visits fuel m p = visits fuel st p'.
Proof.
  induction fuel as [|fuel IH]; intros m st p p' Hsh Hkids; [done|].
  cbn [visits]. rewrite <- Hkids. generalize (childIds p). intros cids.
  induction cids as [|cid rest IHl]; [done|]. cbn.
  pose proof (Hsh cid) as Hc.
  destruct (m !! cid) as [c|], (st !! cid) as [c'|]; cbn in Hc;
    try discriminate; [|done].
  injection Hc as Ha Hk. rewrite <- Ha, IHl, (IH m st c c' Hsh Hk). done.
Qed.

Lemma translate_translate dx1 dy1 dx2 dy2 n :
  exactSum (x (pos n)) dx1 dx2 → exactSum (y (pos n)) dy1 dy2 →
  translate dx2 dy2 (translate dx1 dy1 n) = translate (dx1 + dx2) (dy1 + dy2) n.
Proof.
  unfold exactSum, translate, set_pos. cbn. by intros -> ->.
Qed.

(** C10 (amended to tree-shaped documents and exact sums). IEEE addition
    rounds, so two moves and one move of the summed delta agree when the
    sums involved are exact: in a tree-shaped document, if
    (v + d1) + d2 = v + (d1 + d2) for each coordinate v of the named node and
    of the nodes it cascades to, then moveNode(id, dx1, dy1) followed by
    moveNode(id, dx2, dy2) gives the document of
    moveNode(id, dx1 + dx2, dy1 + dy2). *)
Theorem moveNode_additive (state : GraphState) (i : string) (n : BaseNode)
    (dx1 dy1 dx2 dy2 : number) :
  treeShaped (nodes state) →
  nodes state !! i = Some n →
  (∀ k kn, nodes state !! k = Some kn →
     k = i ∨ cascades (nodes state) i k →
     exactSum (x (pos kn)) dx1 dx2 ∧ exactSum (y (pos kn)) dy1 dy2) →
  ∃ fuel state1 state2,
    ∀ fuel', fuel ≤ fuel' →
      moveNode fuel' i dx1 dy1 state = Some state1
      ∧ moveNode fuel' i dx2 dy2 state1 = Some state2
      ∧ moveNode fuel' i (dx1 + dx2) (dy1 + dy2) state = Some state2.
Proof.
  intros Htree Hi Hexact. set (m := nodes state) in *.
  destruct (moveNode_returns state i n (treeShaped_acyclicAttached _ Htree) Hi)
    as (fuel & t & Hfuel). fold m in Hfuel.
  pose proof (Hfuel fuel (le_n _)) as Ht.
  pose proof (visits_NoDup m Htree fuel i n t Hi Ht) as Hnd.
  pose proof (λ k, visits_elem m fuel i n t k Hi Ht) as Hel.
  assert (i ∉ t) as Hit.
  { intros H%Hel. by apply (edges_no_cycle m Htree i), cascades_edges. }
  set (m1 := applyTrace dx1 dy1 (<[i := translate dx1 dy1 n]> m) t).
  assert (sameShape m m1) as Hsh1.
  { apply sameShape_applyTrace. by apply sameShape_moved. }
  assert (m1 !! i = Some (translate dx1 dy1 n)) as Hi1.
  { unfold m1. rewrite applyTrace_lookup, decide_False by done.
    by rewrite lookup_insert_eq. }
  exists fuel, (with_nodes m1 state).
  exists (with_nodes (applyTrace (dx1 + dx2) (dy1 + dy2)
                        (<[i := translate (dx1 + dx2) (dy1 + dy2) n]> m) t) state).
  intros fuel' Hle. split_and!.
  - rewrite (moveNode_visits dx1 dy1 fuel' state i n Hi). fold m.
    by rewrite (Hfuel fuel' Hle).
  - rewrite (moveNode_visits dx2 dy2 fuel' (with_nodes m1 state) i _ Hi1). cbn.
    rewrite <- (visits_sameShape fuel' m m1 n (translate dx1 dy1 n) Hsh1 eq_refl).
    rewrite (Hfuel fuel' Hle). cbn. unfold with_nodes. f_equal. f_equal.
    apply map_eq. intros k. rewrite !applyTrace_lookup by done.
    destruct (decide (k = i)) as [->|Hne].
    + rewrite !decide_False by done. rewrite !lookup_insert_eq. f_equal.
      destruct (Hexact i n Hi) as [Hx Hy]; [by left|].
      by apply translate_translate.
    + rewrite !lookup_insert_ne by done. unfold m1.
      rewrite applyTrace_lookup by done. rewrite lookup_insert_ne by done.
      destruct (decide (k ∈ t)) as [Hk|Hk]; [|done].
      destruct (m !! k) as [kn|] eqn:Hmk; [|done]. cbn. f_equal.
      destruct (Hexact k kn Hmk) as [Hx Hy]; [right; by apply Hel|].
      by apply translate_translate.
  - rewrite (moveNode_visits _ _ fuel' state i n Hi). fold m.
    by rewrite (Hfuel fuel' Hle).
Qed.

Lemma moveNode_additive_witness :
  ∃ fuel state1 state2,
    ∀ fuel', fuel ≤ fuel' →
      moveNode fuel' "N" 5 7 chainDoc = Some state1
      ∧ moveNode fuel' "N" 3 (-2) state1 = Some state2
      ∧ moveNode fuel' "N" (5 + 3) (7 + -2) chainDoc = Some state2.
Proof.
  apply (moveNode_additive chainDoc "N"
           (sampleNode "N" act 0 0 false None ["C1"; "S"]) 5 7 3 (-2)).
  - apply (treeShaped_intro _ chainHeight).
    apply (bool_decide_unpack _). vm_compute. exact I.
  - reflexivity.
  - intros k kn Hk _. revert k kn Hk.
    apply map_Forall_to_list. vm_compute.
    repeat (constructor; [split; reflexivity|]). constructor.
Defined.

(** C10 as stated, for all deltas, fails on binary64 numbers: from x = 0.1,
    moving by 0.2 and then by 0.3 ends at 0.6000000000000001, and moving once
    by 0.2 + 0.3 ends at 0.6. *)
Lemma moveNode_not_additive :
  ∃ state1 state2 state12,
    moveNode 1 "P" 0x1.999999999999ap-3 0 fracDoc = Some state1
    ∧ moveNode 1 "P" 0x1.3333333333333p-2 0 state1 = Some state2
    ∧ moveNode 1 "P" (0x1.999999999999ap-3 + 0x1.3333333333333p-2) (0 + 0) fracDoc
      = Some state12
    ∧ (x ∘ pos) <$> nodes state2 !! "P" = Some 0x1.3333333333334p-1%float
    ∧ (x ∘ pos) <$> nodes state12 !! "P" = Some 0x1.3333333333333p-1%float
    ∧ state2 ≠ state12.
Proof.
  eexists _, _, _. split_and!; [vm_compute; reflexivity..|].
  intros H.
  apply (f_equal (λ s, match nodes s !! "P" with
                       | Some n => PrimFloat.eqb (x (pos n)) 0x1.3333333333333p-1
                       | None => true end)) in H.
  vm_compute in H. discriminate H.
Qed.

(** ** state/store.ts: the initial template *)

(** The object heap of [initialGraph]: node objects by address, in creation
    order. The locals [act], [s], [st] and [b] and the arrays [seqs] and
    [steps] hold addresses, and so does the value of a key of [nodes], so an
    assignment through one of them is seen through the others. [nodesVar]
    lists the assignments [nodes[k] = obj] in order ([nodes] is only written
    while the template is built), and [calls] counts the calls of
    [Math.random]. *)
Record Mem := {
  calls : nat;
  heap : list BaseNode;
  nodesVar : list (string * nat);
  seqsVar : list nat;
  stepsVar : list nat
}.

Definition M (A : Type) : Type := Mem → A * Mem.

#[global] Instance M_ret : MRet M := λ A a s, (a, s).
#[global] Instance M_bind : MBind M := λ A B f c s, let (a, s') := c s in f a s'.

Fixpoint forEach {A} (l : list A) (body : A → M unit) : M unit :=
  match l with
  | [] => mret ()
  | a :: l' => body a;; forEach l' body
  end.

#[global] Instance BaseNode_inhabited : Inhabited BaseNode :=
  populate {| id := ""; kind := act; title := ""; body := "";
              pos := {| x := 0; y := 0 |}; size := {| w := 0; h := 0 |};
              headerHeight := 0; expanded := false; attachedToParent := false;
              relativeOffset := None; parentId := None; childIds := [] |}.

Definition kindName (k : NodeKind) : string :=
  match k with
  | act => "act" | sequence => "sequence" | step => "step" | beat => "beat"
  end.

(** A small non-negative integer as a number (a loop counter, a count). *)
Definition num (i : nat) : number := PrimFloat.of_uint63 (Uint63.of_Z (Z.of_nat i)).

Section Template.
(** [random36 k] is the value of [Math.random().toString(36).slice(2, 8)] at
    the call number [k] of [Math.random]. *)
Context (random36 : nat → string).

(** [id(prefix)] of the store (the name [id] is the field's here). *)
Definition newId (prefix : string) : M string :=
  λ s, (prefix +:+ "_" +:+ random36 (calls s),
        {| calls := S (calls s); heap := heap s; nodesVar := nodesVar s;
           seqsVar := seqsVar s; stepsVar := stepsVar s |}).

Definition alloc (n : BaseNode) : M nat :=
  λ s, (length (heap s),
        {| calls := calls s; heap := heap s ++ [n]; nodesVar := nodesVar s;
           seqsVar := seqsVar s; stepsVar := stepsVar s |}).

Definition read (a : nat) : M BaseNode := λ s, (heap s !!! a, s).

Definition update (a : nat) (f : BaseNode → BaseNode) : M unit :=
  λ s, ((), {| calls := calls s; heap := alter f a (heap s); nodesVar := nodesVar s;
               seqsVar := seqsVar s; stepsVar := stepsVar s |}).

(** [nodes[k] = obj] *)
Definition assignNode (k : string) (a : nat) : M unit :=
  λ s, ((), {| calls := calls s; heap := heap s; nodesVar := nodesVar s ++ [(k, a)];
               seqsVar := seqsVar s; stepsVar := stepsVar s |}).

Definition pushSeq (a : nat) : M unit :=
  λ s, ((), {| calls := calls s; heap := heap s; nodesVar := nodesVar s;
               seqsVar := seqsVar s ++ [a]; stepsVar := stepsVar s |}).

Definition pushStep (a : nat) : M unit :=
  λ s, ((), {| calls := calls s; heap := heap s; nodesVar := nodesVar s;
               seqsVar := seqsVar s; stepsVar := stepsVar s ++ [a] |}).

Definition getSeqs : M (list nat) := λ s, (seqsVar s, s).
Definition getSteps : M (list nat) := λ s, (stepsVar s, s).

(** The truth value of an optional string: [undefined] and the empty string
    are false. *)
Definition truthy (o : option string) : bool :=
  match o with
  | Some s => bool_decide (s ≠ "")
  | None => false
  end.

Definition makeNode (k : NodeKind) (title' body' : string) (x' y' w' h' : number)
    (parentId' : option string) : M nat :=
  i ← newId (kindName k);
  alloc {| id := i; kind := k; title := title'; body := body';
           pos := {| x := x'; y := y' |}; size := {| w := w'; h := h' |};
           headerHeight := K.headerHeight;
           expanded := true; attachedToParent := truthy parentId';
           parentId := parentId';
           relativeOffset := if truthy parentId' then Some {| x := 0; y := 0 |} else None;
           childIds := [] |}.

Definition stepW : number := 220.
Definition beatH : number := 140.
Definition beatsPerStep : nat := 4.
Definition stepsPerSeq : nat := 4.
Definition stepBodyH : number :=
  num beatsPerStep * beatH + (num beatsPerStep - 1) * K.beatGap.
Definition stepH : number := K.headerHeight + K.innerPad + stepBodyH + K.innerPad.
Definition seqW : number :=
  num stepsPerSeq * stepW + (num stepsPerSeq - 1) * K.outerGap + K.innerPad * 2.
Definition seqH : number := K.headerHeight + K.innerPad + stepH + K.innerPad.
Definition actW : number := 2 * seqW + K.outerGap + K.innerPad * 2.
Definition actH : number := K.headerHeight + K.innerPad + seqH + K.innerPad.

Definition buildTemplate : M string :=
  a ← makeNode act "ACT" "Body..." 40 40 actW actH None;
  actObj ← read a;
  assignNode (id actObj) a;;
  forEach (seq 0 2) (λ i,
    s ← makeNode sequence ("SEQ " +:+ pretty (i + 1)) "Body..." 0 0 seqW seqH
          (Some (id actObj));
    let offsetX := (K.innerPad + num i * (seqW + K.outerGap))%float in
    let offsetY := (K.headerHeight + K.innerPad)%float in
    actNow ← read a;
    update s (set_pos {| x := x (pos actNow) + K.innerPad + offsetX;
                         y := y (pos actNow) + offsetY |});;
    update s (set_relativeOffset (Some {| x := offsetX; y := offsetY |}));;
    sObj ← read s;
    assignNode (id sObj) s;; pushSeq s;;
    update a (λ n, set_childIds (childIds n ++ [id sObj]) n));;
  seqs ← getSeqs;
  forEach seqs (λ s,
    forEach (seq 0 stepsPerSeq) (λ i,
      sObj ← read s;
      st ← makeNode step ("STEP " +:+ pretty (i + 1)) "Body..." 0 0 stepW stepH
             (Some (id sObj));
      let offsetX := (K.innerPad + num i * (stepW + K.outerGap))%float in
      let offsetY := (K.headerHeight + K.innerPad)%float in
      update st (set_pos {| x := x (pos sObj) + offsetX; y := y (pos sObj) + offsetY |});;
      update st (set_relativeOffset (Some {| x := offsetX; y := offsetY |}));;
      stObj ← read st;
      assignNode (id stObj) st;; pushStep st;;
      update s (λ n, set_childIds (childIds n ++ [id stObj]) n)));;
  steps ← getSteps;
  forEach steps (λ st,
    let beatW := (stepW - K.innerPad * 2)%float in
    forEach (seq 0 beatsPerStep) (λ j,
      stObj ← read st;
      b ← makeNode beat ("BEAT " +:+ pretty (j + 1)) "Body..." 0 0 beatW beatH
            (Some (id stObj));
      let offsetX := K.innerPad in
      let offsetY := (K.headerHeight + K.innerPad + num j * (beatH + K.beatGap))%float in
      update b (set_pos {| x := x (pos stObj) + offsetX; y := y (pos stObj) + offsetY |});;
      update b (set_relativeOffset (Some {| x := offsetX; y := offsetY |}));;
      bObj ← read b;
      assignNode (id bObj) b;;
      update st (λ n, set_childIds (childIds n ++ [id bObj]) n)));;
  mret (id actObj).

Definition emptyMem : Mem :=
  {| calls := 0; heap := []; nodesVar := []; seqsVar := []; stepsVar := [] |}.

(** [return { nodes, rootId: act.id }]: each assigned key holds its object as
    the construction left it; a later assignment to a key replaces an
    earlier one. *)
Definition initialGraph : GraphState :=
  let (root, mem) := buildTemplate emptyMem in
  {| nodes := foldl (λ m ka, <[ka.1 := heap mem !!! ka.2]> m) ∅ (nodesVar mem);
     rootId := root |}.

End Template.


(** The state of the construction when [initialGraph] returns. *)
Definition templateMem (random36 : nat → string) : Mem :=
  (buildTemplate random36 emptyMem).2.

(** The call of [Math.random] that names each node, by creation order: the
    Act first, then the two Sequences, the eight Steps, the 32 Beats. *)
Definition callKind (j : nat) : NodeKind :=
  if decide (j < 1) then act
  else if decide (j < 3) then sequence
  else if decide (j < 11) then step else beat.

Definition drawnId (random36 : nat → string) (j : nat) : string :=
  kindName (callKind j) +:+ "_" +:+ random36 j.

(** The addresses of the children and of the parent of the node at
    address [j]. *)
Definition kidsAt (j : nat) : list nat :=
  if decide (j < 1) then [1; 2]
  else if decide (j < 3) then seq (3 + 4 * (j - 1)) 4
  else if decide (j < 11) then seq (11 + 4 * (j - 3)) 4 else [].

Definition parentAt (j : nat) : option nat :=
  if decide (j < 1) then None
  else if decide (j < 3) then Some 0
  else if decide (j < 11) then Some (1 + (j - 3) / 4) else Some (3 + (j - 11) / 4).

Definition heightAt (j : nat) : nat :=
  if decide (j < 1) then 3
  else if decide (j < 3) then 2
  else if decide (j < 11) then 1 else 0.

(** ** The template: structure *)

Section TemplateFacts.
Context (random36 : nat → string).

Let I := drawnId random36.
Let H := heap (templateMem random36).

Lemma template_calls : calls (templateMem random36) = 43.
Proof. vm_compute. reflexivity. Qed.

Lemma template_id : id <$> H = I <$> seq 0 43.
Proof. vm_compute. reflexivity. Qed.

Lemma template_kind : kind <$> H = callKind <$> seq 0 43.
Proof. vm_compute. reflexivity. Qed.

Lemma template_childIds : childIds <$> H = (λ j, I <$> kidsAt j) <$> seq 0 43.
Proof. vm_compute. reflexivity. Qed.

Lemma template_parentId : parentId <$> H = (λ j, I <$> parentAt j) <$> seq 0 43.
Proof. vm_compute. reflexivity. Qed.

Lemma template_attached :
  attachedToParent <$> H = (λ j, bool_decide (j ≠ 0)) <$> seq 0 43.
Proof. vm_compute. reflexivity. Qed.

Lemma template_nodesVar :
  (λ ka : string * nat, (ka.1, H !!! ka.2)) <$> nodesVar (templateMem random36)
  = zip (I <$> seq 0 43) H.
Proof. vm_compute. reflexivity. Qed.

Lemma template_rootId : (buildTemplate random36 emptyMem).1 = I 0.
Proof. vm_compute. reflexivity. Qed.

End TemplateFacts.

Lemma foldl_insert_list_to_map {A} (l : list (string * A)) :
  NoDup l.*1 →
  foldl (λ m kv, <[kv.1 := kv.2]> m) (∅ : gmap string A) l = list_to_map l.
Proof.
  assert (∀ (m : gmap string A), NoDup l.*1 →
            foldl (λ m kv, <[kv.1 := kv.2]> m) m l = list_to_map l ∪ m) as Hgen.
  { induction l as [|[k v] l IH]; intros m Hnd; cbn.
    { by rewrite (left_id_L ∅ (∪)). }
    cbn in Hnd. apply NoDup_cons in Hnd as [Hk Hnd].
    rewrite IH by done. rewrite <- insert_union_l.
    symmetry. apply insert_union_r. by apply not_elem_of_list_to_map_1. }
  intros Hnd. rewrite Hgen by done. by rewrite (right_id_L ∅ (∪)).
Qed.

Lemma foldl_insert_fmap {A B} (f : B → string) (g : B → A) (l : list B) :
  foldl (λ m b, <[f b := g b]> m) (∅ : gmap string A) l
  = foldl (λ m kv, <[kv.1 := kv.2]> m) ∅ ((λ b, (f b, g b)) <$> l).
Proof. by rewrite foldl_fmap. Qed.

Lemma initialGraph_unfold random36 :
  initialGraph random36
  = {| nodes := foldl (λ m ka, <[ka.1 := heap (templateMem random36) !!! ka.2]> m) ∅
                  (nodesVar (templateMem random36));
       rootId := (buildTemplate random36 emptyMem).1 |}.
Proof. unfold initialGraph, templateMem. by destruct (buildTemplate _ _). Qed.

(** From here on the construction is used through the lemmas above only. *)
#[global] Opaque buildTemplate templateMem initialGraph.

(** The facts about addresses that the template's structure rests on. *)
Lemma kidsAt_spec j a :
  j < 43 → a ∈ kidsAt j →
  a < 43 ∧ parentAt a = Some j ∧ heightAt a < heightAt j ∧ a ≠ 0.
Proof.
  intros Hj Ha.
  assert (Forall (λ j, Forall (λ a, a < 43 ∧ parentAt a = Some j
                                    ∧ heightAt a < heightAt j ∧ a ≠ 0) (kidsAt j))
            (seq 0 43)) as Hall.
  { apply (bool_decide_unpack _). vm_compute. exact I. }
  rewrite Forall_forall in Hall.
  specialize (Hall j). rewrite Forall_forall in Hall.
  apply Hall; [|done]. apply elem_of_seq. lia.
Qed.

Lemma parentAt_spec j p :
  j < 43 → parentAt j = Some p → p < j ∧ j ∈ kidsAt p.
Proof.
  intros Hj Hp.
  assert (Forall (λ j, Forall (λ p, p < j ∧ j ∈ kidsAt p) (option_list (parentAt j)))
            (seq 0 43)) as Hall.
  { apply (bool_decide_unpack _). vm_compute. exact I. }
  rewrite Forall_forall in Hall.
  assert (j ∈ seq 0 43) as Hin by (apply elem_of_seq; lia).
  specialize (Hall j Hin). rewrite Hp in Hall. cbn in Hall.
  by inversion Hall.
Qed.

Lemma parentAt_None j : j < 43 → parentAt j = None → j = 0.
Proof.
  unfold parentAt. intros Hj. repeat case_decide; (done || lia).
Qed.

Lemma kidsAt_NoDup j : NoDup (kidsAt j).
Proof.
  unfold kidsAt. repeat case_decide; try apply NoDup_seq; [|constructor].
  apply (bool_decide_unpack _). vm_compute. exact I.
Qed.

(** The ids of the 43 nodes, in creation order. *)
Definition drawnIds (random36 : nat → string) : list string :=
  drawnId random36 <$> seq 0 43.

(** How many nodes of a document have the given kind. *)
Definition countKind (k : NodeKind) (g : GraphState) : nat :=
  length (filter (λ n, kind n = k) (map_to_list (nodes g)).*2).

Lemma length_filter_kind {A} (f : A → NodeKind) (k : NodeKind) (l : list A) :
  length (filter (λ a, f a = k) l) = length (filter (λ c, c = k) (f <$> l)).
Proof.
  induction l as [|a l IH]; [done|].
  rewrite fmap_cons, !filter_cons. destruct (decide (f a = k)); cbn; by rewrite IH.
Qed.

Lemma cascades_lookup m i k : cascades m i k → is_Some (m !! k).
Proof.
  induction 1 as [p k (pn & cn & _ & _ & Hk & _)|]; [|done]. by rewrite Hk.
Qed.

(** The consequences of the template's structure, for any 43 objects [H]
    with pairwise different ids [I 0 .. I 42] that are linked as the
    template links them, stored under their ids in [m]. *)
Section TemplateTree.
Context (I : nat → string) (H : list BaseNode) (m : gmap string BaseNode).
Context (Hdistinct : NoDup (I <$> seq 0 43)).
Context (Tid : id <$> H = I <$> seq 0 43).
Context (Tkind : kind <$> H = callKind <$> seq 0 43).
Context (Tkids : childIds <$> H = (λ j, I <$> kidsAt j) <$> seq 0 43).
Context (Tpar : parentId <$> H = (λ j, I <$> parentAt j) <$> seq 0 43).
Context (Tatt : attachedToParent <$> H = (λ j, bool_decide (j ≠ 0)) <$> seq 0 43).
Context (Tm : m = list_to_map (zip (I <$> seq 0 43) H)).

Lemma template_length : length H = 43.
Proof.
  rewrite <- (length_fmap id H). rewrite Tid.
  by rewrite length_fmap, length_seq.
Qed.

Lemma drawnId_inj j j' : j < 43 → j' < 43 → I j = I j' → j = j'.
Proof.
  intros Hj Hj' Heq.
  apply (NoDup_lookup _ j j' (I j) Hdistinct);
    apply list_lookup_fmap_Some; [exists j|exists j'];
    (split; [done|apply lookup_seq; lia]).
Qed.

Lemma template_keys : (zip (I <$> seq 0 43) H).*1 = I <$> seq 0 43.
Proof.
  rewrite fst_zip; [done|].
  rewrite length_fmap, length_seq. by rewrite template_length.
Qed.

Lemma template_lookup k n :
  m !! k = Some n ↔ ∃ j, j < 43 ∧ k = I j ∧ H !! j = Some n.
Proof.
  rewrite Tm. rewrite <- elem_of_list_to_map by by rewrite template_keys.
  rewrite elem_of_lookup_zip_with. split.
  - intros (j & k' & n' & [= <- <-] & Hk & Hn). exists j.
    apply list_lookup_fmap_Some_1 in Hk as (j' & -> & Hseq).
    apply lookup_seq in Hseq as [-> ?]. split_and!; [lia|reflexivity|exact Hn].
  - intros (j & Hj & -> & Hn). exists j, (I j), n. split_and!; [done| |done].
    apply list_lookup_fmap_Some. exists j. split; [reflexivity|].
    apply lookup_seq. lia.
Qed.

(** The node at address [j], field by field. *)
Lemma template_node j n :
  H !! j = Some n →
  j < 43 ∧ id n = I j ∧ kind n = callKind j
  ∧ childIds n = I <$> kidsAt j ∧ parentId n = I <$> parentAt j
  ∧ attachedToParent n = bool_decide (j ≠ 0).
Proof.
  intros Hn.
  assert (j < 43) as Hj.
  { rewrite <- template_length. by eapply lookup_lt_Some. }
  assert (∀ {A} (f : BaseNode → A) (g : nat → A),
            f <$> H = g <$> seq 0 43 → f n = g j) as Hfield.
  { intros A f g Heq. apply (f_equal (λ l, l !! j)) in Heq.
    rewrite !list_lookup_fmap, Hn, lookup_seq_lt in Heq by done.
    by injection Heq. }
  split_and!; [done|..].
  - apply Hfield, Tid.
  - apply Hfield, Tkind.
  - apply (Hfield _ childIds (λ j, I <$> kidsAt j)), Tkids.
  - apply (Hfield _ parentId (λ j, I <$> parentAt j)), Tpar.
  - apply (Hfield _ attachedToParent (λ j, bool_decide (j ≠ 0))), Tatt.
Qed.

Lemma template_at j : j < 43 → ∃ n, H !! j = Some n ∧ m !! I j = Some n.
Proof.
  intros Hj. destruct (lookup_lt_is_Some_2 H j) as [n Hn].
  { by rewrite template_length. }
  exists n. split; [done|]. apply template_lookup. by exists j.
Qed.

Lemma template_lookup_at j n : j < 43 → m !! I j = Some n → H !! j = Some n.
Proof.
  intros Hj (j' & Hj' & Heq & Hn)%template_lookup.
  by rewrite (drawnId_inj j j' Hj Hj' Heq).
Qed.

Lemma template_edge p c :
  edge m p c → ∃ j a, j < 43 ∧ p = I j ∧ a ∈ kidsAt j ∧ c = I a ∧ a < 43.
Proof.
  intros (pn & (j & Hj & -> & Hpn)%template_lookup & Hc & _).
  destruct (template_node j pn Hpn) as (_ & _ & _ & Hkids & _).
  rewrite Hkids in Hc. apply list_elem_of_fmap in Hc as (a & -> & Ha).
  exists j, a. split_and!; try done. by destruct (kidsAt_spec j a Hj Ha).
Qed.

Definition templateHeight (k : string) : nat :=
  match list_find (λ s, s = k) (I <$> seq 0 43) with
  | Some (j, _) => heightAt j
  | None => 0
  end.

Lemma templateHeight_at j : j < 43 → templateHeight (I j) = heightAt j.
Proof.
  intros Hj. unfold templateHeight.
  destruct (list_find _ _) as [[j' s]|] eqn:Hfind.
  - apply list_find_Some in Hfind as (Hj' & -> & _).
    apply list_lookup_fmap_Some_1 in Hj' as (j'' & Heq & Hseq).
    apply lookup_seq in Hseq as [-> Hlt]. cbn in Heq.
    by rewrite (drawnId_inj j j' Hj Hlt Heq).
  - apply list_find_None in Hfind. rewrite Forall_forall in Hfind.
    destruct (Hfind (I j)); [|done].
    apply list_elem_of_fmap. exists j. split; [done|].
    apply elem_of_seq. lia.
Qed.

(** With pairwise different ids the template is tree-shaped. *)
Lemma template_treeShaped : treeShaped m.
Proof.
  split.
  - intros k n (j & Hj & -> & Hn)%template_lookup.
    destruct (template_node j n Hn) as (_ & _ & _ & -> & _).
    apply NoDup_fmap_2_strong; [|apply kidsAt_NoDup].
    intros a a' Ha Ha'. apply drawnId_inj.
    + by destruct (kidsAt_spec j a Hj Ha).
    + by destruct (kidsAt_spec j a' Hj Ha').
  - intros p pn c cn (j & Hj & -> & Hpn)%template_lookup Hc Hcn.
    destruct (template_node j pn Hpn) as (_ & _ & _ & Hkids & _).
    rewrite Hkids in Hc. apply list_elem_of_fmap in Hc as (a & -> & Ha).
    destruct (kidsAt_spec j a Hj Ha) as (Ha43 & Hpar & _).
    apply (template_lookup_at a cn Ha43) in Hcn.
    destruct (template_node a cn Hcn) as (_ & _ & _ & _ & -> & _).
    by rewrite Hpar.
  - exists templateHeight.
    intros p c (j & a & Hj & -> & Ha & -> & Ha43)%template_edge.
    rewrite !templateHeight_at by done.
    by destruct (kidsAt_spec j a Hj Ha) as (_ & _ & ? & _).
Qed.

(** Every node other than the Act is reached from the Act through attached
    children. *)
Lemma template_cascades j : j < 43 → j ≠ 0 → cascades m (I 0) (I j).
Proof.
  induction (lt_wf j) as [j _ IH]. intros Hj Hne.
  destruct (parentAt j) as [p|] eqn:Hpar; [|by destruct Hne; apply parentAt_None].
  destruct (parentAt_spec j p Hj Hpar) as [Hlt Hkid].
  destruct (template_at p) as (pn & Hpn & Hmp); [lia|].
  destruct (template_at j) as (n & Hn & Hmj); [done|].
  assert (attachedEdge m (I p) (I j)) as Hedge.
  { exists pn, n. split_and!; [done| |done|].
    - destruct (template_node p pn Hpn) as (_ & _ & _ & -> & _).
      apply list_elem_of_fmap. by exists j.
    - destruct (template_node j n Hn) as (_ & _ & _ & _ & _ & ->).
      by apply bool_decide_eq_true. }
  destruct (decide (p = 0)) as [->|Hp]; [by apply tc_once|].
  eapply tc_r; [|exact Hedge]. apply IH; [done|lia|done].
Qed.

Lemma template_values : (map_to_list m).*2 ≡ₚ H.
Proof.
  rewrite Tm. rewrite map_to_list_to_map by by rewrite template_keys.
  rewrite snd_zip; [done|].
  rewrite length_fmap, length_seq. by rewrite template_length.
Qed.

Lemma template_size : card m = 43.
Proof.
  rewrite Tm. rewrite map_size_list_to_map by by rewrite template_keys.
  rewrite length_zip_with, length_fmap, length_seq, template_length. done.
Qed.

Lemma template_count k :
  length (filter (λ n, kind n = k) (map_to_list m).*2)
  = length (filter (λ j, callKind j = k) (seq 0 43)).
Proof.
  rewrite template_values.
  rewrite (length_filter_kind kind), Tkind.
  by rewrite <- (length_filter_kind callKind).
Qed.

Lemma template_non_root_attached k n :
  m !! k = Some n → k ≠ I 0 → attachedToParent n = true.
Proof.
  intros (j & Hj & -> & Hn)%template_lookup Hne.
  destruct (template_node j n Hn) as (_ & _ & _ & _ & _ & ->).
  apply bool_decide_eq_true. by intros ->.
Qed.

Lemma template_all_cascade k :
  is_Some (m !! k) → k = I 0 ∨ cascades m (I 0) k.
Proof.
  intros [n (j & Hj & -> & Hn)%template_lookup].
  destruct (decide (j = 0)) as [->|Hne]; [by left|].
  right. by apply template_cascades.
Qed.

End TemplateTree.

(** ** The template: the claims *)

(** What the construction establishes, for any outcome of the id source. *)
Lemma template_structure random36 :
  ∃ H : list BaseNode,
    id <$> H = drawnId random36 <$> seq 0 43
    ∧ kind <$> H = callKind <$> seq 0 43
    ∧ childIds <$> H = (λ j, drawnId random36 <$> kidsAt j) <$> seq 0 43
    ∧ parentId <$> H = (λ j, drawnId random36 <$> parentAt j) <$> seq 0 43
    ∧ attachedToParent <$> H = (λ j, bool_decide (j ≠ 0)) <$> seq 0 43
    ∧ pos <$> H !! 0 = Some {| x := 40; y := 40 |}
    ∧ rootId (initialGraph random36) = drawnId random36 0
    ∧ (NoDup (drawnIds random36) →
       nodes (initialGraph random36)
       = list_to_map (zip (drawnId random36 <$> seq 0 43) H)).
Proof.
  exists (heap (templateMem random36)). split_and!.
  - apply template_id.
  - apply template_kind.
  - apply template_childIds.
  - apply template_parentId.
  - apply template_attached.
  - vm_compute. reflexivity.
  - rewrite initialGraph_unfold. apply template_rootId.
  - intros Hnd. rewrite initialGraph_unfold. cbn [nodes].
    etrans; [apply (foldl_insert_fmap fst (λ ka, heap (templateMem random36) !!! ka.2))|].
    rewrite template_nodesVar. apply foldl_insert_list_to_map.
    rewrite fst_zip; [exact Hnd|].
    rewrite length_fmap, length_seq.
    rewrite <- (length_fmap id), template_id, length_fmap, length_seq. reflexivity.
Qed.

(** C6 (amended to runs in which the 43 generated ids are pairwise
    different). Then the initial document has exactly 43 nodes: one Act, at
    (40, 40), which is the root, two Sequences, eight Steps and 32 Beats;
    every node but the root is attached; and moveNode(rootId, 100, -20)
    returns a document with the same keys in which every node is the node
    of the initial document translated by exactly (100, -20). *)
Theorem initialGraph_moves_as_one (random36 : nat → string) :
  NoDup (drawnIds random36) →
  let g := initialGraph random36 in
  card (nodes g) = 43
  ∧ countKind act g = 1 ∧ countKind sequence g = 2
  ∧ countKind step g = 8 ∧ countKind beat g = 32
  ∧ (∃ a, nodes g !! rootId g = Some a ∧ kind a = act
          ∧ pos a = {| x := 40; y := 40 |})
  ∧ (∀ k n, nodes g !! k = Some n → k ≠ rootId g → attachedToParent n = true)
  ∧ ∃ g',
      (∃ fuel, ∀ fuel', fuel ≤ fuel' → moveNode fuel' (rootId g) 100 (-20) g = Some g')
      ∧ ∀ k, nodes g' !! k = translate 100 (-20) <$> nodes g !! k.
Proof.
  intros Hnd.
  destruct (template_structure random36)
    as (H & Tid & Tkind & Tkids & Tpar & Tatt & Hpos & Hroot & Hm).
  specialize (Hm Hnd). cbv zeta.
  generalize dependent (initialGraph random36). intros [m root]. cbn [nodes rootId].
  intros -> Tm. unfold drawnIds in Hnd.
  set (I := drawnId random36) in *. clearbody I.
  assert (treeShaped m) as Htree by (eapply template_treeShaped; eassumption).
  destruct (template_at I H m) with (j := 0) as (a & Ha & Hma); [eassumption..|lia|].
  split_and!.
  - eapply template_size; eassumption.
  - unfold countKind. cbn [nodes]. by erewrite template_count by eassumption.
  - unfold countKind. cbn [nodes]. by erewrite template_count by eassumption.
  - unfold countKind. cbn [nodes]. by erewrite template_count by eassumption.
  - unfold countKind. cbn [nodes]. by erewrite template_count by eassumption.
  - exists a. split_and!; [done| |].
    + destruct (template_node I H Tid Tkind Tkids Tpar Tatt 0 a Ha) as (_ & _ & -> & _).
      done.
    + rewrite Ha in Hpos. by injection Hpos.
  - intros k n Hk Hne. eapply template_non_root_attached; eassumption.
  - destruct (moveNode_cascade {| nodes := m; rootId := I 0 |} (I 0) a 100 (-20) Htree Hma)
      as (g' & Hfuel & _ & Hin & _ & Hout).
    exists g'. split; [exact Hfuel|]. intros k. cbn [nodes rootId] in *.
    destruct (m !! k) as [n|] eqn:Hk.
    + apply Hin; [done|].
      eapply template_all_cascade; [eassumption..|]. by rewrite Hk.
    + cbn. rewrite <- Hk. apply Hout.
      * intros ->. by rewrite Hma in Hk.
      * intros [? ?]%cascades_lookup. congruence.
Qed.

(** An id source whose suffixes are the decimal numerals 0, 1, 2, ... *)
Definition countingRandom36 (k : nat) : string := pretty k.

(** An id source that yields the suffix of call 11 again at call 12: the
    first two Beats of the first Step. *)
Definition repeatingRandom36 (k : nat) : string :=
  if decide (k = 12) then pretty 11 else pretty k.

(** An id source that yields the suffix of call 1 again at call 2: the two
    Sequences. *)
Definition collidingRandom36 (k : nat) : string :=
  if decide (k = 2) then pretty 1 else pretty k.

Lemma countingRandom36_distinct : NoDup (drawnIds countingRandom36).
Proof. apply (bool_decide_unpack _). vm_compute. exact I. Qed.

Lemma initialGraph_moves_as_one_witness :
  let g := initialGraph countingRandom36 in
  card (nodes g) = 43
  ∧ countKind act g = 1 ∧ countKind sequence g = 2
  ∧ countKind step g = 8 ∧ countKind beat g = 32
  ∧ (∃ a, nodes g !! rootId g = Some a ∧ kind a = act
          ∧ pos a = {| x := 40; y := 40 |})
  ∧ (∀ k n, nodes g !! k = Some n → k ≠ rootId g → attachedToParent n = true)
  ∧ ∃ g',
      (∃ fuel, ∀ fuel', fuel ≤ fuel' → moveNode fuel' (rootId g) 100 (-20) g = Some g')
      ∧ ∀ k, nodes g' !! k = translate 100 (-20) <$> nodes g !! k.
Proof.
  apply (initialGraph_moves_as_one countingRandom36).
  apply (bool_decide_unpack _). vm_compute. exact I.
Defined.

(** C6 as stated, for every run, fails: when Math.random yields the same
    suffix for the first two Beats of a Step, the second replaces the first
    under their common key, the document has 42 nodes, and the Step lists
    the key twice, so moveNode(rootId, 100, -20) shifts that Beat by
    (200, -40). *)
Lemma initialGraph_repeated_suffix :
  let g := initialGraph repeatingRandom36 in
  card (nodes g) = 42
  ∧ pos <$> nodes g !! "beat_11" = Some {| x := 88; y := 336 |}
  ∧ ∃ g', (∀ fuel, 4 ≤ fuel → moveNode fuel (rootId g) 100 (-20) g = Some g')
          ∧ pos <$> nodes g' !! "beat_11" = Some {| x := 288; y := 296 |}.
Proof.
  cbv zeta. split_and!; [vm_compute; reflexivity..|].
  eexists. split.
  - intros fuel Hle. apply (moveNode_le 100 (-20) 4 fuel); [done|].
    vm_compute. reflexivity.
  - vm_compute. reflexivity.
Qed.

Lemma newId_inj (k k' : NodeKind) (s s' : string) :
  kindName k +:+ "_" +:+ s = kindName k' +:+ "_" +:+ s' → k = k' ∧ s = s'.
Proof. destruct k, k'; cbn; intros [= ?]; by subst. Qed.

(** C8 (amended: the ids are as distinct as the drawn suffixes). The ids of
    two nodes of different kinds always differ; the ids of the 43 created
    nodes are pairwise different exactly when the suffixes that Math.random
    yields for nodes of one kind are pairwise different, which the code does
    not check. *)
Theorem created_ids_distinct_iff (random36 : nat → string) :
  NoDup (id <$> heap (templateMem random36))
  ↔ (∀ j k, j < k → k < 43 → callKind j = callKind k → random36 j ≠ random36 k).
Proof.
  rewrite template_id. split.
  - intros Hnd j k Hjk Hk Hkind Heq.
    assert (j = k); [|lia].
    apply (NoDup_lookup _ j k (drawnId random36 j) Hnd);
      apply list_lookup_fmap_Some; [exists j|exists k];
      (split; [|apply lookup_seq; lia]); [done|].
    unfold drawnId. by rewrite Hkind, Heq.
  - intros Hsuf. apply NoDup_fmap_2_strong; [|apply NoDup_seq].
    intros j k [_ Hj]%elem_of_seq [_ Hk]%elem_of_seq [Hkind Heq]%newId_inj.
    destruct (Nat.lt_trichotomy j k) as [Hlt|[->|Hlt]]; [|done|].
    + by destruct (Hsuf j k).
    + by destruct (Hsuf k j).
Qed.

(** C8 as stated, for every outcome of the id source, fails: when
    Math.random yields the same suffix for the two Sequences, they are
    created with the same id, and the second replaces the first in nodes. *)
Lemma created_ids_collide :
  id <$> heap (templateMem collidingRandom36) !! 1 = Some "sequence_1"
  ∧ id <$> heap (templateMem collidingRandom36) !! 2 = Some "sequence_1"
  ∧ title <$> heap (templateMem collidingRandom36) !! 1 = Some "SEQ 1"
  ∧ title <$> heap (templateMem collidingRandom36) !! 2 = Some "SEQ 2"
  ∧ title <$> nodes (initialGraph collidingRandom36) !! "sequence_1" = Some "SEQ 2"
  ∧ card (nodes (initialGraph collidingRandom36)) = 42.
Proof. split_and!; vm_compute; reflexivity. Qed.

(** *** relativeOffset in the template *)

(** The point that [relativeOffset] is measured from, relative to the
    parent's position: [(pos - relativeOffset) - parent.pos]. *)
Definition originGap (g : GraphState) (n : BaseNode) : option Point :=
  p ← parentId n ≫= (nodes g !!.);
  r ← relativeOffset n;
  Some {| x := x (pos n) - x r - x (pos p); y := y (pos n) - y r - y (pos p) |}.

Definition gapIs (g : GraphState) (n : BaseNode) (ox oy : number) : bool :=
  match originGap g n with
  | Some o => PrimFloat.eqb (x o) ox && PrimFloat.eqb (y o) oy
  | None => false
  end.

(** C7, evaluated on the template (ids with suffixes 0, 1, 2, ...): every
    attached node has a relativeOffset, but it is measured from
    parent.pos + (12, 0) for the two Sequences and from parent.pos for the
    Steps and the Beats: there is no one interior origin. The Sequences are
    placed at act.pos.x + innerPad + offsetX although offsetX already
    contains innerPad. *)
Theorem template_origin_differs :
  map_Forall
    (λ _ n, attachedToParent n = true →
            gapIs (initialGraph countingRandom36) n
              (if decide (kind n = sequence) then 12 else 0) 0 = true)
    (nodes (initialGraph countingRandom36))
  ∧ (pos <$> nodes (initialGraph countingRandom36) !! "act_0"
     = Some {| x := 40; y := 40 |})
  ∧ ((λ n, (pos n, relativeOffset n)) <$> nodes (initialGraph countingRandom36) !! "sequence_1"
     = Some ({| x := 64; y := 88 |}, Some {| x := 12; y := 48 |}))
  ∧ ((λ n, (pos n, relativeOffset n)) <$> nodes (initialGraph countingRandom36) !! "step_3"
     = Some ({| x := 76; y := 136 |}, Some {| x := 12; y := 48 |})).
Proof.
  split_and!; [|vm_compute; reflexivity..].
  apply (bool_decide_unpack _). vm_compute. exact I.
Qed.

(** ** The serializer: JSON values and text *)

(** A JavaScript value as far as JSON is concerned. An object is its list of
    properties in order; reading a property takes the last entry for the
    name, as when [JSON.parse] meets a name twice. *)
#[warnings="-register-all"]
Inductive JSValue :=
| JUndefined
| JNull
| JBool (b : bool)
| JNumber (n : number)
| JString (s : string)
| JArray (elements : list JSValue)
| JObject (props : list (string * JSValue)).

Definition quoteChar : Ascii.ascii := "034"%char.
Definition backslash : Ascii.ascii := "\"%char.
Definition newline : Ascii.ascii := "010"%char.

Definition getProp (name : string) (v : JSValue) : JSValue :=
  match v with
  | JObject props =>
      foldl (λ found kv, if decide (kv.1 = name) then kv.2 else found) JUndefined props
  | _ => JUndefined
  end.

(** *** Text of a string: QuoteJSONString and its inverse *)

Definition hexDigit (d : N) : Ascii.ascii :=
  Ascii.ascii_of_N (if decide (d < 10)%N then 48 + d else 87 + d).

Definition hexValue (c : Ascii.ascii) : option N :=
  let n := Ascii.N_of_ascii c in
  if decide (48 ≤ n ∧ n ≤ 57)%N then Some (n - 48)%N
  else if decide (97 ≤ n ∧ n ≤ 102)%N then Some (n - 87)%N
  else if decide (65 ≤ n ∧ n ≤ 70)%N then Some (n - 55)%N
  else None.

Definition escapeChar (c : Ascii.ascii) : string :=
  let n := Ascii.N_of_ascii c in
  if decide (c = quoteChar) then String backslash (String quoteChar "")
  else if decide (c = backslash) then String backslash (String backslash "")
  else if decide (n = 8)%N then String backslash "b"
  else if decide (n = 12)%N then String backslash "f"
  else if decide (n = 10)%N then String backslash "n"
  else if decide (n = 13)%N then String backslash "r"
  else if decide (n = 9)%N then String backslash "t"
  else if decide (n < 32)%N
       then String backslash
              (String "u" (String "0" (String "0"
                 (String (hexDigit (n / 16)) (String (hexDigit (n mod 16)) "")))))
  else String c "".

Fixpoint escapeString (s : string) : string :=
  match s with
  | "" => ""
  | String c s' => escapeChar c +:+ escapeString s'
  end.

Definition quote (s : string) : string :=
  String quoteChar (escapeString s +:+ String quoteChar "").

(** The code unit of a [\uXXXX] escape as text: itself below 128, and its
    UTF-8 bytes above. *)
Definition codeUnitText (u : N) : string :=
  if decide (u < 128)%N then String (Ascii.ascii_of_N u) ""
  else if decide (u < 2048)%N
       then String (Ascii.ascii_of_N (192 + u / 64)) (String (Ascii.ascii_of_N (128 + u mod 64)) "")
       else String (Ascii.ascii_of_N (224 + u / 4096))
              (String (Ascii.ascii_of_N (128 + (u / 64) mod 64))
                 (String (Ascii.ascii_of_N (128 + u mod 64)) "")).

(** The characters of a string literal after its opening quote, up to the
    closing quote. *)
Fixpoint parseChars (s : string) : option (string * string) :=
  match s with
  | "" => None
  | String c rest =>
      if decide (c = quoteChar) then Some ("", rest)
      else if decide (c = backslash) then
        match rest with
        | String e rest' =>
            let continue (t : string) (r : option (string * string)) :=
              match r with
              | Some (str, rest'') => Some (t +:+ str, rest'')
              | None => None
              end in
            if decide (e = quoteChar) then continue (String quoteChar "") (parseChars rest')
            else if decide (e = backslash) then continue (String backslash "") (parseChars rest')
            else if decide (e = "/"%char) then continue "/" (parseChars rest')
            else if decide (e = "b"%char) then continue (String "008" "") (parseChars rest')
            else if decide (e = "f"%char) then continue (String "012" "") (parseChars rest')
            else if decide (e = "n"%char) then continue (String "010" "") (parseChars rest')
            else if decide (e = "r"%char) then continue (String "013" "") (parseChars rest')
            else if decide (e = "t"%char) then continue (String "009" "") (parseChars rest')
            else if decide (e = "u"%char) then
              match rest' with
              | String h1 (String h2 (String h3 (String h4 rest''))) =>
                  match hexValue h1, hexValue h2, hexValue h3, hexValue h4 with
                  | Some a, Some b, Some c', Some d =>
                      continue (codeUnitText (((a * 16 + b) * 16 + c') * 16 + d)%N)
                        (parseChars rest'')
                  | _, _, _, _ => None
                  end
              | _ => None
              end
            else None
        | "" => None
        end
      else if decide (Ascii.N_of_ascii c < 32)%N then None
      else match parseChars rest with
           | Some (str, rest') => Some (String c str, rest')
           | None => None
           end
  end.

Example parseChars_ex :
  parseChars (escapeString ("a" +:+ String quoteChar (String newline (String "001" "\z")))
              +:+ String quoteChar "rest")
  = Some ("a" +:+ String quoteChar (String newline (String "001" "\z")), "rest").
Proof. vm_compute. reflexivity. Qed.

(** *** Text of a number *)

Definition isDigit (c : ascii) : bool :=
  bool_decide (48 ≤ N_of_ascii c ∧ N_of_ascii c ≤ 57)%N.

Definition isNumChar (c : ascii) : bool :=
  isDigit c || bool_decide (c ∈ ["-"; "+"; "."; "e"; "E"]%char).

Fixpoint allNumChars (s : string) : bool :=
  match s with
  | "" => true
  | String c s' => isNumChar c && allNumChars s'
  end.

(** The longest prefix of number characters, and the rest. *)
Fixpoint spanNum (s : string) : string * string :=
  match s with
  | "" => ("", "")
  | String c s' =>
      if isNumChar c then (String c (spanNum s').1, (spanNum s').2) else ("", s)
  end.

Fixpoint dropDigits (s : string) : string :=
  match s with
  | "" => ""
  | String c s' => if isDigit c then dropDigits s' else s
  end.

(** [e] or [E], an optional sign, one digit or more, and nothing after. *)
Definition isExponent (s : string) : bool :=
  match s with
  | String c s1 =>
      bool_decide (c ∈ ["e"; "E"]%char)
      && match s1 with
         | String d s2 =>
             if bool_decide (d ∈ ["+"; "-"]%char)
             then match s2 with
                  | String d' s3 => isDigit d' && bool_decide (dropDigits s3 = "")
                  | "" => false
                  end
             else isDigit d && bool_decide (dropDigits s2 = "")
         | "" => false
         end
  | "" => false
  end.

(** An optional fraction and an optional exponent, and nothing after. *)
Definition isFracExp (s : string) : bool :=
  match s with
  | "" => true
  | String "."%char (String d s1) =>
      isDigit d && (bool_decide (dropDigits s1 = "") || isExponent (dropDigits s1))
  | _ => isExponent s
  end.

(** The JSON grammar of a number. *)
Definition isJSONNumber (tok : string) : bool :=
  let unsigned := match tok with String "-"%char s => s | _ => tok end in
  match unsigned with
  | String "0"%char s => isFracExp s
  | String d s => isDigit d && isFracExp (dropDigits s)
  | "" => false
  end.

Definition isNumeral (tok : string) : bool := allNumChars tok && isJSONNumber tok.

(** *** JSON.stringify(value, null, 2) and JSON.parse *)

Fixpoint spaces (k : nat) : string :=
  match k with
  | O => ""
  | S k' => String " " (spaces k')
  end.

Definition nl (k : nat) : string := String newline (spaces k).

Fixpoint joinWith (sep : string) (items : list string) : string :=
  match items with
  | [] => ""
  | [t] => t
  | t :: rest => t +:+ sep +:+ joinWith sep rest
  end.

(** An array or an object with its items, one per line, at indentation
    [ind + 2]; the brackets alone when there is no item. *)
Definition wrap (opening closing : ascii) (ind : nat) (items : list string) : string :=
  match items with
  | [] => String opening (String closing "")
  | _ => String opening
           (nl (ind + 2) +:+ joinWith ("," +:+ nl (ind + 2)) items
            +:+ nl ind +:+ String closing "")
  end.

Definition isWs (c : ascii) : bool :=
  bool_decide (c ∈ [" "; "009"; "010"; "013"]%char).

Fixpoint skipWs (s : string) : string :=
  match s with
  | "" => ""
  | String c s' => if isWs c then skipWs s' else s
  end.

(** [s] starts with [lit]: the rest after it. *)
Fixpoint expect (lit s : string) : option string :=
  match lit, s with
  | "", _ => Some s
  | String a lit', String b s' => if decide (a = b) then expect lit' s' else None
  | _, "" => None
  end.

(** After white space, [s] goes on with the character [c]: the rest. *)
Definition closes (c : ascii) (s : string) : option string :=
  match skipWs s with
  | String c' rest => if decide (c' = c) then Some rest else None
  | "" => None
  end.

Section Serializer.
(** The two number conversions of ECMAScript that the built-ins use:
    [Number::toString(n)] for a finite [n], and the value of a JSON number
    literal. They are floating-point library code, taken as given. *)
Context (NumberToString : number → string) (StringToNumber : string → number).

(** SerializeJSONProperty: [None] is the [undefined] result, which an object
    leaves out with its key and an array writes as null. *)
Fixpoint str (ind : nat) (v : JSValue) : option string :=
  match v with
  | JUndefined => None
  | JNull => Some "null"
  | JBool b => Some (if b then "true" else "false")
  | JNumber n => Some (if PrimFloat.is_finite n then NumberToString n else "null")
  | JString s => Some (quote s)
  | JArray elements =>
      Some (wrap "[" "]" ind ((λ e, default "null" (str (ind + 2) e)) <$> elements))
  | JObject props =>
      Some (wrap "{" "}" ind
              (omap (λ kv, (λ t, quote kv.1 +:+ ": " +:+ t) <$> str (ind + 2) kv.2) props))
  end.

Definition JSON_stringify (v : JSValue) : option string := str 0 v.

Fixpoint parseValue (fuel : nat) (s : string) : option (JSValue * string) :=
  match fuel with
  | O => None
  | S fuel' =>
      match skipWs s with
      | "" => None
      | String c rest =>
          if decide (c = "n"%char) then (λ r, (JNull, r)) <$> expect "ull" rest
          else if decide (c = "t"%char) then (λ r, (JBool true, r)) <$> expect "rue" rest
          else if decide (c = "f"%char) then (λ r, (JBool false, r)) <$> expect "alse" rest
          else if decide (c = quoteChar)
               then (λ sr : string * string, (JString sr.1, sr.2)) <$> parseChars rest
          else if decide (c = "["%char) then
            match closes "]" rest with
            | Some rest' => Some (JArray [], rest')
            | None => (λ er : list JSValue * string, (JArray er.1, er.2))
                        <$> parseElements fuel' rest
            end
          else if decide (c = "{"%char) then
            match closes "}" rest with
            | Some rest' => Some (JObject [], rest')
            | None => (λ mr : list (string * JSValue) * string, (JObject mr.1, mr.2))
                        <$> parseMembers fuel' rest
            end
          else
            let tok := (spanNum (String c rest)).1 in
            if isJSONNumber tok
            then Some (JNumber (StringToNumber tok), (spanNum (String c rest)).2)
            else None
      end
  end
with parseElements (fuel : nat) (s : string) : option (list JSValue * string) :=
  match fuel with
  | O => None
  | S fuel' =>
      match parseValue fuel' s with
      | None => None
      | Some (v, r) =>
          match skipWs r with
          | String c r' =>
              if decide (c = ","%char)
              then (λ er : list JSValue * string, (v :: er.1, er.2)) <$> parseElements fuel' r'
              else if decide (c = "]"%char) then Some ([v], r') else None
          | "" => None
          end
      end
  end
with parseMembers (fuel : nat) (s : string) : option (list (string * JSValue) * string) :=
  match fuel with
  | O => None
  | S fuel' =>
      match skipWs s with
      | String q r =>
          if decide (q = quoteChar) then
            match parseChars r with
            | None => None
            | Some (k, r1) =>
                match skipWs r1 with
                | String ":"%char r2 =>
                    match parseValue fuel' r2 with
                    | None => None
                    | Some (v, r3) =>
                        match skipWs r3 with
                        | String c r4 =>
                            if decide (c = ","%char)
                            then (λ mr : list (string * JSValue) * string,
                                    ((k, v) :: mr.1, mr.2)) <$> parseMembers fuel' r4
                            else if decide (c = "}"%char) then Some ([(k, v)], r4)
                            else None
                        | "" => None
                        end
                    end
                | _ => None
                end
            end
          else None
      | "" => None
      end
  end.

(** [JSON.parse(text)]: one value, white space around it, nothing else;
    [None] is a SyntaxError. The fuel is more than the text can use. *)
Definition JSON_parse (text : string) : option JSValue :=
  match parseValue (2 * String.length text + 2) text with
  | Some (v, rest) => if decide (skipWs rest = "") then Some v else None
  | None => None
  end.

End Serializer.

(** ** state/store.ts: saveJSON and loadJSON *)

(** The two data fields of the store as JavaScript values: after a load they
    hold whatever the file held. *)
Record RawState := {
  rawNodes : JSValue;
  rawRootId : JSValue
}.

(** The objects of a typed document as JavaScript values. The properties of
    a node are in the order of the object literal of [makeNode]; an absent
    optional field is a property whose value is [undefined], as [makeNode]
    leaves it. *)
Definition pointValue (p : Point) : JSValue :=
  JObject [("x", JNumber (x p)); ("y", JNumber (y p))].

Definition sizeValue (s : Size) : JSValue :=
  JObject [("w", JNumber (w s)); ("h", JNumber (h s))].

Definition nodeValue (n : BaseNode) : JSValue :=
  JObject [("id", JString (id n)); ("kind", JString (kindName (kind n)));
           ("title", JString (title n)); ("body", JString (body n));
           ("pos", pointValue (pos n)); ("size", sizeValue (size n));
           ("headerHeight", JNumber (headerHeight n));
           ("expanded", JBool (expanded n));
           ("attachedToParent", JBool (attachedToParent n));
           ("parentId", from_option JString JUndefined (parentId n));
           ("relativeOffset", from_option pointValue JUndefined (relativeOffset n));
           ("childIds", JArray (JString <$> childIds n))].

Definition nodesValue (m : gmap string BaseNode) : JSValue :=
  JObject ((λ kn, (kn.1, nodeValue kn.2)) <$> map_to_list m).

Definition reflect (g : GraphState) : RawState :=
  {| rawNodes := nodesValue (nodes g); rawRootId := JString (rootId g) |}.

(** A JavaScript value read at the type the store declares for it: [None]
    when it does not have the fields of the type. *)
Definition asNumber (v : JSValue) : option number :=
  match v with JNumber n => Some n | _ => None end.
Definition asString (v : JSValue) : option string :=
  match v with JString s => Some s | _ => None end.
Definition asBool (v : JSValue) : option bool :=
  match v with JBool b => Some b | _ => None end.

Definition asPoint (v : JSValue) : option Point :=
  px ← asNumber (getProp "x" v); py ← asNumber (getProp "y" v);
  Some {| x := px; y := py |}.

Definition asSize (v : JSValue) : option Size :=
  sw ← asNumber (getProp "w" v); sh ← asNumber (getProp "h" v);
  Some {| w := sw; h := sh |}.

Definition asKind (v : JSValue) : option NodeKind :=
  s ← asString v;
  if decide (s = "act") then Some act
  else if decide (s = "sequence") then Some sequence
  else if decide (s = "step") then Some step
  else if decide (s = "beat") then Some beat else None.

Definition asOptional {A} (f : JSValue → option A) (v : JSValue) : option (option A) :=
  match v with
  | JUndefined => Some None
  | _ => Some <$> f v
  end.

Definition asStrings (v : JSValue) : option (list string) :=
  match v with
  | JArray elements => mapM asString elements
  | _ => None
  end.

Definition asNode (v : JSValue) : option BaseNode :=
  i ← asString (getProp "id" v);
  k ← asKind (getProp "kind" v);
  t ← asString (getProp "title" v);
  b ← asString (getProp "body" v);
  p ← asPoint (getProp "pos" v);
  s ← asSize (getProp "size" v);
  hh ← asNumber (getProp "headerHeight" v);
  e ← asBool (getProp "expanded" v);
  a ← asBool (getProp "attachedToParent" v);
  o ← asOptional asPoint (getProp "relativeOffset" v);
  pa ← asOptional asString (getProp "parentId" v);
  c ← asStrings (getProp "childIds" v);
  Some {| id := i; kind := k; title := t; body := b; pos := p; size := s;
          headerHeight := hh; expanded := e; attachedToParent := a;
          relativeOffset := o; parentId := pa; childIds := c |}.

Definition asNodes (v : JSValue) : option (gmap string BaseNode) :=
  match v with
  | JObject props =>
      foldl (λ acc kv, m ← acc; n ← asNode kv.2; Some (<[kv.1 := n]> m)) (Some ∅) props
  | _ => None
  end.

Definition typed (s : RawState) : option GraphState :=
  m ← asNodes (rawNodes s); r ← asString (rawRootId s);
  Some {| nodes := m; rootId := r |}.

(** What leaves the updater of [loadJSON]. *)
Inductive Thrown := SyntaxError | TypeError.

(** zustand's [set(updater)]: the updater runs on the current state, and
    what it returns is merged into the state; when it throws, nothing is
    assigned. *)
Definition set {S P : Type} (merge : S → P → S) (updater : S → Thrown + P) (state : S)
    : S * option Thrown :=
  match updater state with
  | inl e => (state, Some e)
  | inr partial => (merge state partial, None)
  end.

Section Store.
Context (NumberToString : number → string) (StringToNumber : string → number).

(** [JSON.stringify({ nodes: get().nodes, rootId: get().rootId }, null, 2)] *)
Definition saveJSON (state : RawState) : string :=
  default "" (JSON_stringify NumberToString
                (JObject [("nodes", rawNodes state); ("rootId", rawRootId state)])).

(** [const data = JSON.parse(json); return { nodes: data.nodes, rootId:
    data.rootId }]: reading a property of [null] throws, of any other value
    gives the property or [undefined]. *)
Definition loadJSON_updater (json : string) (state : RawState) : Thrown + RawState :=
  match JSON_parse StringToNumber json with
  | None => inl SyntaxError
  | Some JNull => inl TypeError
  | Some data => inr {| rawNodes := getProp "nodes" data; rawRootId := getProp "rootId" data |}
  end.

Definition loadJSON (json : string) (state : RawState) : RawState * option Thrown :=
  set (λ _ partial, partial) (loadJSON_updater json) state.

End Store.

(** *** A number codec for whole numbers *)

(** The decimal numeral of a number that is a whole number below 2^63 in
    size, and the number of such a numeral: what [Number::toString] and the
    value of a number literal are on these. It stands for them on the sample
    documents. *)
Definition wholeToString (n : number) : string :=
  match Prim2SF n with
  | S754_zero _ => "0"
  | S754_finite s m e =>
      let z := match e with
               | Zneg p => (Zpos m / 2 ^ Zpos p)%Z
               | _ => (Zpos m * 2 ^ e)%Z
               end in
      (if s then "-" else "") +:+ pretty z
  | _ => "null"
  end.

Fixpoint digitsValue (acc : Z) (s : string) : Z :=
  match s with
  | "" => acc
  | String c s' => digitsValue (10 * acc + (Z.of_N (N_of_ascii c) - 48))%Z s'
  end.

Definition wholeOfString (tok : string) : number :=
  match tok with
  | String "-"%char s => (- PrimFloat.of_uint63 (Uint63.of_Z (digitsValue 0 s)))%float
  | _ => PrimFloat.of_uint63 (Uint63.of_Z (digitsValue 0 tok))
  end.


(** What the text written for a value denotes: a non-finite number is
    written as null, an element [undefined] of an array too, and a property
    whose value is [undefined] is left out. *)
Fixpoint image (v : JSValue) : JSValue :=
  match v with
  | JUndefined => JNull
  | JNumber n => if PrimFloat.is_finite n then JNumber n else JNull
  | JArray elements => JArray (image <$> elements)
  | JObject props =>
      JObject (omap (λ kv, match kv.2 with
                           | JUndefined => None
                           | _ => Some (kv.1, image kv.2)
                           end) props)
  | _ => v
  end.

(** The recursion depth that parsing the text of a value needs. *)
Fixpoint weight (v : JSValue) : nat :=
  match v with
  | JArray elements => S (foldr (λ e acc, S (weight e) + acc) 0 elements)
  | JObject props =>
      S (foldr (λ kv acc, match kv.2 with
                          | JUndefined => acc
                          | _ => S (weight kv.2) + acc
                          end) 0 props)
  | _ => 1
  end.

(** A document whose one node sits at x = Infinity (a loaded file can hold
    one: JSON.parse reads the literal 1e999 as Infinity). *)
Definition infinityDoc : GraphState :=
  docOf [ sampleNode "A" act infinity 0 false None [] ] "A".

(** ** The serializer: text and back *)

(** *** Strings *)

Lemma append_String (c : ascii) (s t : string) :
  String c s +:+ t = String c (s +:+ t).
Proof. reflexivity. Qed.

Lemma append_nil_l (t : string) : "" +:+ t = t.
Proof. reflexivity. Qed.

Lemma append_assoc (s t u : string) : (s +:+ t) +:+ u = s +:+ (t +:+ u).
Proof. induction s as [|c s IH]; [done|]. by rewrite !append_String, IH. Qed.

Lemma length_append (s t : string) :
  String.length (s +:+ t) = String.length s + String.length t.
Proof. induction s as [|c s IH]; [done|]. rewrite append_String. cbn. by rewrite IH. Qed.

Lemma parseChars_escapeChar (c : ascii) (tail : string) :
  parseChars (escapeChar c +:+ tail)
  = match parseChars tail with
    | Some (str, rest) => Some (String c str, rest)
    | None => None
    end.
Proof.
  destruct c as [[] [] [] [] [] [] [] []]; simpl; reflexivity.
Qed.

Lemma parseChars_quote (s rest : string) :
  parseChars (escapeString s +:+ String quoteChar rest) = Some (s, rest).
Proof.
  induction s as [|c s IH]; [done|].
  cbn [escapeString]. rewrite append_assoc.
  by rewrite parseChars_escapeChar, IH.
Qed.

(** *** White space and numbers *)

Fixpoint allWs (s : string) : bool :=
  match s with
  | "" => true
  | String c s' => isWs c && allWs s'
  end.

(** What may follow the text of a value: not a character of a number. *)
Definition cont (rest : string) : Prop :=
  match rest with
  | "" => True
  | String c _ => isNumChar c = false
  end.

Lemma skipWs_pre (pre s : string) : allWs pre = true → skipWs (pre +:+ s) = skipWs s.
Proof.
  induction pre as [|c pre IH]; [done|]. cbn [allWs].
  intros [Hc Hpre]%andb_true_iff. rewrite append_String. cbn [skipWs]. rewrite Hc. auto.
Qed.

Lemma allWs_spaces k : allWs (spaces k) = true.
Proof. induction k; [done|]. cbn. done. Qed.

Lemma allWs_nl k : allWs (nl k) = true.
Proof. unfold nl. cbn [allWs]. by rewrite allWs_spaces. Qed.

Lemma skipWs_nl k s : skipWs (nl k +:+ s) = skipWs s.
Proof. apply skipWs_pre, allWs_nl. Qed.

Lemma numChar_not_ws (c : ascii) :
  isNumChar c = true →
  isWs c = false ∧ c ≠ "n"%char ∧ c ≠ "t"%char ∧ c ≠ "f"%char ∧ c ≠ quoteChar
  ∧ c ≠ "["%char ∧ c ≠ "{"%char ∧ c ≠ "]"%char ∧ c ≠ "}"%char.
Proof.
  destruct c as [[] [] [] [] [] [] [] []]; vm_compute; intros Hc;
    first [discriminate Hc | split_and!; first [reflexivity | discriminate]].
Qed.

Lemma spanNum_append (tok rest : string) :
  allNumChars tok = true → cont rest → spanNum (tok +:+ rest) = (tok, rest).
Proof.
  intros Htok Hrest. induction tok as [|c tok IH].
  - rewrite append_nil_l. destruct rest as [|c rest]; [done|].
    cbn in Hrest. cbn [spanNum]. by rewrite Hrest.
  - cbn [allNumChars] in Htok. apply andb_true_iff in Htok as [Hc Htok].
    rewrite append_String. cbn [spanNum]. rewrite Hc, (IH Htok). done.
Qed.

Lemma isJSONNumber_nonempty (tok : string) : isJSONNumber tok = true → tok ≠ "".
Proof. by intros H ->. Qed.

(** *** Values *)

Lemma JSValue_nested_ind (P : JSValue → Prop) :
  P JUndefined → P JNull → (∀ b, P (JBool b)) → (∀ n, P (JNumber n)) →
  (∀ s, P (JString s)) →
  (∀ elements, Forall P elements → P (JArray elements)) →
  (∀ props, Forall (λ kv, P kv.2) props → P (JObject props)) →
  ∀ v, P v.
Proof.
  intros Hu Hn Hb Hnum Hs Ha Ho. fix IH 1. intros [| |b|n|s|elements|props].
  - exact Hu.
  - exact Hn.
  - apply Hb.
  - apply Hnum.
  - apply Hs.
  - apply Ha. induction elements as [|e l IHl]; constructor; [apply IH|exact IHl].
  - apply Ho. induction props as [|[k e] l IHl]; constructor; [apply IH|exact IHl].
Qed.

Section RoundTrip.
Context (NumberToString : number → string) (StringToNumber : string → number).

(** The two number conversions agree on [n]: its text is a JSON numeral that
    reads back as [n]. *)
Definition numberOK (n : number) : Prop :=
  isNumeral (NumberToString n) = true ∧ StringToNumber (NumberToString n) = n.

Fixpoint numbersOK (v : JSValue) : Prop :=
  match v with
  | JNumber n => PrimFloat.is_finite n = true → numberOK n
  | JArray elements => foldr (λ e acc, numbersOK e ∧ acc) True elements
  | JObject props => foldr (λ kv acc, numbersOK kv.2 ∧ acc) True props
  | _ => True
  end.

Abbreviation str' := (str NumberToString).
Abbreviation parseValue' := (parseValue StringToNumber).
Abbreviation parseElements' := (parseElements StringToNumber).
Abbreviation parseMembers' := (parseMembers StringToNumber).

Lemma skipWs_idem (s : string) : skipWs (skipWs s) = skipWs s.
Proof.
  induction s as [|c s IH]; [done|]. cbn [skipWs].
  destruct (isWs c) eqn:Hc; [done|]. cbn [skipWs]. by rewrite Hc.
Qed.

Lemma parseValue_skipWs fuel s : parseValue' fuel s = parseValue' fuel (skipWs s).
Proof. destruct fuel; [done|]. cbn [parseValue]. by rewrite skipWs_idem. Qed.

Lemma parseValue_pre fuel pre s :
  allWs pre = true → parseValue' fuel (pre +:+ s) = parseValue' fuel s.
Proof.
  intros Hpre. rewrite parseValue_skipWs, skipWs_pre by done.
  by rewrite <- parseValue_skipWs.
Qed.

(** Parsing the text of [v] gives the image of [v] and what follows. *)
Definition parsesBack (v : JSValue) : Prop :=
  ∀ ind t rest fuel,
    numbersOK v → str' ind v = Some t → cont rest → weight v ≤ fuel →
    parseValue' fuel (t +:+ rest) = Some (image v, rest).

Lemma str_None ind v : str' ind v = None → v = JUndefined.
Proof. by destruct v. Qed.

Lemma parsesBack_null : parsesBack JNull.
Proof.
  intros ind t rest [|fuel] _ [= <-] _ Hfuel; [cbn in Hfuel; lia|]. reflexivity.
Qed.

Lemma parsesBack_bool b : parsesBack (JBool b).
Proof.
  intros ind t rest [|fuel] _ [= <-] _ Hfuel; [cbn in Hfuel; lia|].
  by destruct b.
Qed.

Lemma parsesBack_string s : parsesBack (JString s).
Proof.
  intros ind t rest [|fuel] _ [= <-] _ Hfuel; [cbn in Hfuel; lia|].
  unfold quote. rewrite append_String, append_assoc, append_String, append_nil_l.
  cbn [parseValue skipWs]. change (isWs quoteChar) with false. cbn iota.
  rewrite !decide_False by done. rewrite decide_True by done.
  by rewrite parseChars_quote.
Qed.

Lemma parsesBack_number n : parsesBack (JNumber n).
Proof.
  intros ind t rest [|fuel] Hok [= <-] Hrest Hfuel; [cbn in Hfuel; lia|].
  cbn [image]. destruct (PrimFloat.is_finite n) eqn:Hfin; [|reflexivity].
  destruct (Hok Hfin) as [[Hchars Hnum]%andb_true_iff Hback].
  destruct (NumberToString n) as [|c tok] eqn:Htok; [done|].
  pose proof Hchars as Hc. cbn [allNumChars] in Hc.
  apply andb_true_iff in Hc as [Hc _].
  destruct (numChar_not_ws c Hc) as (Hws & ? & ? & ? & ? & ? & ? & _).
  rewrite append_String. cbn [parseValue skipWs]. rewrite Hws.
  rewrite !decide_False by done.
  rewrite <- append_String, spanNum_append by done. cbn [fst snd].
  by rewrite Hnum, Hback.
Qed.

Lemma quote_append (k rest : string) :
  quote k +:+ rest = String quoteChar (escapeString k +:+ String quoteChar rest).
Proof. unfold quote. by rewrite append_String, append_assoc. Qed.

Lemma parsesBack_item e ind rest fuel :
  parsesBack e → numbersOK e → cont rest → weight e ≤ fuel →
  parseValue' fuel (default "null" (str' ind e) +:+ rest) = Some (image e, rest).
Proof.
  intros He Hok Hrest Hfuel. destruct (str' ind e) as [t|] eqn:Ht.
  - by eapply He.
  - apply str_None in Ht as ->. destruct fuel; [cbn in Hfuel; lia|]. reflexivity.
Qed.

Definition itemTexts (ind : nat) (elements : list JSValue) : list string :=
  (λ e, default "null" (str' ind e)) <$> elements.

Lemma parseElements_join ind rest : ∀ elements fuel,
  elements ≠ [] → Forall parsesBack elements →
  foldr (λ e acc, numbersOK e ∧ acc) True elements →
  foldr (λ e acc, S (weight e) + acc) 0 elements ≤ fuel →
  parseElements' fuel
    (nl (ind + 2) +:+ joinWith ("," +:+ nl (ind + 2)) (itemTexts (ind + 2) elements)
     +:+ nl ind +:+ String "]" rest)
  = Some (image <$> elements, rest).
Proof.
  induction elements as [|e l IH]; [done|].
  intros fuel _ [He Hl]%Forall_cons [Hoke Hokl] Hfuel.
  cbn [foldr] in Hfuel. destruct fuel as [|fuel]; [lia|].
  cbn [parseElements]. rewrite parseValue_pre by apply allWs_nl.
  destruct l as [|e' l'].
  - cbn [itemTexts fmap list_fmap joinWith].
    rewrite (parsesBack_item e (ind + 2) _ fuel He Hoke); [|done|cbn in Hfuel; lia].
    rewrite skipWs_nl. reflexivity.
  - change (itemTexts (ind + 2) (e :: e' :: l'))
      with (default "null" (str' (ind + 2) e) :: itemTexts (ind + 2) (e' :: l')).
    change (joinWith ?sep (?t :: itemTexts (ind + 2) (e' :: l')))
      with (t +:+ sep +:+ joinWith sep (itemTexts (ind + 2) (e' :: l'))).
    rewrite !append_assoc, append_String, append_nil_l.
    rewrite (parsesBack_item e (ind + 2) _ fuel He Hoke); [|done|lia].
    cbn [skipWs]. change (isWs ",") with false. cbn iota.
    rewrite decide_True by done.
    rewrite (IH fuel); [done|done|done|done|lia].
Qed.

Definition memberTexts (ind : nat) (props : list (string * JSValue)) : list string :=
  omap (λ kv, (λ t, quote kv.1 +:+ ": " +:+ t) <$> str' ind kv.2) props.

Definition imageProps (props : list (string * JSValue)) : list (string * JSValue) :=
  omap (λ kv, match kv.2 with
              | JUndefined => None
              | _ => Some (kv.1, image kv.2)
              end) props.

Lemma memberTexts_nil ind props : memberTexts ind props = [] → imageProps props = [].
Proof.
  induction props as [|[k e] l IH]; [done|]. cbn.
  destruct e; cbn; done.
Qed.

Lemma parseMembers_join ind rest : ∀ props fuel,
  memberTexts (ind + 2) props ≠ [] → Forall (λ kv, parsesBack kv.2) props →
  foldr (λ kv acc, numbersOK kv.2 ∧ acc) True props →
  foldr (λ kv acc, match kv.2 with
                   | JUndefined => acc
                   | _ => S (weight kv.2) + acc
                   end) 0 props ≤ fuel →
  parseMembers' fuel
    (nl (ind + 2) +:+ joinWith ("," +:+ nl (ind + 2)) (memberTexts (ind + 2) props)
     +:+ nl ind +:+ String "}" rest)
  = Some (imageProps props, rest).
Proof.
  induction props as [|[k e] l IH]; [done|].
  intros fuel Hne [He Hl]%Forall_cons [Hoke Hokl] Hfuel.
  cbn [foldr snd] in Hfuel. cbn [snd] in He, Hoke.
  destruct (str' (ind + 2) e) as [t|] eqn:Ht.
  2:{ apply str_None in Ht as ->. apply IH; done. }
  assert (imageProps ((k, e) :: l) = (k, image e) :: imageProps l) as ->.
  { by destruct e. }
  assert (memberTexts (ind + 2) ((k, e) :: l)
          = (quote k +:+ ": " +:+ t) :: memberTexts (ind + 2) l) as Hitems.
  { unfold memberTexts. cbn [omap list_omap fst snd]. by rewrite Ht. }
  assert (S (weight e) + foldr (λ kv acc, match kv.2 with
                                          | JUndefined => acc
                                          | _ => S (weight kv.2) + acc
                                          end) 0 l ≤ fuel) as Hfuel'.
  { by destruct e. }
  clear Hfuel. rewrite Hitems. clear Hitems Hne.
  destruct fuel as [|fuel]; [lia|].
  destruct (memberTexts (ind + 2) l) as [|t' ts] eqn:Hts.
  - rewrite (memberTexts_nil _ _ Hts). cbn [joinWith].
    rewrite !append_assoc, quote_append.
    cbn [parseMembers]. rewrite skipWs_nl. cbn [skipWs].
    change (isWs quoteChar) with false. cbn iota. rewrite decide_True by done.
    rewrite parseChars_quote. rewrite append_String. cbn [skipWs].
    change (isWs ":") with false. cbn iota.
    rewrite (parseValue_pre fuel " ") by done.
    rewrite (He (ind + 2) t _ fuel Hoke Ht); [|done|lia].
    rewrite skipWs_nl. reflexivity.
  - change (joinWith ?sep (?t0 :: t' :: ts)) with (t0 +:+ sep +:+ joinWith sep (t' :: ts)).
    rewrite !append_assoc, quote_append.
    cbn [parseMembers]. rewrite skipWs_nl. cbn [skipWs].
    change (isWs quoteChar) with false. cbn iota. rewrite decide_True by done.
    rewrite parseChars_quote. rewrite (append_String ":"). cbn [skipWs].
    change (isWs ":") with false. cbn iota.
    rewrite (parseValue_pre fuel " ") by done.
    rewrite (He (ind + 2) t _ fuel Hoke Ht); [|done|lia].
    rewrite (append_String ","), append_nil_l.
    cbn [skipWs]. change (isWs ",") with false. cbn iota.
    rewrite decide_True by done.
    rewrite (IH fuel); [done|done|done|done|lia].
Qed.

(** The text of a value starts with a character that is neither white
    space nor a closing bracket. *)
Definition opens (t : string) : Prop :=
  match t with
  | String c _ => isWs c = false ∧ c ≠ "]"%char ∧ c ≠ "}"%char
  | "" => False
  end.

Lemma str_opens ind v t : numbersOK v → str' ind v = Some t → opens t.
Proof.
  destruct v as [| |b|n|s|elements|props]; intros Hok [= <-]; try done.
  - by destruct b.
  - destruct (PrimFloat.is_finite n) eqn:Hfin; [|done].
    destruct (Hok Hfin) as [[Hchars Hnum]%andb_true_iff _].
    destruct (NumberToString n) as [|c tok]; [done|].
    cbn [allNumChars] in Hchars. apply andb_true_iff in Hchars as [Hc _].
    by destruct (numChar_not_ws c Hc) as (? & _ & _ & _ & _ & _ & _ & ? & ?).
  - unfold wrap. by destruct (_ <$> elements).
  - unfold wrap. by destruct (omap _ props).
Qed.

Lemma closes_opens c k t rest :
  opens t → c = "]"%char ∨ c = "}"%char → closes c (nl k +:+ t +:+ rest) = None.
Proof.
  intros Ht Hc. unfold closes. rewrite skipWs_nl.
  destruct t as [|c' t]; [done|]. destruct Ht as (Hws & H1 & H2).
  rewrite append_String. cbn [skipWs]. rewrite Hws.
  rewrite decide_False; [done|]. by destruct Hc as [-> | ->].
Qed.

Lemma joinWith_opens sep t ts : opens t → opens (joinWith sep (t :: ts)).
Proof. destruct t as [|c t]; [done|]. by destruct ts. Qed.

Lemma wrap_append (o c : ascii) ind t ts rest :
  wrap o c ind (t :: ts) +:+ rest
  = String o (nl (ind + 2) +:+ joinWith ("," +:+ nl (ind + 2)) (t :: ts)
              +:+ nl ind +:+ String c rest).
Proof. unfold wrap. rewrite append_String, !append_assoc. reflexivity. Qed.

(** Every value is read back from its text. *)
Theorem parsesBack_all v : parsesBack v.
Proof.
  induction v as [| |b|n|s|elements IH|props IH] using JSValue_nested_ind.
  - by intros ind t rest fuel _ [=].
  - apply parsesBack_null.
  - apply parsesBack_bool.
  - apply parsesBack_number.
  - apply parsesBack_string.
  - intros ind t rest [|fuel] Hok Ht Hrest Hfuel; [cbn in Hfuel; lia|].
    change (Some (wrap "[" "]" ind (itemTexts (ind + 2) elements)) = Some t) in Ht.
    injection Ht as <-.
    cbn [weight] in Hfuel. cbn [image numbersOK] in *.
    destruct elements as [|e l]; [reflexivity|].
    assert (opens (default "null" (str' (ind + 2) e))) as Hopen.
    { destruct (str' (ind + 2) e) as [t|] eqn:Ht; [|done].
      eapply str_opens; [|exact Ht]. by destruct Hok. }
    pose proof (parseElements_join ind rest (e :: l) fuel) as Hparse.
    change (itemTexts (ind + 2) (e :: l))
      with (default "null" (str' (ind + 2) e) :: itemTexts (ind + 2) l) in *.
    rewrite wrap_append.
    cbn [parseValue skipWs]. change (isWs "[") with false. cbn iota.
    rewrite !decide_False by done. rewrite decide_True by done.
    rewrite closes_opens; [|by apply joinWith_opens|by left].
    rewrite Hparse; [done|done|done|done|lia].
  - intros ind t rest [|fuel] Hok Ht Hrest Hfuel; [cbn in Hfuel; lia|].
    change (Some (wrap "{" "}" ind (memberTexts (ind + 2) props)) = Some t) in Ht.
    injection Ht as <-.
    cbn [weight] in Hfuel. cbn [numbersOK] in *.
    change (image (JObject props)) with (JObject (imageProps props)).
    pose proof (parseMembers_join ind rest props fuel) as Hparse.
    destruct (memberTexts (ind + 2) props) as [|t ts] eqn:Hts.
    { rewrite (memberTexts_nil _ _ Hts). reflexivity. }
    assert (opens t) as Hopen.
    { clear -Hts. induction props as [|[k e] l IHl]; [done|].
      unfold memberTexts in Hts. cbn [omap list_omap fst snd] in Hts.
      destruct (str' (ind + 2) e) as [te|]; [|by apply IHl].
      cbn in Hts. injection Hts as <- _. rewrite quote_append. done. }
    rewrite wrap_append.
    cbn [parseValue skipWs]. change (isWs "{") with false. cbn iota.
    rewrite !decide_False by done. rewrite decide_True by done.
    rewrite closes_opens; [|by apply joinWith_opens|by right].
    rewrite Hparse; [done|done|done|done|lia].
Qed.

(** *** Fuel: the text is longer than the recursion is deep *)

Lemma opens_length t : opens t → 1 ≤ String.length t.
Proof. destruct t; [done|]. cbn. lia. Qed.

Lemma length_joinWith_cons sep t t' ts :
  String.length (joinWith sep (t :: t' :: ts))
  = String.length t + String.length sep + String.length (joinWith sep (t' :: ts)).
Proof.
  change (joinWith sep (t :: t' :: ts)) with (t +:+ sep +:+ joinWith sep (t' :: ts)).
  rewrite !length_append. lia.
Qed.

Lemma length_wrap (o c : ascii) ind items :
  String.length (joinWith ("," +:+ nl (ind + 2)) items) + 2
  ≤ String.length (wrap o c ind items).
Proof.
  unfold wrap. destruct items as [|t ts]; [cbn; lia|].
  cbn [String.length]. rewrite !length_append. cbn [String.length]. lia.
Qed.

Definition shortWeight (v : JSValue) : Prop :=
  ∀ ind t, numbersOK v → str' ind v = Some t → weight v ≤ String.length t.

Lemma weight_elements sep ind elements :
  1 ≤ String.length sep →
  Forall shortWeight elements →
  foldr (λ e acc, numbersOK e ∧ acc) True elements →
  foldr (λ e acc, S (weight e) + acc) 0 elements
  ≤ String.length (joinWith sep (itemTexts (ind + 2) elements)) + 1.
Proof.
  intros Hsep. induction elements as [|e l IH]; [cbn; lia|].
  intros [He Hl]%Forall_cons [Hoke Hokl]. specialize (IH Hl Hokl).
  assert (weight e ≤ String.length (default "null" (str' (ind + 2) e))) as Hw.
  { destruct (str' (ind + 2) e) as [t|] eqn:Ht; [by eapply He|].
    apply str_None in Ht as ->. cbn. lia. }
  cbn [foldr]. destruct l as [|e' l'].
  - cbn [itemTexts fmap list_fmap joinWith foldr]. lia.
  - change (itemTexts (ind + 2) (e :: e' :: l'))
      with (default "null" (str' (ind + 2) e) :: default "null" (str' (ind + 2) e')
            :: itemTexts (ind + 2) l').
    rewrite length_joinWith_cons.
    change (default "null" (str' (ind + 2) e') :: itemTexts (ind + 2) l')
      with (itemTexts (ind + 2) (e' :: l')).
    lia.
Qed.

Lemma weight_members sep ind props :
  1 ≤ String.length sep →
  Forall (λ kv, shortWeight kv.2) props →
  foldr (λ kv acc, numbersOK kv.2 ∧ acc) True props →
  foldr (λ kv acc, match kv.2 with
                   | JUndefined => acc
                   | _ => S (weight kv.2) + acc
                   end) 0 props
  ≤ String.length (joinWith sep (memberTexts (ind + 2) props)) + 1.
Proof.
  intros Hsep. induction props as [|[k e] l IH]; [cbn; lia|].
  intros [He Hl]%Forall_cons [Hoke Hokl]. specialize (IH Hl Hokl).
  cbn [snd] in He, Hoke. cbn [foldr snd].
  destruct (str' (ind + 2) e) as [t|] eqn:Ht.
  2:{ apply str_None in Ht as ->. exact IH. }
  assert (memberTexts (ind + 2) ((k, e) :: l)
          = (quote k +:+ ": " +:+ t) :: memberTexts (ind + 2) l) as ->.
  { unfold memberTexts. cbn [omap list_omap fst snd]. by rewrite Ht. }
  pose proof (He (ind + 2) t Hoke Ht) as Hw.
  assert (S (weight e) + foldr (λ kv acc, match kv.2 with
                                          | JUndefined => acc
                                          | _ => S (weight kv.2) + acc
                                          end) 0 l
          ≤ String.length (joinWith sep
                             ((quote k +:+ ": " +:+ t) :: memberTexts (ind + 2) l)) + 1);
    [|by destruct e].
  destruct (memberTexts (ind + 2) l) as [|t' ts].
  - cbn [joinWith] in *. rewrite !length_append. cbn [String.length] in *. lia.
  - rewrite length_joinWith_cons, !length_append. lia.
Qed.

Lemma weight_short v : shortWeight v.
Proof.
  induction v as [| |b|n|s|elements IH|props IH] using JSValue_nested_ind;
    intros ind t Hok Ht;
    try (apply opens_length; by eapply (str_opens ind)).
  - change (Some (wrap "[" "]" ind (itemTexts (ind + 2) elements)) = Some t) in Ht.
    injection Ht as <-. cbn [weight].
    pose proof (weight_elements ("," +:+ nl (ind + 2)) ind elements
                  ltac:(rewrite append_String; cbn [String.length]; lia) IH Hok).
    pose proof (length_wrap "[" "]" ind (itemTexts (ind + 2) elements)). lia.
  - change (Some (wrap "{" "}" ind (memberTexts (ind + 2) props)) = Some t) in Ht.
    injection Ht as <-. cbn [weight].
    pose proof (weight_members ("," +:+ nl (ind + 2)) ind props
                  ltac:(rewrite append_String; cbn [String.length]; lia) IH Hok).
    pose proof (length_wrap "{" "}" ind (memberTexts (ind + 2) props)). lia.
Qed.

Lemma append_nil_r (s : string) : s +:+ "" = s.
Proof. induction s as [|c s IH]; [done|]. by rewrite append_String, IH. Qed.

(** [JSON.parse(JSON.stringify(v, null, 2))] is the image of [v]. *)
Theorem JSON_parse_stringify v t :
  numbersOK v → JSON_stringify NumberToString v = Some t →
  JSON_parse StringToNumber t = Some (image v).
Proof.
  intros Hok Ht. unfold JSON_parse.
  rewrite <- (append_nil_r t) at 2.
  rewrite (parsesBack_all v 0 t "" _ Hok Ht I).
  - reflexivity.
  - pose proof (weight_short v 0 t Hok Ht). lia.
Qed.

(** *** Documents *)

(** The numbers of a node. *)
Definition nodeNumbers (n : BaseNode) : list number :=
  [x (pos n); y (pos n); w (size n); h (size n); headerHeight n]
  ++ from_option (λ p, [x p; y p]) [] (relativeOffset n).

(** A number that JSON text can hold: finite, and written and read back by
    the two conversions. *)
Definition goodNumber (n : number) : Prop :=
  PrimFloat.is_finite n = true ∧ numberOK n.

Definition docNumbersOK (g : GraphState) : Prop :=
  map_Forall (λ _ n, Forall goodNumber (nodeNumbers n)) (nodes g).

Lemma asStrings_image (l : list string) :
  asStrings (image (JArray (JString <$> l))) = Some l.
Proof.
  cbn [image asStrings]. induction l as [|s l IH]; [done|].
  cbn [fmap list_fmap] in *. cbn [mapM]. rewrite IH. done.
Qed.

Lemma asNode_image (n : BaseNode) :
  Forall (λ f, PrimFloat.is_finite f = true) (nodeNumbers n) →
  asNode (image (nodeValue n)) = Some n.
Proof.
  destruct n as [i k t b [px py] [sw sh] hh e a ro pa c].
  unfold nodeNumbers. cbn [pos size headerHeight relativeOffset x y w h].
  intros Hfin. apply Forall_app in Hfin as [Hfin Hro].
  apply Forall_cons in Hfin as [Hpx Hfin]. apply Forall_cons in Hfin as [Hpy Hfin].
  apply Forall_cons in Hfin as [Hsw Hfin]. apply Forall_cons in Hfin as [Hsh Hfin].
  apply Forall_cons in Hfin as [Hhh _].
  pose proof (asStrings_image c) as Hc.
  unfold nodeValue, pointValue, sizeValue.
  cbn [id kind title body pos size headerHeight expanded attachedToParent
       relativeOffset parentId childIds x y w h].
  destruct ro as [[ox oy]|], pa as [pa|]; cbn -[asStrings] in *.
  - apply Forall_cons in Hro as [Hox Hro]. apply Forall_cons in Hro as [Hoy _].
    rewrite Hpx, Hpy, Hsw, Hsh, Hhh, Hox, Hoy. unfold asNode. cbn -[asStrings image].
    repeat first [rewrite decide_True by reflexivity | rewrite decide_False by discriminate].
    cbn -[asStrings image]. rewrite Hc. by destruct k.
  - apply Forall_cons in Hro as [Hox Hro]. apply Forall_cons in Hro as [Hoy _].
    rewrite Hpx, Hpy, Hsw, Hsh, Hhh, Hox, Hoy. unfold asNode. cbn -[asStrings image].
    repeat first [rewrite decide_True by reflexivity | rewrite decide_False by discriminate].
    cbn -[asStrings image]. rewrite Hc. by destruct k.
  - rewrite Hpx, Hpy, Hsw, Hsh, Hhh. unfold asNode. cbn -[asStrings image].
    repeat first [rewrite decide_True by reflexivity | rewrite decide_False by discriminate].
    cbn -[asStrings image]. rewrite Hc. by destruct k.
  - rewrite Hpx, Hpy, Hsw, Hsh, Hhh. unfold asNode. cbn -[asStrings image].
    repeat first [rewrite decide_True by reflexivity | rewrite decide_False by discriminate].
    cbn -[asStrings image]. rewrite Hc. by destruct k.
Qed.

Lemma goodNumber_finite (l : list number) :
  Forall goodNumber l → Forall (λ f, PrimFloat.is_finite f = true) l.
Proof. intros Hl. eapply Forall_impl; [exact Hl|]. by intros f [? _]. Qed.

Lemma numbersOK_node (n : BaseNode) :
  Forall goodNumber (nodeNumbers n) → numbersOK (nodeValue n).
Proof.
  destruct n as [i k t b [px py] [sw sh] hh e a ro pa c].
  unfold nodeNumbers. cbn [pos size headerHeight relativeOffset x y w h].
  intros Hgood. apply Forall_app in Hgood as [Hgood Hro].
  apply Forall_cons in Hgood as [[_ Hpx] Hgood].
  apply Forall_cons in Hgood as [[_ Hpy] Hgood].
  apply Forall_cons in Hgood as [[_ Hsw] Hgood].
  apply Forall_cons in Hgood as [[_ Hsh] Hgood].
  apply Forall_cons in Hgood as [[_ Hhh] _].
  assert (numbersOK (JArray (JString <$> c))) as Hc.
  { cbn [numbersOK]. induction c as [|s c IH]; [done|]. by split. }
  assert (numbersOK (from_option pointValue JUndefined ro)) as Hrov.
  { destruct ro as [[ox oy]|]; [|done].
    apply Forall_cons in Hro as [[_ Hox] Hro]. apply Forall_cons in Hro as [[_ Hoy] _].
    cbn. by split_and!. }
  unfold nodeValue.
  cbn [id kind title body pos size headerHeight expanded attachedToParent
       relativeOffset parentId childIds].
  cbn [numbersOK foldr snd]. split_and!; try done.
  - cbn. by split_and!.
  - cbn. by split_and!.
  - by destruct pa.
Qed.

Lemma image_nodesValue (l : list (string * BaseNode)) :
  image (JObject ((λ kn, (kn.1, nodeValue kn.2)) <$> l))
  = JObject ((λ kn, (kn.1, image (nodeValue kn.2))) <$> l).
Proof.
  cbn [image]. f_equal. induction l as [|[k n] l IH]; [done|].
  cbn [fmap list_fmap omap list_omap fst snd] in *. by rewrite IH.
Qed.

Lemma asNodes_image (m : gmap string BaseNode) :
  map_Forall (λ _ n, Forall goodNumber (nodeNumbers n)) m →
  asNodes (image (nodesValue m)) = Some m.
Proof.
  intros Hm. unfold nodesValue. rewrite image_nodesValue. cbn [asNodes].
  assert (∀ (l : list (string * BaseNode)) (acc : gmap string BaseNode),
            Forall (λ kn, Forall goodNumber (nodeNumbers kn.2)) l →
            foldl (λ acc kv, m ← acc; n ← asNode kv.2; Some (<[kv.1 := n]> m))
              (Some acc) ((λ kn, (kn.1, image (nodeValue kn.2))) <$> l)
            = Some (foldl (λ m kn, <[kn.1 := kn.2]> m) acc l)) as Hfold.
  { induction l as [|[k n] l IH]; intros acc Hl; [done|].
    apply Forall_cons in Hl as [Hn Hl]. cbn [fmap list_fmap foldl fst snd] in *.
    cbn [mbind option_bind].
    rewrite (asNode_image n) by by apply goodNumber_finite.
    cbn [mbind option_bind]. by apply IH. }
  rewrite Hfold.
  - rewrite foldl_insert_list_to_map by apply NoDup_fst_map_to_list.
    by rewrite list_to_map_to_list.
  - apply Forall_forall. intros [k n] Hkn%elem_of_map_to_list. by apply (Hm k n).
Qed.

Lemma numbersOK_nodes (m : gmap string BaseNode) :
  map_Forall (λ _ n, Forall goodNumber (nodeNumbers n)) m →
  numbersOK (nodesValue m).
Proof.
  intros Hm. unfold nodesValue. cbn [numbersOK].
  assert (Forall (λ kn : string * BaseNode, Forall goodNumber (nodeNumbers kn.2))
            (map_to_list m)) as Hl.
  { apply Forall_forall. intros [k n] Hkn%elem_of_map_to_list. by apply (Hm k n). }
  induction Hl as [|[k n] l Hn Hl IH]; [done|].
  cbn [fmap list_fmap foldr snd]. split; [by apply numbersOK_node|exact IH].
Qed.

End RoundTrip.

(** ** saveJSON and loadJSON: the claims *)

Section StoreClaims.
Context (NumberToString : number → string) (StringToNumber : string → number).

(** C2 (amended to documents whose numbers JSON text can hold). For every
    document D, well-formed or not, whose numeric fields are finite and are
    written and read back by the two number conversions (NaN and the
    infinities are written as null), loadJSON applied to the text of
    saveJSON installs a document equal to D: the same keys, every node with
    the same value in every field, the same rootId. *)
Theorem save_load_roundtrip (g : GraphState) (state : RawState) :
  docNumbersOK NumberToString StringToNumber g →
  ∃ state',
    loadJSON StringToNumber (saveJSON NumberToString (reflect g)) state = (state', None)
    ∧ typed state' = Some g.
Proof.
  intros Hok.
  set (top := JObject [("nodes", nodesValue (nodes g)); ("rootId", JString (rootId g))]).
  assert (numbersOK NumberToString StringToNumber top) as Htop.
  { cbn [top numbersOK foldr snd]. split_and!; [|done..].
    by apply numbersOK_nodes. }
  destruct (JSON_stringify NumberToString top) as [t|] eqn:Ht; [|done].
  pose proof (JSON_parse_stringify _ _ top t Htop Ht) as Hparse.
  unfold loadJSON, set, loadJSON_updater, saveJSON.
  cbn [reflect rawNodes rawRootId]. fold top. rewrite Ht.
  change (default "" (Some t)) with t. rewrite Hparse.
  assert (image top = JObject [("nodes", image (nodesValue (nodes g)));
                               ("rootId", JString (rootId g))]) as ->.
  { done. }
  eexists. split; [reflexivity|].
  unfold typed. cbn [rawNodes rawRootId].
  assert (getProp "nodes" (JObject [("nodes", image (nodesValue (nodes g)));
                                    ("rootId", JString (rootId g))])
          = image (nodesValue (nodes g))) as -> by done.
  assert (getProp "rootId" (JObject [("nodes", image (nodesValue (nodes g)));
                                     ("rootId", JString (rootId g))])
          = JString (rootId g)) as -> by done.
  rewrite (asNodes_image NumberToString StringToNumber) by exact Hok.
  by destruct g.
Qed.

(** C3. When loadJSON fails (JSON.parse throws, or the text is null and the
    read of data.nodes throws), the state after the call is the state before
    it: nodes and rootId are unchanged. *)
Theorem loadJSON_failure_keeps_state (json : string) (state : RawState) (e : Thrown) :
  (loadJSON StringToNumber json state).2 = Some e →
  (loadJSON StringToNumber json state).1 = state.
Proof.
  unfold loadJSON, set. by destruct (loadJSON_updater StringToNumber json state).
Qed.

(** C4 (amended: there is no check of the shape). loadJSON accepts its text
    exactly when the text is JSON for a value other than null, and then
    installs data.nodes and data.rootId as they are, [undefined] when the
    value has no such property; it fails with the SyntaxError of JSON.parse
    exactly when the text is not JSON, and with a TypeError exactly when the
    text is null. *)
Theorem loadJSON_accepts_any_value (json : string) (state : RawState) :
  ((loadJSON StringToNumber json state).2 = None
   ↔ ∃ data, JSON_parse StringToNumber json = Some data ∧ data ≠ JNull
             ∧ (loadJSON StringToNumber json state).1
               = {| rawNodes := getProp "nodes" data; rawRootId := getProp "rootId" data |})
  ∧ ((loadJSON StringToNumber json state).2 = Some SyntaxError
     ↔ JSON_parse StringToNumber json = None)
  ∧ ((loadJSON StringToNumber json state).2 = Some TypeError
     ↔ JSON_parse StringToNumber json = Some JNull).
Proof.
  unfold loadJSON, set, loadJSON_updater.
  destruct (JSON_parse StringToNumber json) as [[| |b|n|s|l|ps]|]; cbn [fst snd];
    split_and!; split; intros H; try done;
    try (destruct H as (data & Hdata & Hne & _); injection Hdata as <-; done);
    try (by destruct H as (data & Hdata & _));
    try (eexists; split_and!; [reflexivity|done|reflexivity]).
Qed.

End StoreClaims.

Lemma save_load_roundtrip_witness :
  ∃ state',
    loadJSON wholeOfString (saveJSON wholeToString (reflect chainDoc)) (reflect twiceDoc)
    = (state', None)
    ∧ typed state' = Some chainDoc.
Proof.
  apply (save_load_roundtrip wholeToString wholeOfString chainDoc (reflect twiceDoc)).
  unfold docNumbersOK. apply map_Forall_to_list.
  set (l := map_to_list _). vm_compute in l. subst l.
  repeat (apply Forall_cons; split).
  all: first [apply Forall_nil_2
             | unfold goodNumber, numberOK; split_and!; vm_compute; reflexivity].
Defined.

(** C2 as stated, for every well-formed document, fails on a document that
    holds a non-finite number (a loaded file can: the literal 1e999 is read
    as Infinity): saveJSON writes null for it, and the document read back
    has null in place of the number. *)
Lemma save_load_infinity :
  ∃ state',
    loadJSON wholeOfString (saveJSON wholeToString (reflect infinityDoc))
      (reflect infinityDoc) = (state', None)
    ∧ getProp "x" (getProp "pos" (getProp "A" (rawNodes (reflect infinityDoc))))
      = JNumber infinity
    ∧ getProp "x" (getProp "pos" (getProp "A" (rawNodes state'))) = JNull
    ∧ typed state' = None.
Proof. eexists. split_and!; vm_compute; reflexivity. Qed.

Lemma loadJSON_failure_keeps_state_witness :
  (loadJSON wholeOfString "{ nodes" (reflect chainDoc)).1 = reflect chainDoc.
Proof.
  apply (loadJSON_failure_keeps_state wholeOfString "{ nodes" (reflect chainDoc) SyntaxError).
  vm_compute. reflexivity.
Defined.

(** C4 as stated fails: text that is valid JSON but has neither a nodes
    object nor a rootId string is accepted, and nodes and rootId become
    [undefined] (or whatever the properties hold): no error is raised. *)
Lemma loadJSON_accepts_other_shapes :
  loadJSON wholeOfString "{}" (reflect chainDoc)
  = ({| rawNodes := JUndefined; rawRootId := JUndefined |}, None)
  ∧ loadJSON wholeOfString "5" (reflect chainDoc)
    = ({| rawNodes := JUndefined; rawRootId := JUndefined |}, None)
  ∧ loadJSON wholeOfString
      ("{ " +:+ quote "nodes" +:+ ": 7, " +:+ quote "rootId" +:+ ": [] }")
      (reflect chainDoc)
    = ({| rawNodes := JNumber 7; rawRootId := JArray [] |}, None).
Proof. split_and!; vm_compute; reflexivity. Qed.

(** * Further properties of the store *)

(** ** How the mutations compose *)

(** What [toggleExpand] and [resizeNode] assign to the node they name. *)
Definition flipped (n : BaseNode) : BaseNode := set_expanded (negb (expanded n)) n.

Definition sized (w' h' : number) (n : BaseNode) : BaseNode :=
  set_size {| w := w'; h := h' |} n.

(** A file whose root lists a missing child and a detached child with an
    attached child of its own. *)
Definition danglingDoc : GraphState :=
  docOf [ sampleNode "A" act 0 0 false None ["ghost"; "B"];
          sampleNode "B" sequence 10 10 false (Some "A") ["C"];
          sampleNode "C" step 20 20 true (Some "B") [] ] "A".

Lemma insert_as_alter {A} (f : A → A) (m : gmap string A) i a :
  m !! i = Some a → <[i := f a]> m = alter f i m.
Proof.
  intros Hi. apply map_eq. intros j. destruct (decide (i = j)) as [<-|Hne].
  - by rewrite lookup_insert_eq, lookup_alter_eq, Hi.
  - by rewrite lookup_insert_ne, lookup_alter_ne.
Qed.

Lemma with_nodes_same state : with_nodes (nodes state) state = state.
Proof. by destruct state. Qed.

Lemma toggleExpand_alter i state :
  toggleExpand i state = with_nodes (alter flipped i (nodes state)) state.
Proof.
  unfold toggleExpand. destruct (nodes state !! i) as [n|] eqn:Hi.
  - cbn zeta. by rewrite <- (insert_as_alter flipped _ i n Hi).
  - rewrite alter_id; [by rewrite with_nodes_same|]. intros n. by rewrite Hi.
Qed.

Lemma resizeNode_alter i w' h' state :
  resizeNode i w' h' state = with_nodes (alter (sized w' h') i (nodes state)) state.
Proof.
  unfold resizeNode. destruct (nodes state !! i) as [n|] eqn:Hi.
  - by rewrite <- (insert_as_alter (sized w' h') _ i n Hi).
  - rewrite alter_id; [by rewrite with_nodes_same|]. intros n. by rewrite Hi.
Qed.

Lemma alter_alter_comm {A} (f g : A → A) (m : gmap string A) i j :
  (∀ a, f (g a) = g (f a)) → alter f i (alter g j m) = alter g j (alter f i m).
Proof.
  intros Hfg. destruct (decide (i = j)) as [->|Hne].
  - rewrite !alter_alter_eq. apply alter_ext. intros a _. apply Hfg.
  - by apply alter_alter_ne.
Qed.

(** X1. toggleExpand applied twice to the same id gives back the document,
    whether the id is present or not. *)
Theorem toggleExpand_twice (i : string) (state : GraphState) :
  toggleExpand i (toggleExpand i state) = state.
Proof.
  rewrite !toggleExpand_alter. unfold with_nodes at 1 2. cbn [nodes rootId].
  rewrite alter_alter_eq, alter_id; [by destruct state|].
  intros n _. by destruct n as [? ? ? ? ? ? ? []].
Qed.

(** X2. Of two resizeNode calls on the same id the later one decides: the
    document is the one the later call alone gives. *)
Theorem resizeNode_last_wins (i : string) (w1 h1 w2 h2 : number) (state : GraphState) :
  resizeNode i w2 h2 (resizeNode i w1 h1 state) = resizeNode i w2 h2 state.
Proof.
  rewrite !resizeNode_alter. unfold with_nodes. cbn [nodes rootId].
  f_equal. rewrite alter_alter_eq. by apply alter_ext.
Qed.

(** X3. toggleExpand and resizeNode commute, on the same id as on two. *)
Theorem toggleExpand_resizeNode_commute (i j : string) (w' h' : number)
    (state : GraphState) :
  toggleExpand i (resizeNode j w' h' state) = resizeNode j w' h' (toggleExpand i state).
Proof.
  rewrite !toggleExpand_alter, !resizeNode_alter. unfold with_nodes. cbn [nodes rootId].
  f_equal. by apply alter_alter_comm.
Qed.

Section MoveCompose.
Context (dx dy : number) (f : BaseNode → BaseNode).
Context (Hshape : ∀ n, shape (f n) = shape n).
Context (Hcomm : ∀ n, f (translate dx dy n) = translate dx dy (f n)).

Lemma sameShape_altered m j : sameShape (alter f j m) m.
Proof.
  intros k. destruct (decide (j = k)) as [->|Hne].
  - rewrite lookup_alter_eq. destruct (m !! k); cbn; [|done]. by rewrite Hshape.
  - by rewrite lookup_alter_ne.
Qed.

Lemma applyTrace_altered j t : ∀ st,
  applyTrace dx dy (alter f j st) t = alter f j (applyTrace dx dy st t).
Proof.
  induction t as [|k t IH]; intros st; [done|].
  cbn [applyTrace foldl]. change (foldl _ ?s t) with (applyTrace dx dy s t).
  rewrite <- IH. f_equal. apply alter_alter_comm. intros n. symmetry. apply Hcomm.
Qed.

(** The cascade does not read what [f] writes. *)
Lemma moveNode_altered fuel i j state :
  moveNode fuel i dx dy (with_nodes (alter f j (nodes state)) state)
  = (λ s, with_nodes (alter f j (nodes s)) s) <$> moveNode fuel i dx dy state.
Proof.
  destruct (nodes state !! i) as [n|] eqn:Hi.
  - assert (alter f j (nodes state) !! i
            = Some (if decide (j = i) then f n else n)) as Hi'.
    { case_decide as Hji.
      - subst j. by rewrite lookup_alter_eq, Hi.
      - by rewrite lookup_alter_ne, Hi. }
    rewrite (moveNode_visits dx dy fuel
               (with_nodes (alter f j (nodes state)) state) i _ Hi').
    rewrite (moveNode_visits dx dy fuel state i n Hi).
    cbn [nodes with_nodes rootId].
    rewrite (visits_sameShape fuel _ (nodes state) _ n (sameShape_altered _ j)).
    2:{ case_decide; [|done]. pose proof (Hshape n) as Hs. by injection Hs. }
    destruct (visits fuel (nodes state) n) as [t|]; [|done]. cbn.
    unfold with_nodes. cbn [nodes rootId]. do 2 f_equal.
    rewrite <- applyTrace_altered. f_equal.
    apply map_eq. intros k. destruct (decide (i = k)) as [<-|Hik].
    + rewrite lookup_insert_eq. case_decide as Hji.
      * subst j. rewrite lookup_alter_eq, lookup_insert_eq. cbn. by rewrite Hcomm.
      * by rewrite lookup_alter_ne, lookup_insert_eq.
    + rewrite lookup_insert_ne by done.
      destruct (decide (j = k)) as [<-|Hjk].
      * by rewrite !lookup_alter_eq, lookup_insert_ne.
      * by rewrite !lookup_alter_ne, lookup_insert_ne.
  - unfold moveNode. cbn [nodes with_nodes].
    assert (alter f j (nodes state) !! i = None) as ->.
    { destruct (decide (j = i)) as [->|Hne].
      - by rewrite lookup_alter_eq, Hi.
      - by rewrite lookup_alter_ne. }
    rewrite Hi. by destruct (inherited i).
Qed.

End MoveCompose.

(** X4. moveNode commutes with toggleExpand and with resizeNode, on any
    ids and any document: the cascade reads neither [expanded] nor [size],
    so a collapsed node and its attached descendants move like expanded
    ones, and a move returns after the other call exactly when it returns
    before it. *)
Theorem moveNode_commutes (fuel : nat) (i j : string) (dx dy w' h' : number)
    (state : GraphState) :
  moveNode fuel i dx dy (toggleExpand j state)
  = toggleExpand j <$> moveNode fuel i dx dy state
  ∧ moveNode fuel i dx dy (resizeNode j w' h' state)
    = resizeNode j w' h' <$> moveNode fuel i dx dy state.
Proof.
  split.
  - rewrite toggleExpand_alter, (moveNode_altered dx dy flipped) by done.
    destruct (moveNode fuel i dx dy state) as [s|]; [|done]. cbn.
    by rewrite toggleExpand_alter.
  - rewrite resizeNode_alter, (moveNode_altered dx dy (sized w' h')) by done.
    destruct (moveNode fuel i dx dy state) as [s|]; [|done]. cbn.
    by rewrite resizeNode_alter.
Qed.

(** ** What moveNode leaves alone *)

(** [n'] is [n] but for its position. *)
Definition movedOnly (n n' : BaseNode) : Prop := n' = set_pos (pos n') n.

(** Two stores have the same keys, and at each key nodes that differ in
    position only. *)
Definition positionsOnly (m m' : gmap string BaseNode) : Prop :=
  ∀ k, match m !! k, m' !! k with
       | Some n, Some n' => movedOnly n n'
       | None, None => True
       | _, _ => False
       end.

Lemma positionsOnly_refl m : positionsOnly m m.
Proof. intros k. destruct (m !! k) as [n|]; [|done]. by destruct n. Qed.

Lemma positionsOnly_alter dx dy m m' k :
  positionsOnly m m' → positionsOnly m (alter (translate dx dy) k m').
Proof.
  intros H j. specialize (H j). destruct (decide (k = j)) as [->|Hne].
  - rewrite lookup_alter_eq. destruct (m !! j) as [n|], (m' !! j) as [n'|]; cbn; try done.
    unfold movedOnly in *. rewrite H. done.
  - by rewrite lookup_alter_ne.
Qed.

Lemma positionsOnly_applyTrace dx dy m t : ∀ m',
  positionsOnly m m' → positionsOnly m (applyTrace dx dy m' t).
Proof.
  induction t as [|k t IH]; intros m' H; [done|].
  cbn [applyTrace foldl]. apply IH. by apply positionsOnly_alter.
Qed.

Lemma moveNode_positionsOnly fuel i dx dy state state' :
  moveNode fuel i dx dy state = Some state' →
  positionsOnly (nodes state) (nodes state').
Proof.
  destruct (nodes state !! i) as [n|] eqn:Hi.
  - rewrite (moveNode_visits dx dy fuel state i n Hi).
    destruct (visits fuel (nodes state) n) as [t|]; [|done].
    intros [= <-]. cbn [nodes with_nodes].
    apply positionsOnly_applyTrace.
    rewrite (insert_as_alter (translate dx dy) _ i n Hi).
    apply positionsOnly_alter, positionsOnly_refl.
  - unfold moveNode. rewrite Hi. destruct (inherited i); [done|].
    intros [= <-]. apply positionsOnly_refl.
Qed.

(** X5. On any document, well-formed or not, a moveNode call that returns
    has changed positions only: the keys and rootId are the same, and every
    node has its id, kind, title, body, size, headerHeight, expanded,
    attachedToParent, relativeOffset, parentId and childIds as before; in
    particular relativeOffset is never brought up to date. *)
Theorem moveNode_changes_positions_only (fuel : nat) (i : string) (dx dy : number)
    (state state' : GraphState) :
  moveNode fuel i dx dy state = Some state' →
  rootId state' = rootId state
  ∧ ∀ k, match nodes state !! k, nodes state' !! k with
         | Some n, Some n' => n' = set_pos (pos n') n
         | None, None => True
         | _, _ => False
         end.
Proof.
  intros Hmove. split.
  - unfold moveNode in Hmove. destruct (nodes state !! i).
    + destruct (moveChildren _ _ _ _ _); [|done]. by injection Hmove as <-.
    + destruct (inherited i); [done|]. by injection Hmove as <-.
  - apply (moveNode_positionsOnly fuel i dx dy), Hmove.
Qed.

Lemma moveNode_changes_positions_only_witness :
  ∃ state',
    moveNode 3 "N" 5 7 chainDoc = Some state'
    ∧ rootId state' = rootId chainDoc
    ∧ ∀ k, match nodes chainDoc !! k, nodes state' !! k with
           | Some n, Some n' => n' = set_pos (pos n') n
           | None, None => True
           | _, _ => False
           end.
Proof.
  eexists. split; [vm_compute; reflexivity|].
  apply (moveNode_changes_positions_only 3 "N" 5 7 chainDoc).
  vm_compute. reflexivity.
Defined.

(** X6. When every id in the childIds of the moved node is missing from
    nodes or names a detached node, moveNode moves that node alone and
    returns at once, whatever the rest of the document is: missing ids are
    skipped, and what lies below a detached child is not looked at. *)
Theorem moveNode_no_attached_child (i : string) (n : BaseNode) (dx dy : number)
    (state : GraphState) (fuel : nat) :
  nodes state !! i = Some n →
  (∀ c cn, c ∈ childIds n → nodes state !! c = Some cn → attachedToParent cn = false) →
  moveNode (S fuel) i dx dy state
  = Some (with_nodes (<[i := translate dx dy n]> (nodes state)) state).
Proof.
  intros Hi Hkids. unfold moveNode. rewrite Hi. cbn zeta.
  set (st := <[i := translate dx dy n]> (nodes state)).
  assert (moveChildren (S fuel) dx dy (translate dx dy n) st = Some st) as ->; [|done].
  cbn [moveChildren]. change (childIds (translate dx dy n)) with (childIds n).
  assert (∀ c cn, c ∈ childIds n → st !! c = Some cn → attachedToParent cn = false) as Hst.
  { intros c cn Hc. unfold st. destruct (decide (i = c)) as [<-|Hne].
    - rewrite lookup_insert_eq. intros [= <-]. by apply (Hkids i n).
    - rewrite lookup_insert_ne by done. by apply Hkids. }
  clear Hkids. induction (childIds n) as [|c rest IH]; [done|].
  cbn [foldl]. unfold moveChild at 2.
  destruct (st !! c) as [cn|] eqn:Hc.
  - rewrite (Hst c cn) by (done || by left). apply IH.
    intros c' cn' Hc'. apply Hst. by right.
  - apply IH. intros c' cn' Hc'. apply Hst. by right.
Qed.

Lemma moveNode_no_attached_child_witness :
  moveNode 1 "A" 5 7 danglingDoc
  = Some (with_nodes (<["A" := translate 5 7 (sampleNode "A" act 0 0 false None ["ghost"; "B"])]>
                        (nodes danglingDoc)) danglingDoc).
Proof.
  apply (moveNode_no_attached_child "A" _ 5 7 danglingDoc 0).
  - vm_compute. reflexivity.
  - intros c cn Hc Hl. cbn in Hc.
    repeat (apply elem_of_cons in Hc as [->|Hc]); [..|by apply elem_of_nil in Hc].
    + vm_compute in Hl. discriminate Hl.
    + vm_compute in Hl. by injection Hl as <-.
Defined.

(** * canvas/Stage.tsx: the pointer handlers *)

(** A call of a store action, as a handler issues it. *)
Inductive Action :=
  | CallToggle (i : string)
  | CallMove (i : string) (dx dy : number)
  | CallResize (i : string) (w' h' : number).

Definition target (a : Action) : string :=
  match a with
  | CallToggle i | CallMove i _ _ | CallResize i _ _ => i
  end.

Definition perform (fuel : nat) (a : Action) (state : GraphState) : option GraphState :=
  match a with
  | CallToggle i => Some (toggleExpand i state)
  | CallMove i dx dy => moveNode fuel i dx dy state
  | CallResize i w' h' => Some (resizeNode i w' h' state)
  end.

Definition performAll (fuel : nat) (acts : list Action) (state : GraphState)
    : option GraphState :=
  foldl (λ acc a, acc ≫= perform fuel a) (Some state) acts.

Definition zIndexFor (k : NodeKind) : number :=
  match k with
  | act => 0
  | sequence => 1
  | step => 2
  | beat => 4
  end.

(** [Math.max] of two numbers: NaN when one of them is NaN, and +0 for the
    two zeros. *)
Definition Math_max (a b : number) : number :=
  if PrimFloat.is_nan a || PrimFloat.is_nan b then nan
  else if (a <? b)%float then b
  else if (b <? a)%float then a
  else if PrimFloat.get_sign a then b else a.

(** The state of one NodeView with its Header: the state [dragging] and the
    refs [downRef] and [movedRef] of Header, the state [dragBase] of
    NodeView. A handler reads the state as the handlers before it left it:
    the component has rendered again between two pointer events. *)
Record ViewState := {
  dragging : bool;
  downRef : option Point;
  movedRef : bool;
  dragBase : option Point
}.

Definition initialView : ViewState :=
  {| dragging := false; downRef := None; movedRef := false; dragBase := None |}.

(** Header's [onMouseDown], with NodeView's [onDragStart]. *)
Definition onMouseDown (p : Point) (v : ViewState) : ViewState * list Action :=
  ({| dragging := true; downRef := Some p; movedRef := false; dragBase := Some p |}, []).

(** NodeView's [onDragMove]. *)
Definition onDragMove (n : BaseNode) (p : Point) (v : ViewState)
    : ViewState * list Action :=
  match dragBase v with
  | None => (v, [])
  | Some b =>
      let dx := (x p - x b)%float in
      let dy := (y p - y b)%float in
      ({| dragging := dragging v; downRef := downRef v; movedRef := movedRef v;
          dragBase := Some p |},
       [CallMove (id n) dx dy])
  end.

(** [Math.abs(dx) > 3 || Math.abs(dy) > 3] for the pointer at [p] and the
    point [d] of the press. *)
Definition beyond (d p : Point) : bool :=
  (3 <? PrimFloat.abs (x p - x d))%float || (3 <? PrimFloat.abs (y p - y d))%float.

(** Header's [onMouseMove]. *)
Definition onMouseMove (n : BaseNode) (p : Point) (v : ViewState)
    : ViewState * list Action :=
  if negb (dragging v) then (v, [])
  else match downRef v with
       | None => (v, [])
       | Some d =>
           let moved := if negb (movedRef v) && beyond d p then true else movedRef v in
           onDragMove n p {| dragging := dragging v; downRef := downRef v;
                             movedRef := moved; dragBase := dragBase v |}
       end.

(** Header's [onMouseUp], with NodeView's [onDragEnd]. *)
Definition onMouseUp (n : BaseNode) (v : ViewState) : ViewState * list Action :=
  ({| dragging := false; downRef := None; movedRef := false; dragBase := dragBase v |},
   if movedRef v then [] else [CallToggle (id n)]).

Inductive MouseEvent :=
  | MouseDown (p : Point)
  | MouseMove (p : Point)
  | MouseUp.

Definition Header (n : BaseNode) (ev : MouseEvent) (v : ViewState)
    : ViewState * list Action :=
  match ev with
  | MouseDown p => onMouseDown p v
  | MouseMove p => onMouseMove n p v
  | MouseUp => onMouseUp n v
  end.

(** The handlers of Header run on a sequence of events, with the calls they
    issue in order. *)
Fixpoint gesture (n : BaseNode) (evs : list MouseEvent) (v : ViewState)
    : ViewState * list Action :=
  match evs with
  | [] => (v, [])
  | ev :: rest =>
      let (v1, acts1) := Header n ev v in
      let (v2, acts2) := gesture n rest v1 in
      (v2, acts1 ++ acts2)
  end.

(** The moves of a drag through the points [ps] that starts at [b]: each by
    the step from the point before. *)
Fixpoint steps (i : string) (b : Point) (ps : list Point) : list Action :=
  match ps with
  | [] => []
  | p :: rest => CallMove i (x p - x b) (y p - y b) :: steps i p rest
  end.

(** What a NodeView handles, one constructor for each dispatch of a
    pointer event by Konva. [OnHeader]: a press, a move or a release on the
    Header, on its bar, its title or its triangle (what happens on a shape
    bubbles to the Header's Group). [TriangleClick]: a release on the
    triangle that Konva counts as a click, the press having been on the
    triangle too; in this one dispatch the release is reported to the
    Header first and the click to the triangle after it. Whether a release
    counts as a click is Konva's bookkeeping: the canvas below admits the
    dispatch at any time. [HandleDragMove]: a drag of the resize handle
    to [p]. *)
Inductive ViewEvent :=
  | OnHeader (ev : MouseEvent)
  | TriangleClick
  | HandleDragMove (p : Point).

(** [n.kind === 'act' || n.expanded] *)
Definition visible (n : BaseNode) : bool := bool_decide (kind n = act) || expanded n.

(** The resize handle's [onDragMove]. *)
Definition onHandleDragMove (n : BaseNode) (p : Point) : Action :=
  CallResize (id n) (Math_max 120 (x p + 8)) (Math_max 80 (y p + 8)).

(** One dispatch on the NodeView rendered for [n]. The outer Group is
    given [listening={visible}]: a Group that does not listen when the
    dispatch begins passes it to none of its Header, triangle or handle.
    A dispatch that has begun runs all its handlers: the click on the
    triangle is handled after the release even when the release has just
    collapsed the node. The body with the handle is rendered when
    [n.expanded]. *)
Definition NodeView (n : BaseNode) (ev : ViewEvent) (v : ViewState)
    : ViewState * list Action :=
  if visible n then
    match ev with
    | OnHeader e => Header n e v
    | TriangleClick =>
        let (v', acts) := onMouseUp n v in
        (v', acts ++ [CallToggle (id n)])
    | HandleDragMove p => if expanded n then (v, [onHandleDragMove n p]) else (v, [])
    end
  else (v, []).

(** The canvas: the store, and the state of the views, by React key
    [n.id]. CanvasStage renders one NodeView for each value of [nodes]. *)
Record Canvas := {
  store : GraphState;
  views : gmap string ViewState
}.

Definition viewOf (c : Canvas) (i : string) : ViewState :=
  default initialView (views c !! i).

(** One dispatch on the view of the node at key [k], rendered from the
    store as the dispatches before it left it. *)
Definition deliver (fuel : nat) (k : string) (ev : ViewEvent) (c : Canvas)
    : option Canvas :=
  match nodes (store c) !! k with
  | None => Some c
  | Some n =>
      let (v', acts) := NodeView n ev (viewOf c (id n)) in
      s' ← performAll fuel acts (store c);
      Some {| store := s'; views := <[id n := v']> (views c) |}
  end.

Definition run (fuel : nat) (evs : list (string * ViewEvent)) (c : Canvas)
    : option Canvas :=
  foldl (λ acc kev, acc ≫= deliver fuel kev.1 kev.2) (Some c) evs.

(** Every key holds the node of that id. *)
Definition keysAreIds (m : gmap string BaseNode) : Prop :=
  map_Forall (λ k n, id n = k) m.

(** ** A press, a drag and a release on a header *)

Lemma gesture_app n evs1 evs2 v :
  gesture n (evs1 ++ evs2) v
  = let (v1, acts1) := gesture n evs1 v in
    let (v2, acts2) := gesture n evs2 v1 in
    (v2, acts1 ++ acts2).
Proof.
  revert v. induction evs1 as [|ev evs1 IH]; intros v; cbn [gesture app].
  - by destruct (gesture n evs2 v).
  - destruct (Header n ev v) as [v1 acts1]. rewrite IH.
    destruct (gesture n evs1 v1) as [v2 acts2].
    destruct (gesture n evs2 v2) as [v3 acts3]. by rewrite app_assoc.
Qed.



Lemma gesture_idle n ps v :
  dragging v = false → gesture n (MouseMove <$> ps) v = (v, []).
Proof.
  intros Hv. induction ps as [|p ps IH]; [done|].
  cbn [fmap list_fmap gesture Header]. unfold onMouseMove. rewrite Hv. cbn [negb].
  change (list_fmap _ _ MouseMove ps) with (MouseMove <$> ps). by rewrite IH.
Qed.

Lemma gesture_released n evs v :
  dragging (gesture n (evs ++ [MouseUp]) v).1 = false.
Proof.
  rewrite gesture_app. destruct (gesture n evs v) as [v1 acts1]. done.
Qed.

(** X8. Pointer moves over a header whose button is not down issue no call
    and leave the view as it is: before the first press, and after any
    release until the next press. A release with no press before it (the
    button went down elsewhere) toggles the node. *)
Theorem moves_without_press (n : BaseNode) (ps : list Point) (evs : list MouseEvent)
    (v : ViewState) :
  gesture n (MouseMove <$> ps) initialView = (initialView, [])
  ∧ gesture n ((evs ++ [MouseUp]) ++ (MouseMove <$> ps)) v
    = gesture n (evs ++ [MouseUp]) v
  ∧ gesture n [MouseUp] initialView = (initialView, [CallToggle (id n)]).
Proof.
  split_and!.
  - by apply gesture_idle.
  - rewrite (gesture_app n (evs ++ [MouseUp])).
    pose proof (gesture_released n evs v) as Hup.
    destruct (gesture n (evs ++ [MouseUp]) v) as [v1 acts1]. cbn [fst] in Hup.
    rewrite (gesture_idle n ps v1 Hup). by rewrite app_nil_r.
  - reflexivity.
Qed.

(** ** The floor of the resize handle *)

Lemma SFcompare_antisym (a b : spec_float) :
  SFcompare b a = CompOpp <$> SFcompare a b.
Proof.
  destruct a as [sa|sa| |sa ma ea], b as [sb|sb| |sb mb eb];
    repeat match goal with s : bool |- _ => destruct s end; cbn; try done;
    f_equal; rewrite (Z.compare_antisym ea eb); destruct (ea ?= eb)%Z; cbn; try done;
    by rewrite (Pos.compare_cont_antisym ma mb Eq).
Qed.

Lemma ltb_asym (a b : number) : (a <? b)%float = true → (b <? a)%float = false.
Proof.
  rewrite !ltb_spec. unfold SFltb. rewrite (SFcompare_antisym (Prim2SF a) (Prim2SF b)).
  by destruct (SFcompare (Prim2SF a) (Prim2SF b)) as [[]|].
Qed.

Lemma ltb_leb (a b : number) : (a <? b)%float = true → (a <=? b)%float = true.
Proof.
  rewrite ltb_spec, leb_spec. unfold SFltb, SFleb.
  by destruct (SFcompare (Prim2SF a) (Prim2SF b)) as [[]|].
Qed.

(** [Math.max(floor, v)] for a floor that is a positive number. *)
Lemma Math_max_floor (floor v : number) :
  PrimFloat.is_nan floor = false → PrimFloat.get_sign floor = false →
  (floor <? floor)%float = false → (floor <=? floor)%float = true →
  (Math_max floor v <? floor)%float = false
  ∧ (PrimFloat.is_nan v = false →
     (floor <=? Math_max floor v)%float = true
     ∧ ((floor <? v)%float = true → Math_max floor v = v)
     ∧ ((v <? floor)%float = true → Math_max floor v = floor)).
Proof.
  intros Hnan Hsign Hlt Hle. unfold Math_max. rewrite Hnan, Hsign. cbn [orb].
  destruct (PrimFloat.is_nan v) eqn:Hv.
  { split; [|done]. rewrite ltb_spec. unfold SFltb.
    assert (Prim2SF nan = S754_nan) as -> by reflexivity. done. }
  destruct (floor <? v)%float eqn:Hfv.
  - split; [by apply ltb_asym|]. intros _. split_and!; [by apply ltb_leb|done|].
    intros Hvf. apply ltb_asym in Hvf. congruence.
  - split; [by destruct (v <? floor)%float|]. intros _.
    split_and!; [by destruct (v <? floor)%float|done|by destruct (v <? floor)%float].
Qed.

(** X9. A drag of the resize handle of an expanded node calls
    resizeNode(id, w, h) with w = Math.max(120, p.x + 8) and
    h = Math.max(80, p.y + 8): the size that the store then holds is never
    below 120 by 80. When p.x + 8 is a number (not NaN), w is at least 120,
    it is p.x + 8 when that is above 120 and 120 when that is below; the same
    for h and 80. The floor is the handler's: resizeNode itself has none. *)
Theorem resize_handle_floor (state : GraphState) (n : BaseNode) (p : Point)
    (v : ViewState) :
  nodes state !! id n = Some n → expanded n = true →
  ∃ w' h',
    NodeView n (HandleDragMove p) v = (v, [CallResize (id n) w' h'])
    ∧ size <$> nodes (resizeNode (id n) w' h' state) !! id n = Some {| w := w'; h := h' |}
    ∧ (w' <? 120)%float = false ∧ (h' <? 80)%float = false
    ∧ (PrimFloat.is_nan (x p + 8) = false →
       (120 <=? w')%float = true
       ∧ ((120 <? x p + 8)%float = true → w' = (x p + 8)%float)
       ∧ ((x p + 8 <? 120)%float = true → w' = 120%float))
    ∧ (PrimFloat.is_nan (y p + 8) = false →
       (80 <=? h')%float = true
       ∧ ((80 <? y p + 8)%float = true → h' = (y p + 8)%float)
       ∧ ((y p + 8 <? 80)%float = true → h' = 80%float)).
Proof.
  intros Hn Hexp.
  exists (Math_max 120 (x p + 8)), (Math_max 80 (y p + 8)).
  destruct (Math_max_floor 120 (x p + 8)) as [Hw1 Hw2]; [reflexivity..|].
  destruct (Math_max_floor 80 (y p + 8)) as [Hh1 Hh2]; [reflexivity..|].
  split_and!; try done.
  - unfold NodeView, visible. rewrite Hexp, orb_true_r. done.
  - unfold resizeNode. rewrite Hn. cbn [nodes with_nodes].
    by rewrite lookup_insert_eq.
Qed.

Lemma resize_handle_floor_witness :
  ∃ w' h',
    NodeView (sampleNode "C1" sequence 10 40 true (Some "N") ["C2"])
      (HandleDragMove {| x := 30; y := 500 |}) initialView
    = (initialView, [CallResize "C1" w' h'])
    ∧ size <$> nodes (resizeNode "C1" w' h' chainDoc) !! "C1" = Some {| w := w'; h := h' |}
    ∧ (w' <? 120)%float = false ∧ (h' <? 80)%float = false
    ∧ (PrimFloat.is_nan (30 + 8) = false →
       (120 <=? w')%float = true
       ∧ ((120 <? 30 + 8)%float = true → w' = (30 + 8)%float)
       ∧ ((30 + 8 <? 120)%float = true → w' = 120%float))
    ∧ (PrimFloat.is_nan (500 + 8) = false →
       (80 <=? h')%float = true
       ∧ ((80 <? 500 + 8)%float = true → h' = (500 + 8)%float)
       ∧ ((500 + 8 <? 80)%float = true → h' = 80%float)).
Proof.
  apply (resize_handle_floor chainDoc (sampleNode "C1" sequence 10 40 true (Some "N") ["C2"])
           {| x := 30; y := 500 |} initialView).
  - vm_compute. reflexivity.
  - reflexivity.
Defined.

(** ** What the canvas cannot undo *)

(** The node at [k] is collapsed and is not an Act. *)
Definition collapsedAt (k : string) (state : GraphState) : Prop :=
  ∃ n, nodes state !! k = Some n ∧ kind n ≠ act ∧ expanded n = false.

Lemma NodeView_target n ev v a : a ∈ (NodeView n ev v).2 → target a = id n.
Proof.
  unfold NodeView. destruct (visible n); [|by intros ?%elem_of_nil].
  destruct ev as [[p|p|]| |p]; cbn.
  - by intros ?%elem_of_nil.
  - unfold onMouseMove, onDragMove. destruct (negb (dragging v)); cbn;
      [by intros ?%elem_of_nil|].
    destruct (downRef v); cbn; [|by intros ?%elem_of_nil].
    destruct (dragBase v); cbn; [|by intros ?%elem_of_nil].
    by intros ->%list_elem_of_singleton.
  - destruct (movedRef v); [by intros ?%elem_of_nil|].
    by intros ->%list_elem_of_singleton.
  - destruct (movedRef v); cbn; intros Ha;
      repeat (apply elem_of_cons in Ha as [->|Ha]); try done;
      by apply elem_of_nil in Ha.
  - destruct (expanded n); [|by intros ?%elem_of_nil].
    by intros ->%list_elem_of_singleton.
Qed.

Lemma NodeView_collapsed n ev v :
  kind n ≠ act → expanded n = false → NodeView n ev v = (v, []).
Proof.
  intros Hk He. unfold NodeView, visible. rewrite He.
  by rewrite bool_decide_eq_false_2.
Qed.

Lemma keysAreIds_alter f k m :
  (∀ n, id (f n) = id n) → keysAreIds m → keysAreIds (alter f k m).
Proof.
  intros Hf Hm j n. destruct (decide (k = j)) as [->|Hne].
  - rewrite lookup_alter_eq. destruct (m !! j) as [n0|] eqn:Hj; [|done].
    intros [= <-]. rewrite Hf. by apply Hm.
  - rewrite lookup_alter_ne by done. apply Hm.
Qed.

Lemma collapsedAt_alter f j k state :
  j ≠ k → collapsedAt k state → collapsedAt k (with_nodes (alter f j (nodes state)) state).
Proof.
  intros Hne (n & Hn & Hk & He). exists n. cbn [nodes with_nodes].
  by rewrite lookup_alter_ne.
Qed.

(** A call on another node keeps [k] collapsed, and the keys the ids. *)
Lemma perform_keeps fuel a k state state' :
  target a ≠ k → keysAreIds (nodes state) → collapsedAt k state →
  perform fuel a state = Some state' →
  keysAreIds (nodes state') ∧ collapsedAt k state'.
Proof.
  intros Ht Hkeys Hcol. destruct a as [i|i dx dy|i w' h']; cbn in Ht |- *.
  - intros [= <-]. rewrite toggleExpand_alter. split.
    + by apply keysAreIds_alter.
    + by apply collapsedAt_alter.
  - intros Hmove. pose proof (moveNode_positionsOnly fuel i dx dy _ _ Hmove) as Hpos.
    split.
    + intros j n' Hj. specialize (Hpos j). rewrite Hj in Hpos.
      destruct (nodes state !! j) as [n|] eqn:Hn; [|done].
      unfold movedOnly in Hpos. rewrite Hpos. cbn. by apply (Hkeys j n).
    + destruct Hcol as (n & Hn & Hk & He). specialize (Hpos k). rewrite Hn in Hpos.
      destruct (nodes state' !! k) as [n'|] eqn:Hn'; [|done].
      exists n'. unfold movedOnly in Hpos.
      split_and!; [done|rewrite Hpos; exact Hk|rewrite Hpos; exact He].
  - intros [= <-]. rewrite resizeNode_alter. split.
    + by apply keysAreIds_alter.
    + by apply collapsedAt_alter.
Qed.

Lemma performAll_None fuel acts :
  foldl (λ acc a, acc ≫= perform fuel a) None acts = None.
Proof. by induction acts. Qed.

Lemma performAll_keeps fuel k acts : ∀ state state',
  Forall (λ a, target a ≠ k) acts → keysAreIds (nodes state) → collapsedAt k state →
  performAll fuel acts state = Some state' →
  keysAreIds (nodes state') ∧ collapsedAt k state'.
Proof.
  unfold performAll. induction acts as [|a acts IH]; intros state state' Hall Hkeys Hcol.
  - by intros [= <-].
  - apply Forall_cons in Hall as [Ha Hall]. cbn [foldl]. cbn [mbind option_bind].
    destruct (perform fuel a state) as [s1|] eqn:Hs1.
    + destruct (perform_keeps fuel a k state s1 Ha Hkeys Hcol Hs1) as [Hkeys1 Hcol1].
      by apply IH.
    + by rewrite performAll_None.
Qed.

Lemma deliver_keeps fuel k t ev c c' :
  keysAreIds (nodes (store c)) → collapsedAt k (store c) →
  deliver fuel t ev c = Some c' →
  keysAreIds (nodes (store c')) ∧ collapsedAt k (store c').
Proof.
  intros Hkeys Hcol. unfold deliver.
  destruct (nodes (store c) !! t) as [n|] eqn:Hn; [|by intros [= <-]].
  pose proof (Hkeys t n Hn) as Hid. cbn in Hid.
  destruct (decide (t = k)) as [->|Hne].
  - destruct Hcol as (n0 & Hn0 & Hk & He). rewrite Hn in Hn0. injection Hn0 as <-.
    rewrite (NodeView_collapsed n ev _ Hk He). cbn.
    intros [= <-]. cbn [store]. split; [done|]. by exists n.
  - pose proof (NodeView_target n ev (viewOf c (id n))) as Htarget.
    destruct (NodeView n ev (viewOf c (id n))) as [v' acts]. cbn [snd] in Htarget.
    destruct (performAll fuel acts (store c)) as [s'|] eqn:Hs'; [|done].
    cbn. intros [= <-]. cbn [store].
    apply (performAll_keeps fuel k acts (store c) s'); [|done..].
    apply Forall_forall. intros a Ha. rewrite (Htarget a Ha). congruence.
Qed.

Lemma run_None fuel evs :
  foldl (λ acc kev, acc ≫= deliver fuel kev.1 kev.2) None evs = None.
Proof. by induction evs. Qed.

(** X10. Collapsing a Sequence, a Step or a Beat cannot be undone from the
    canvas. In a document whose keys are the ids of their nodes, when a
    node that is not an Act has expanded = false as a dispatch begins, its
    NodeView does not listen, so no pointer event reaches its header,
    triangle or handle, and the dispatches on the other nodes call the
    store with other ids: after any sequence of dispatches on any nodes the
    node is still collapsed. (Within one dispatch a node can be collapsed
    and expanded again: a click on the triangle of an expanded node toggles
    it at the release and once more at the click.) *)
Theorem collapsed_stays_collapsed (fuel : nat) (evs : list (string * ViewEvent))
    (c c' : Canvas) (k : string) :
  keysAreIds (nodes (store c)) → collapsedAt k (store c) →
  run fuel evs c = Some c' →
  collapsedAt k (store c').
Proof.
  unfold run. revert c. induction evs as [|[t ev] evs IH]; intros c Hkeys Hcol.
  - by intros [= <-].
  - cbn [foldl fst snd]. cbn [mbind option_bind].
    destruct (deliver fuel t ev c) as [c1|] eqn:Hc1.
    + destruct (deliver_keeps fuel k t ev c c1 Hkeys Hcol Hc1) as [Hkeys1 Hcol1].
      by apply IH.
    + by rewrite run_None.
Qed.

(** The canvas on [chainDoc] after a click on the header of C1. *)
Definition collapsedCanvas : Canvas :=
  {| store := toggleExpand "C1" chainDoc; views := ∅ |}.

Definition sampleEvents : list (string * ViewEvent) :=
  [ ("C1", OnHeader (MouseDown {| x := 8; y := 50 |}));
    ("C1", TriangleClick);
    ("N", OnHeader (MouseDown {| x := 8; y := 10 |}));
    ("N", TriangleClick);
    ("C1", OnHeader (MouseDown {| x := 15; y := 45 |}));
    ("C1", OnHeader MouseUp);
    ("N", OnHeader (MouseDown {| x := 5; y := 5 |}));
    ("N", OnHeader (MouseMove {| x := 25; y := 5 |}));
    ("N", OnHeader MouseUp);
    ("C2", TriangleClick);
    ("C1", HandleDragMove {| x := 300; y := 300 |}) ].

(** A press and a release on the triangle of the expanded C1: the release
    toggles it and the click toggles it back. *)
Example triangle_click_toggles_twice :
  store <$> run 1 [ ("C1", OnHeader (MouseDown {| x := 18; y := 50 |}));
                    ("C1", TriangleClick) ]
              {| store := chainDoc; views := ∅ |}
  = Some chainDoc.
Proof. vm_compute. reflexivity. Qed.

Lemma collapsed_stays_collapsed_witness :
  ∃ c', run 3 sampleEvents collapsedCanvas = Some c' ∧ collapsedAt "C1" (store c').
Proof.
  eexists. split; [vm_compute; reflexivity|].
  apply (collapsed_stays_collapsed 3 sampleEvents collapsedCanvas).
  - apply (bool_decide_unpack _). vm_compute. exact I.
  - eexists. split_and!; [vm_compute; reflexivity|done..].
  - vm_compute. reflexivity.
Defined.

(** * The template: invariants and layout *)

(** The rectangle of [c] lies in the rectangle of [p], below its header. *)
Definition insideParent (p c : BaseNode) : bool :=
  (x (pos p) <=? x (pos c))%float
  && (x (pos c) + w (size c) <=? x (pos p) + w (size p))%float
  && (y (pos p) + headerHeight p <=? y (pos c))%float
  && (y (pos c) + h (size c) <=? y (pos p) + h (size p))%float.

(** Two rectangles that do not overlap: one ends where the other begins, or
    before it. *)
Definition apart (a b : BaseNode) : bool :=
  (x (pos a) + w (size a) <=? x (pos b))%float
  || (x (pos b) + w (size b) <=? x (pos a))%float
  || (y (pos a) + h (size a) <=? y (pos b))%float
  || (y (pos b) + h (size b) <=? y (pos a))%float.

Definition positiveSize (n : BaseNode) : bool :=
  (0 <? w (size n))%float && (0 <? h (size n))%float.

(** [c] is drawn above [p]. *)
Definition above (p c : BaseNode) : bool :=
  (zIndexFor (kind p) <? zIndexFor (kind c))%float.

(** The checks on the object at address [j] of the construction, against
    its parent and against the objects with the same parent. *)
Definition checksAt (H : list BaseNode) (j : nat) : bool :=
  positiveSize (H !!! j)
  && match parentAt j with
     | Some pj =>
         insideParent (H !!! pj) (H !!! j) && above (H !!! pj) (H !!! j)
         && bool_decide (is_Some (relativeOffset (H !!! j)))
     | None => bool_decide (relativeOffset (H !!! j) = None)
     end
  && forallb (λ j', bool_decide (j = j') || negb (bool_decide (parentAt j = parentAt j'))
                    || apart (H !!! j) (H !!! j')) (seq 0 43).

Lemma template_checks random36 :
  forallb (checksAt (heap (templateMem random36))) (seq 0 43) = true.
Proof. vm_compute. reflexivity. Qed.

Lemma initialGraph_nodes random36 :
  NoDup (drawnIds random36) →
  nodes (initialGraph random36)
  = list_to_map (zip (drawnId random36 <$> seq 0 43) (heap (templateMem random36))).
Proof.
  intros Hnd. rewrite initialGraph_unfold. cbn [nodes].
  etrans; [apply (foldl_insert_fmap fst (λ ka, heap (templateMem random36) !!! ka.2))|].
  rewrite template_nodesVar. apply foldl_insert_list_to_map.
  rewrite fst_zip; [exact Hnd|].
  rewrite length_fmap, length_seq.
  rewrite <- (length_fmap id), template_id, length_fmap, length_seq. reflexivity.
Qed.

Section TemplateLayout.
Context (I : nat → string) (H : list BaseNode) (m : gmap string BaseNode).
Context (Hdistinct : NoDup (I <$> seq 0 43)).
Context (Tid : id <$> H = I <$> seq 0 43).
Context (Tkind : kind <$> H = callKind <$> seq 0 43).
Context (Tkids : childIds <$> H = (λ j, I <$> kidsAt j) <$> seq 0 43).
Context (Tpar : parentId <$> H = (λ j, I <$> parentAt j) <$> seq 0 43).
Context (Tatt : attachedToParent <$> H = (λ j, bool_decide (j ≠ 0)) <$> seq 0 43).
Context (Tm : m = list_to_map (zip (I <$> seq 0 43) H)).
Context (Tchecks : forallb (checksAt H) (seq 0 43) = true).

Lemma template_checked j n :
  H !! j = Some n → j < 43 →
  positiveSize n = true
  ∧ match parentAt j with
    | Some pj => insideParent (H !!! pj) n = true ∧ above (H !!! pj) n = true
                 ∧ is_Some (relativeOffset n)
    | None => relativeOffset n = None
    end
  ∧ ∀ j' n', H !! j' = Some n' → j' < 43 → j ≠ j' → parentAt j = parentAt j' →
             apart n n' = true.
Proof.
  intros Hn Hj. pose proof Tchecks as Hall.
  rewrite forallb_forall in Hall.
  assert (In j (seq 0 43)) as Hin by (apply in_seq; lia).
  specialize (Hall j Hin).
  unfold checksAt in Hall. rewrite (list_lookup_total_correct H j n Hn) in Hall.
  apply andb_true_iff in Hall as [[Hpos Hpar]%andb_true_iff Hsib].
  split_and!; [done| |].
  - destruct (parentAt j) as [pj|].
    + apply andb_true_iff in Hpar as [[Hins Hab]%andb_true_iff Hrel].
      split_and!; [done..|]. by apply bool_decide_eq_true in Hrel.
    + by apply bool_decide_eq_true in Hpar.
  - intros j' n' Hn' Hj' Hne Hsame.
    rewrite forallb_forall in Hsib.
    assert (In j' (seq 0 43)) as Hin' by (apply in_seq; lia).
    specialize (Hsib j' Hin').
    rewrite (list_lookup_total_correct H j' n' Hn') in Hsib.
    rewrite (bool_decide_eq_false_2 (j = j')) in Hsib by done.
    rewrite (bool_decide_eq_true_2 (parentAt j = parentAt j')) in Hsib by done.
    exact Hsib.
Qed.

(** A node of the document with its parent, by address. *)
Lemma template_with_parent k n p pn :
  m !! k = Some n → parentId n = Some p → m !! p = Some pn →
  ∃ j pj, j < 43 ∧ pj < 43 ∧ H !! j = Some n ∧ H !! pj = Some pn
          ∧ parentAt j = Some pj.
Proof.
  intros Hk Hp Hpn.
  apply (template_lookup I H m Hdistinct Tid Tm) in Hk as (j & Hj & -> & Hn).
  destruct (template_node I H Tid Tkind Tkids Tpar Tatt j n Hn)
    as (_ & _ & _ & _ & Hpar & _).
  rewrite Hp in Hpar. destruct (parentAt j) as [pj|] eqn:Hpj; [|done].
  injection Hpar as ->.
  destruct (parentAt_spec j pj Hj Hpj) as [Hlt _].
  exists j, pj. split_and!; [done|lia|done| |done].
  apply (template_lookup_at I H m Hdistinct Tid Tm); [lia|done].
Qed.

Lemma template_keysAreIds : keysAreIds m.
Proof.
  intros k n Hk.
  apply (template_lookup I H m Hdistinct Tid Tm) in Hk as (j & Hj & -> & Hn).
  by destruct (template_node I H Tid Tkind Tkids Tpar Tatt j n Hn) as (_ & -> & _).
Qed.

Lemma template_root :
  ∃ a, m !! I 0 = Some a ∧ kind a = act ∧ parentId a = None.
Proof.
  destruct (template_at I H m Hdistinct Tid Tm 0) as (a & Ha & Hma); [lia|].
  exists a. split; [done|].
  by destruct (template_node I H Tid Tkind Tkids Tpar Tatt 0 a Ha)
    as (_ & _ & -> & _ & -> & _).
Qed.

Lemma template_parent_lists k n :
  m !! k = Some n → k ≠ I 0 →
  ∃ p pn, parentId n = Some p ∧ m !! p = Some pn ∧ k ∈ childIds pn.
Proof.
  intros Hk Hne.
  apply (template_lookup I H m Hdistinct Tid Tm) in Hk as (j & Hj & -> & Hn).
  destruct (template_node I H Tid Tkind Tkids Tpar Tatt j n Hn)
    as (_ & _ & _ & _ & Hpar & _).
  destruct (parentAt j) as [pj|] eqn:Hpj.
  - destruct (parentAt_spec j pj Hj Hpj) as [Hlt Hin].
    destruct (template_at I H m Hdistinct Tid Tm pj) as (pn & Hpn & Hmp); [lia|].
    exists (I pj), pn. split_and!; [done..|].
    destruct (template_node I H Tid Tkind Tkids Tpar Tatt pj pn Hpn)
      as (_ & _ & _ & -> & _).
    by apply list_elem_of_fmap_2.
  - apply parentAt_None in Hpj; [|done]. by subst j.
Qed.

Lemma template_children_exist k n c :
  m !! k = Some n → c ∈ childIds n → is_Some (m !! c).
Proof.
  intros Hk Hc.
  apply (template_lookup I H m Hdistinct Tid Tm) in Hk as (j & Hj & -> & Hn).
  destruct (template_node I H Tid Tkind Tkids Tpar Tatt j n Hn)
    as (_ & _ & _ & Hkids & _).
  rewrite Hkids in Hc. apply list_elem_of_fmap in Hc as (a & -> & Ha).
  destruct (kidsAt_spec j a Hj Ha) as (Ha43 & _).
  destruct (template_at I H m Hdistinct Tid Tm a Ha43) as (cn & _ & Hcn).
  by exists cn.
Qed.

Lemma template_offset_present k n :
  m !! k = Some n → is_Some (relativeOffset n) ↔ k ≠ I 0.
Proof.
  intros Hk.
  apply (template_lookup I H m Hdistinct Tid Tm) in Hk as (j & Hj & -> & Hn).
  destruct (template_checked j n Hn Hj) as (_ & Hpar & _).
  destruct (parentAt j) as [pj|] eqn:Hpj.
  - destruct Hpar as (_ & _ & Hrel). split; [|done]. intros _ Heq.
    apply (drawnId_inj I Hdistinct) in Heq; [|lia..]. subst j. done.
  - apply parentAt_None in Hpj; [|done]. subst j. rewrite Hpar. split; [|done].
    by intros [? ?].
Qed.

Lemma template_inside k n p pn :
  m !! k = Some n → parentId n = Some p → m !! p = Some pn →
  insideParent pn n = true ∧ above pn n = true.
Proof.
  intros Hk Hp Hpn.
  destruct (template_with_parent k n p pn Hk Hp Hpn)
    as (j & pj & Hj & Hpj & Hn & Hpn' & Hpar).
  destruct (template_checked j n Hn Hj) as (_ & Hc & _).
  rewrite Hpar, (list_lookup_total_correct H pj pn Hpn') in Hc.
  by destruct Hc as (? & ? & _).
Qed.

Lemma template_positive k n : m !! k = Some n → positiveSize n = true.
Proof.
  intros Hk.
  apply (template_lookup I H m Hdistinct Tid Tm) in Hk as (j & Hj & -> & Hn).
  by destruct (template_checked j n Hn Hj) as (? & _).
Qed.

Lemma template_apart k1 n1 k2 n2 :
  m !! k1 = Some n1 → m !! k2 = Some n2 → k1 ≠ k2 → parentId n1 = parentId n2 →
  apart n1 n2 = true.
Proof.
  intros Hk1 Hk2 Hne Hsame.
  apply (template_lookup I H m Hdistinct Tid Tm) in Hk1 as (j1 & Hj1 & -> & Hn1).
  apply (template_lookup I H m Hdistinct Tid Tm) in Hk2 as (j2 & Hj2 & -> & Hn2).
  destruct (template_node I H Tid Tkind Tkids Tpar Tatt j1 n1 Hn1)
    as (_ & _ & _ & _ & Hp1 & _).
  destruct (template_node I H Tid Tkind Tkids Tpar Tatt j2 n2 Hn2)
    as (_ & _ & _ & _ & Hp2 & _).
  destruct (template_checked j1 n1 Hn1 Hj1) as (_ & _ & Hsib).
  apply (Hsib j2 n2 Hn2 Hj2); [by intros ->|].
  rewrite Hp1, Hp2 in Hsame.
  destruct (parentAt j1) as [p1|] eqn:H1, (parentAt j2) as [p2|] eqn:H2;
    cbn in Hsame; try done.
  injection Hsame as Heq. f_equal.
  destruct (parentAt_spec j1 p1 Hj1 H1), (parentAt_spec j2 p2 Hj2 H2).
  apply (drawnId_inj I Hdistinct); [lia..|done].
Qed.

End TemplateLayout.

(** The document of [initialGraph] as the store [m] with root [I 0], and
    the facts about the heap [H] it was built in. *)
Ltac template_context random36 Hnd :=
  let Tm := fresh "Tm" in
  let Hroot := fresh "Hroot" in
  pose proof (initialGraph_nodes random36 Hnd) as Tm;
  assert (rootId (initialGraph random36) = drawnId random36 0) as Hroot
    by (rewrite initialGraph_unfold; apply template_rootId);
  pose proof (template_id random36) as Tid;
  pose proof (template_kind random36) as Tkind;
  pose proof (template_childIds random36) as Tkids;
  pose proof (template_parentId random36) as Tpar;
  pose proof (template_attached random36) as Tatt;
  pose proof (template_checks random36) as Tchecks;
  cbv zeta;
  generalize dependent (initialGraph random36); intros [m root];
  cbn [nodes rootId]; intros Tm ->;
  unfold drawnIds in Hnd;
  generalize dependent (heap (templateMem random36)); intros H;
  generalize dependent (drawnId random36); intros I; intros.

(** X11. When the 43 generated ids are pairwise different, the document
    that initialGraph builds satisfies the invariants of the data model: the
    hierarchy is tree-shaped (no duplicate child, parentId and childIds
    agree, no cycle), every key is the id of its node, rootId names an Act
    with no parent, every other node has a parent that exists and lists it,
    every listed child exists, and relativeOffset is present exactly on the
    nodes other than the root. *)
Theorem initialGraph_well_formed (random36 : nat → string) :
  NoDup (drawnIds random36) →
  let g := initialGraph random36 in
  treeShaped (nodes g)
  ∧ keysAreIds (nodes g)
  ∧ (∃ a, nodes g !! rootId g = Some a ∧ kind a = act ∧ parentId a = None)
  ∧ (∀ k n, nodes g !! k = Some n → k ≠ rootId g →
            ∃ p pn, parentId n = Some p ∧ nodes g !! p = Some pn ∧ k ∈ childIds pn)
  ∧ (∀ k n c, nodes g !! k = Some n → c ∈ childIds n → is_Some (nodes g !! c))
  ∧ (∀ k n, nodes g !! k = Some n → (is_Some (relativeOffset n) ↔ k ≠ rootId g)).
Proof.
  intros Hnd. template_context random36 Hnd. split_and!.
  - eapply template_treeShaped; eassumption.
  - eapply template_keysAreIds; eassumption.
  - eapply template_root; eassumption.
  - intros k n. eapply template_parent_lists; eassumption.
  - intros k n c. eapply template_children_exist; eassumption.
  - intros k n. eapply template_offset_present; eassumption.
Qed.

Lemma initialGraph_well_formed_witness :
  let g := initialGraph countingRandom36 in
  treeShaped (nodes g)
  ∧ keysAreIds (nodes g)
  ∧ (∃ a, nodes g !! rootId g = Some a ∧ kind a = act ∧ parentId a = None)
  ∧ (∀ k n, nodes g !! k = Some n → k ≠ rootId g →
            ∃ p pn, parentId n = Some p ∧ nodes g !! p = Some pn ∧ k ∈ childIds pn)
  ∧ (∀ k n c, nodes g !! k = Some n → c ∈ childIds n → is_Some (nodes g !! c))
  ∧ (∀ k n, nodes g !! k = Some n → (is_Some (relativeOffset n) ↔ k ≠ rootId g)).
Proof.
  apply (initialGraph_well_formed countingRandom36).
  apply (bool_decide_unpack _). vm_compute. exact I.
Defined.

(** X12. The layout of the template, when the 43 ids are pairwise
    different: every node has a positive width and height; the rectangle of
    every node with a parent lies within the rectangle of its parent and
    below the parent's header; and two nodes with the same parent do not
    overlap. *)
Theorem initialGraph_layout (random36 : nat → string) :
  NoDup (drawnIds random36) →
  let g := initialGraph random36 in
  (∀ k n, nodes g !! k = Some n → positiveSize n = true)
  ∧ (∀ k n p pn, nodes g !! k = Some n → parentId n = Some p → nodes g !! p = Some pn →
                 insideParent pn n = true)
  ∧ (∀ k1 n1 k2 n2, nodes g !! k1 = Some n1 → nodes g !! k2 = Some n2 → k1 ≠ k2 →
                    parentId n1 = parentId n2 → apart n1 n2 = true).
Proof.
  intros Hnd. template_context random36 Hnd. split_and!.
  - intros k n. eapply template_positive; eassumption.
  - intros k n p pn Hk Hp Hpn.
    eapply (template_inside I H m); eassumption.
  - intros k1 n1 k2 n2. eapply template_apart; eassumption.
Qed.

Lemma initialGraph_layout_witness :
  let g := initialGraph countingRandom36 in
  (∀ k n, nodes g !! k = Some n → positiveSize n = true)
  ∧ (∀ k n p pn, nodes g !! k = Some n → parentId n = Some p → nodes g !! p = Some pn →
                 insideParent pn n = true)
  ∧ (∀ k1 n1 k2 n2, nodes g !! k1 = Some n1 → nodes g !! k2 = Some n2 → k1 ≠ k2 →
                    parentId n1 = parentId n2 → apart n1 n2 = true).
Proof.
  apply (initialGraph_layout countingRandom36).
  apply (bool_decide_unpack _). vm_compute. exact I.
Defined.

(** X13. zIndexFor gives the four kinds four different layers, and in the
    template (43 different ids) every node is given a layer above the layer
    of its parent. *)
Theorem zIndexFor_above_parent (random36 : nat → string) :
  NoDup (drawnIds random36) →
  let g := initialGraph random36 in
  (∀ k1 k2, zIndexFor k1 = zIndexFor k2 → k1 = k2)
  ∧ (∀ k n p pn, nodes g !! k = Some n → parentId n = Some p → nodes g !! p = Some pn →
                 (zIndexFor (kind pn) <? zIndexFor (kind n))%float = true).
Proof.
  intros Hnd. template_context random36 Hnd. split.
  - intros k1 k2 Heq.
    pose proof (f_equal (PrimFloat.eqb (zIndexFor k1)) Heq) as Hb.
    destruct k1, k2; vm_compute in Hb; (done || discriminate Hb).
  - intros k n p pn Hk Hp Hpn.
    eapply (template_inside I H m); eassumption.
Qed.

Lemma zIndexFor_above_parent_witness :
  let g := initialGraph countingRandom36 in
  (∀ k1 k2, zIndexFor k1 = zIndexFor k2 → k1 = k2)
  ∧ (∀ k n p pn, nodes g !! k = Some n → parentId n = Some p → nodes g !! p = Some pn →
                 (zIndexFor (kind pn) <? zIndexFor (kind n))%float = true).
Proof.
  apply (zIndexFor_above_parent countingRandom36).
  apply (bool_decide_unpack _). vm_compute. exact I.
Defined.

(** * saveJSON and loadJSON on any state *)

(** What [loadJSON] reads back for a property that [saveJSON] wrote: a
    property that was [undefined] is not in the text, and reads as
    [undefined]; any other value reads as the value its text denotes. *)
Definition restored (v : JSValue) : JSValue :=
  match v with
  | JUndefined => JUndefined
  | _ => image v
  end.

Definition restoredState (s : RawState) : RawState :=
  {| rawNodes := restored (rawNodes s); rawRootId := restored (rawRootId s) |}.

(** A state with an infinite number, an [undefined] property and an
    [undefined] array element, and no rootId. *)
Definition lossyState : RawState :=
  {| rawNodes :=
       JObject [("A", JObject [("x", JNumber infinity); ("parentId", JUndefined);
                               ("kids", JArray [JUndefined; JNumber 5])])];
     rawRootId := JUndefined |}.

Lemma undefined_or_not (v : JSValue) : v = JUndefined ∨ v ≠ JUndefined.
Proof. destruct v; (by left) || (by right). Qed.

Section StoreMore.
Context (NumberToString : number → string) (StringToNumber : string → number).

Lemma str_image (v : JSValue) : ∀ ind,
  default "null" (str NumberToString ind (image v))
  = default "null" (str NumberToString ind v)
  ∧ (v ≠ JUndefined → str NumberToString ind (image v) = str NumberToString ind v).
Proof.
  induction v as [| |b|n|s|elements IH|props IH] using JSValue_nested_ind; intros ind;
    try done.
  - cbn [image]. destruct (PrimFloat.is_finite n) eqn:Hn; cbn [str]; by rewrite ?Hn.
  - assert (str NumberToString ind (image (JArray elements))
            = str NumberToString ind (JArray elements)) as Heq; [|by rewrite Heq].
    cbn [image str]. do 2 f_equal.
    induction IH as [|e l He Hl IHl]; [done|].
    cbn [fmap list_fmap] in *. rewrite IHl. f_equal. apply He.
  - assert (str NumberToString ind (image (JObject props))
            = str NumberToString ind (JObject props)) as Heq; [|by rewrite Heq].
    cbn [image str]. do 2 f_equal.
    induction IH as [|[k e] l He Hl IHl]; [done|].
    cbn [omap list_omap fst snd] in *.
    destruct (undefined_or_not e) as [->|Hne].
    + cbn. exact IHl.
    + destruct (He (ind + 2)) as [_ Hstr]. specialize (Hstr Hne).
      assert (match e with
              | JUndefined => None
              | _ => Some (k, image e)
              end = Some (k, image e)) as -> by by destruct e.
      cbn [omap list_omap fst snd]. rewrite Hstr.
      destruct (str NumberToString (ind + 2) e); cbn; by rewrite IHl.
Qed.

Lemma str_restored (v : JSValue) (ind : nat) :
  str NumberToString ind (restored v) = str NumberToString ind v.
Proof.
  destruct (undefined_or_not v) as [->|Hne]; [done|].
  destruct (str_image v ind) as [_ Hstr].
  replace (restored v) with (image v) by by destruct v.
  by apply Hstr.
Qed.

(** The value that [saveJSON] writes. *)
Definition saved (s : RawState) : JSValue :=
  JObject [("nodes", rawNodes s); ("rootId", rawRootId s)].

Lemma JSON_parse_saveJSON (s : RawState) :
  numbersOK NumberToString StringToNumber (rawNodes s) →
  numbersOK NumberToString StringToNumber (rawRootId s) →
  JSON_parse StringToNumber (saveJSON NumberToString s) = Some (image (saved s)).
Proof.
  intros Ha Hb. apply (JSON_parse_stringify NumberToString StringToNumber (saved s)).
  - cbn [saved numbersOK foldr snd]. done.
  - reflexivity.
Qed.

Lemma loadJSON_image (json : string) (s s0 : RawState) :
  JSON_parse StringToNumber json = Some (image (saved s)) →
  loadJSON StringToNumber json s0 = (restoredState s, None).
Proof.
  intros Hparse. unfold loadJSON, set, loadJSON_updater. rewrite Hparse.
  destruct s as [a b]. unfold saved, restoredState. cbn [rawNodes rawRootId].
  destruct a, b; reflexivity.
Qed.

(** X14. Loading the text that saveJSON wrote never fails, whatever the
    state was (a document of the declared type or not), when the finite
    numbers in it are written as numerals that read back. The state
    installed is the saved one with every NaN and infinity replaced by null,
    every [undefined] array element replaced by null and every [undefined]
    property left out; it does not depend on the state before the load. *)
Theorem loadJSON_saveJSON (s s0 : RawState) :
  numbersOK NumberToString StringToNumber (rawNodes s) →
  numbersOK NumberToString StringToNumber (rawRootId s) →
  loadJSON StringToNumber (saveJSON NumberToString s) s0 = (restoredState s, None).
Proof.
  intros Ha Hb. apply loadJSON_image. by apply JSON_parse_saveJSON.
Qed.

(** X15. Saving what was loaded from a saved text gives the same text, byte
    for byte, and loading it again gives the same state: what a first save
    and load lose (X14), further saves and loads do not lose again. *)
Theorem save_load_stable (s s0 s1 : RawState) :
  numbersOK NumberToString StringToNumber (rawNodes s) →
  numbersOK NumberToString StringToNumber (rawRootId s) →
  let s' := (loadJSON StringToNumber (saveJSON NumberToString s) s0).1 in
  saveJSON NumberToString s' = saveJSON NumberToString s
  ∧ loadJSON StringToNumber (saveJSON NumberToString s') s1 = (s', None).
Proof.
  intros Ha Hb. cbv zeta.
  pose proof (JSON_parse_saveJSON s Ha Hb) as Hparse.
  rewrite (loadJSON_image _ s s0 Hparse). cbn [fst].
  assert (saveJSON NumberToString (restoredState s) = saveJSON NumberToString s) as Htext.
  { unfold saveJSON, JSON_stringify, restoredState. cbn [rawNodes rawRootId str].
    cbn [omap list_omap fst snd]. by rewrite !str_restored. }
  split; [exact Htext|]. rewrite Htext. by apply loadJSON_image.
Qed.

End StoreMore.

Lemma lossyState_numbersOK :
  numbersOK wholeToString wholeOfString (rawNodes lossyState)
  ∧ numbersOK wholeToString wholeOfString (rawRootId lossyState).
Proof.
  split; [|exact I]. cbn [lossyState rawNodes numbersOK foldr snd].
  split_and!; try exact I.
  - intros Hfin. vm_compute in Hfin. discriminate Hfin.
  - intros _. split; vm_compute; reflexivity.
Qed.

Lemma loadJSON_saveJSON_witness :
  loadJSON wholeOfString (saveJSON wholeToString lossyState) lossyState
  = (restoredState lossyState, None).
Proof.
  apply (loadJSON_saveJSON wholeToString wholeOfString lossyState lossyState);
    apply lossyState_numbersOK.
Defined.

Lemma save_load_stable_witness :
  let s' := (loadJSON wholeOfString (saveJSON wholeToString lossyState) lossyState).1 in
  saveJSON wholeToString s' = saveJSON wholeToString lossyState
  ∧ loadJSON wholeOfString (saveJSON wholeToString s') lossyState = (s', None).
Proof.
  apply (save_load_stable wholeToString wholeOfString lossyState lossyState lossyState);
    apply lossyState_numbersOK.
Defined.

(** * The canvas as a whole *)

(** The fields of a node that make the hierarchy and its labels: all but
    [pos], [size] and [expanded]. *)
Definition structure (n : BaseNode) :=
  (id n, kind n, title n, body n, headerHeight n, attachedToParent n,
   relativeOffset n, parentId n, childIds n).

Definition sameStructure (m m' : gmap string BaseNode) : Prop :=
  ∀ k, structure <$> m' !! k = structure <$> m !! k.

(** The canvas on a document, before any event. *)
Definition canvasOf (g : GraphState) : Canvas := {| store := g; views := ∅ |}.

Lemma sameStructure_refl m : sameStructure m m.
Proof. done. Qed.

Lemma sameStructure_trans m1 m2 m3 :
  sameStructure m1 m2 → sameStructure m2 m3 → sameStructure m1 m3.
Proof. intros H12 H23 k. by rewrite H23, H12. Qed.

Lemma sameStructure_alter f k m :
  (∀ n, structure (f n) = structure n) → sameStructure m (alter f k m).
Proof.
  intros Hf j. destruct (decide (k = j)) as [->|Hne].
  - rewrite lookup_alter_eq. destruct (m !! j); cbn; [|done]. by rewrite Hf.
  - by rewrite lookup_alter_ne.
Qed.

Lemma positionsOnly_sameStructure m m' : positionsOnly m m' → sameStructure m m'.
Proof.
  intros H k. specialize (H k).
  destruct (m !! k) as [n|], (m' !! k) as [n'|]; try done.
  unfold movedOnly in H. cbn. by rewrite H.
Qed.

Lemma moveNode_rootId fuel i dx dy state state' :
  moveNode fuel i dx dy state = Some state' → rootId state' = rootId state.
Proof.
  unfold moveNode. destruct (nodes state !! i).
  - destruct (moveChildren _ _ _ _ _); [|done]. by intros [= <-].
  - destruct (inherited i); [done|]. by intros [= <-].
Qed.

Lemma perform_structure fuel a state state' :
  perform fuel a state = Some state' →
  rootId state' = rootId state ∧ sameStructure (nodes state) (nodes state').
Proof.
  destruct a as [i|i dx dy|i w' h']; cbn.
  - intros [= <-]. rewrite toggleExpand_alter. split; [done|].
    by apply sameStructure_alter.
  - intros Hmove. split; [by eapply moveNode_rootId|].
    by eapply positionsOnly_sameStructure, moveNode_positionsOnly.
  - intros [= <-]. rewrite resizeNode_alter. split; [done|].
    by apply sameStructure_alter.
Qed.

Lemma performAll_structure fuel acts : ∀ state state',
  performAll fuel acts state = Some state' →
  rootId state' = rootId state ∧ sameStructure (nodes state) (nodes state').
Proof.
  unfold performAll. induction acts as [|a acts IH]; intros state state'.
  - by intros [= <-].
  - cbn [foldl]. cbn [mbind option_bind].
    destruct (perform fuel a state) as [s1|] eqn:Hs1; [|by rewrite performAll_None].
    intros Hrest. destruct (perform_structure fuel a state s1 Hs1) as [Hr1 Hs].
    destruct (IH s1 state' Hrest) as [Hr2 Hs2]. split; [congruence|].
    by eapply sameStructure_trans.
Qed.

Lemma deliver_structure fuel t ev c c' :
  deliver fuel t ev c = Some c' →
  rootId (store c') = rootId (store c)
  ∧ sameStructure (nodes (store c)) (nodes (store c')).
Proof.
  unfold deliver. destruct (nodes (store c) !! t) as [n|]; [|by intros [= <-]].
  destruct (NodeView n ev (viewOf c (id n))) as [v' acts].
  destruct (performAll fuel acts (store c)) as [s'|] eqn:Hs'; [|done].
  cbn. intros [= <-]. cbn [store]. by apply (performAll_structure fuel acts).
Qed.

(** X16. No sequence of pointer events on the canvas changes the hierarchy
    or the labels: after it the document has the same rootId and the same
    keys, and every node has its id, kind, title, body, headerHeight,
    attachedToParent, relativeOffset, parentId and childIds as before. The
    canvas changes positions, sizes and expanded flags only. *)
Theorem canvas_keeps_structure (fuel : nat) (evs : list (string * ViewEvent))
    (c c' : Canvas) :
  run fuel evs c = Some c' →
  rootId (store c') = rootId (store c)
  ∧ ∀ k, structure <$> nodes (store c') !! k = structure <$> nodes (store c) !! k.
Proof.
  unfold run. revert c. induction evs as [|[t ev] evs IH]; intros c.
  - by intros [= <-].
  - cbn [foldl fst snd]. cbn [mbind option_bind].
    destruct (deliver fuel t ev c) as [c1|] eqn:Hc1; [|by rewrite run_None].
    intros Hrest. destruct (deliver_structure fuel t ev c c1 Hc1) as [Hr1 Hs1].
    destruct (IH c1 Hrest) as [Hr2 Hs2]. split; [congruence|].
    intros k. by rewrite Hs2, Hs1.
Qed.

Lemma canvas_keeps_structure_witness :
  ∃ c', run 3 sampleEvents collapsedCanvas = Some c'
        ∧ rootId (store c') = rootId (store collapsedCanvas)
        ∧ ∀ k, structure <$> nodes (store c') !! k
               = structure <$> nodes (store collapsedCanvas) !! k.
Proof.
  eexists. split; [vm_compute; reflexivity|].
  apply (canvas_keeps_structure 3 sampleEvents collapsedCanvas).
  vm_compute. reflexivity.
Defined.

(** ** The canvas returns *)

Lemma sameStructure_attachedEdge m m' p c :
  sameStructure m m' → attachedEdge m' p c → attachedEdge m p c.
Proof.
  intros Hs (pn & cn & Hp & Hc & Hcn & Ha).
  pose proof (Hs p) as Hsp. pose proof (Hs c) as Hsc. rewrite Hp in Hsp. rewrite Hcn in Hsc.
  destruct (m !! p) as [pn0|] eqn:Hp0; [|done].
  destruct (m !! c) as [cn0|] eqn:Hc0; [|done].
  cbn in Hsp, Hsc. injection Hsp as _ _ _ _ _ _ _ _ Hkids.
  injection Hsc as _ _ _ _ _ Hatt _ _ _.
  exists pn0, cn0. split_and!; [done| |done|]; congruence.
Qed.

(** A bound on the heights of the keys of a store. *)
Definition heightBound (height : string → nat) (m : gmap string BaseNode) : nat :=
  S (max_list (height <$> (map_to_list m).*1)).

Lemma heightBound_lt height m k :
  is_Some (m !! k) → height k < heightBound height m.
Proof.
  intros [n Hk]. unfold heightBound.
  assert (height k ≤ max_list (height <$> (map_to_list m).*1)); [|lia].
  apply max_list_elem_of_le, list_elem_of_fmap. exists k. split; [done|].
  apply list_elem_of_fmap. exists (k, n). split; [done|].
  by apply elem_of_map_to_list.
Qed.

Section Returns.
Context (m0 : gmap string BaseNode) (height : string → nat).
Context (Hheight : ∀ p c, attachedEdge m0 p c → height c < height p).
Context (Hkeys : keysAreIds m0).

Let fuel := S (heightBound height m0).

Lemma sameStructure_present state k :
  sameStructure m0 (nodes state) → is_Some (m0 !! k) → is_Some (nodes state !! k).
Proof.
  intros Hs [n0 Hk]. pose proof (Hs k) as Hsk. rewrite Hk in Hsk.
  by destruct (nodes state !! k).
Qed.

Lemma sameStructure_key state k n :
  sameStructure m0 (nodes state) → nodes state !! k = Some n →
  id n = k ∧ is_Some (m0 !! k).
Proof.
  intros Hs Hn. pose proof (Hs k) as Hsk. rewrite Hn in Hsk.
  destruct (m0 !! k) as [n0|] eqn:Hk; [|done].
  cbn in Hsk. injection Hsk as Hid _ _ _ _ _ _ _ _.
  split; [|by eexists]. rewrite Hid. by apply (Hkeys k n0).
Qed.

Lemma moveNode_bounded i dx dy state :
  sameStructure m0 (nodes state) → is_Some (m0 !! i) →
  is_Some (moveNode fuel i dx dy state).
Proof.
  intros Hs Hi0. destruct (sameStructure_present state i Hs Hi0) as [n Hi].
  rewrite (moveNode_visits dx dy fuel state i n Hi).
  destruct (visits_terminates (nodes state) height) with
    (fuel := heightBound height m0) (parent := n) as [t Ht].
  - intros p c Hedge. by eapply Hheight, sameStructure_attachedEdge.
  - intros c cn Hc Hm _. apply heightBound_lt.
    pose proof (Hs c) as Hsc. rewrite Hm in Hsc. by destruct (m0 !! c).
  - unfold fuel. rewrite Ht. by eexists.
Qed.

Lemma perform_bounded a state :
  sameStructure m0 (nodes state) → is_Some (m0 !! target a) →
  is_Some (perform fuel a state).
Proof.
  intros Hs Ha. destruct a as [i|i dx dy|i w' h']; cbn; [by eexists| |by eexists].
  by apply moveNode_bounded.
Qed.

Lemma performAll_bounded acts : ∀ state,
  sameStructure m0 (nodes state) → Forall (λ a, is_Some (m0 !! target a)) acts →
  is_Some (performAll fuel acts state).
Proof.
  unfold performAll. induction acts as [|a acts IH]; intros state Hs Hall; [by eexists|].
  apply Forall_cons in Hall as [Ha Hall].
  cbn [foldl]. cbn [mbind option_bind].
  destruct (perform_bounded a state Hs Ha) as [s1 Hs1]. rewrite Hs1.
  apply IH; [|done]. eapply sameStructure_trans; [exact Hs|].
  by destruct (perform_structure fuel a state s1 Hs1).
Qed.

Lemma deliver_bounded t ev c :
  sameStructure m0 (nodes (store c)) → is_Some (deliver fuel t ev c).
Proof.
  intros Hs. unfold deliver.
  destruct (nodes (store c) !! t) as [n|] eqn:Hn; [|by eexists].
  destruct (sameStructure_key (store c) t n Hs Hn) as [Hid Ht].
  pose proof (NodeView_target n ev (viewOf c (id n))) as Htarget.
  destruct (NodeView n ev (viewOf c (id n))) as [v' acts]. cbn [snd] in Htarget.
  destruct (performAll_bounded acts (store c) Hs) as [s' Hs'].
  { apply Forall_forall. intros a Ha. by rewrite (Htarget a Ha), Hid. }
  rewrite Hs'. by eexists.
Qed.

Lemma run_bounded evs : ∀ c,
  sameStructure m0 (nodes (store c)) → is_Some (run fuel evs c).
Proof.
  unfold run. induction evs as [|[t ev] evs IH]; intros c Hs; [by eexists|].
  cbn [foldl fst snd]. cbn [mbind option_bind].
  destruct (deliver_bounded t ev c Hs) as [c1 Hc1]. rewrite Hc1.
  apply IH. eapply sameStructure_trans; [exact Hs|].
  by destruct (deliver_structure fuel t ev c c1 Hc1).
Qed.

End Returns.

(** X17. On a document whose keys are the ids of their nodes and that has
    no cycle through attached children, every sequence of pointer events is
    handled: each store call names a node of the document and returns,
    within one recursion depth that is enough for all events (the hierarchy
    does not change under them). Without the first condition a view can
    call moveNode with an id that is no key, which throws when the id is an
    inherited name. *)
Theorem canvas_returns (g : GraphState) :
  acyclicAttached (nodes g) → keysAreIds (nodes g) →
  ∃ fuel, ∀ evs, ∃ c', run fuel evs (canvasOf g) = Some c'.
Proof.
  intros [height Hheight] Hkeys. exists (S (heightBound height (nodes g))).
  intros evs. apply (run_bounded (nodes g) height Hheight Hkeys evs (canvasOf g)).
  apply sameStructure_refl.
Qed.

(** A file whose one node has the id [constructor] under the key A: a drag
    of its header calls moveNode("constructor", ..), which throws. *)
Definition foreignIdDoc : GraphState :=
  {| nodes := {[ "A" := sampleNode "constructor" act 0 0 false None [] ]};
     rootId := "A" |}.

Example foreign_id_throws :
  ∀ fuel, run fuel [ ("A", OnHeader (MouseDown {| x := 1; y := 1 |}));
                     ("A", OnHeader (MouseMove {| x := 2; y := 1 |})) ]
            (canvasOf foreignIdDoc) = None.
Proof. intros fuel. reflexivity. Qed.

Lemma canvas_returns_witness :
  ∃ fuel, ∀ evs, ∃ c', run fuel evs (canvasOf chainDoc) = Some c'.
Proof.
  apply (canvas_returns chainDoc).
  - apply treeShaped_acyclicAttached, chainDoc_treeShaped.
  - apply (bool_decide_unpack _). vm_compute. exact I.
Defined.
